(** * License monitor: usage parsing, snapshot gathering, report and log

    A shallow embedding of [new_task_project/license_monitor.py] and of
    [new_task_project/fetch_license.py].

    Modelling conventions.
    - A Python [str] is a list of characters; a character is an [ascii]
      read as a code point below 256 (Latin-1).  The character classes of
      [re] ([\d], [\s], [\w]) and of [str.strip] / [str.splitlines] are the
      ones Python 3 uses on that range.
    - A Python [int] is a [Z]; [None] is [None] of an [option].  The
      conversions between decimal text and integers, [int(s)] and [str(n)],
      raise [ValueError] beyond 4300 digits, the default limit of CPython
      ([sys.get_int_max_str_digits()]).
    - The compiled regular expressions are kept as abstract syntax and run by
      a backtracking matcher with the priorities of [re] (greedy repeats try
      the longest run first, lazy ones the shortest, [search] tries the start
      positions from left to right).
    - The process environment, the clock and the spawned tool are the
      [World] the effectful functions thread through; an exception is the
      [Raise] result of the monad [M].  The exceptions of the model are the
      ones [except Exception] catches; an interrupt of the process is not
      modelled.
    - The files are a finite map from files to texts; [open] and
      [os.path.exists] first find the file a path names ([file_of]), so two
      path texts may name one file.  A failure of the file system is not
      modelled.
    - Library functions ([re], [shlex.split], [html.escape], [csv.writer],
      [json.dumps], [str.replace], [str.split], [str.splitlines],
      [str.strip]) are modelled by what they compute on such texts.
    - The report, the table, the log and the JSON document print the counts
      of a record with [str_of_Z]: the counts read by [int] are within the
      limit of [str(n)] ([parse_usage_within_limit]), a count of lines
      beyond it needs a text of more than 10^4300 lines, and the return code
      of a process is a small integer.  The sums of the summary can go
      beyond the limit, and are printed with [str_of_int].
    - [argparse] is not modelled: the two [main] functions take the parsed
      arguments. *)

From Stdlib Require Import ZArith NArith List Ascii String Bool Lia.
From Stdlib Require Import DecimalString Decimal DecimalPos.
From stdpp Require Import gmap strings.
Import ListNotations.

Local Open Scope Z_scope.
Local Open Scope list_scope.

(** ** Text *)

Definition str := list ascii.

Definition lit (s : string) : str := list_ascii_of_string s.

Definition code (c : ascii) : N := N_of_ascii c.

Definition between (lo hi : N) (c : ascii) : bool :=
  ((lo <=? code c) && (code c <=? hi))%N.

Definition one_of (l : list N) (c : ascii) : bool :=
  existsb (N.eqb (code c)) l.

(** [\d]: the decimal digits. *)
Definition is_digit (c : ascii) : bool := between 48 57 c.

(** [\s] and [str.isspace]: TAB LF VT FF CR, FS GS RS US, space, NEL, NBSP. *)
Definition is_space (c : ascii) : bool :=
  between 9 13 c || between 28 32 c || one_of [133; 160]%N c.

(** [\w]: alphanumeric characters and the underscore. *)
Definition is_word (c : ascii) : bool :=
  between 48 57 c || between 65 90 c || between 97 122 c || one_of [95]%N c
  || one_of [170; 178; 179; 181; 185; 186; 188; 189; 190]%N c
  || between 192 214 c || between 216 246 c || between 248 255 c.

(** Line boundaries of [str.splitlines]: LF VT FF CR, FS GS RS, NEL. *)
Definition is_linebreak (c : ascii) : bool :=
  between 10 13 c || between 28 30 c || one_of [133]%N c.

Definition lower (c : ascii) : ascii :=
  if between 65 90 c then ascii_of_N (code c + 32) else c.

Fixpoint lstrip (s : str) : str :=
  match s with
  | c :: s' => if is_space c then lstrip s' else s
  | [] => []
  end.

Definition strip (s : str) : str := rev (lstrip (rev (lstrip s))).

Fixpoint splitlines_from (after_cr : bool) (cur : str) (s : str) : list str :=
  match s with
  | [] => match cur with [] => [] | _ => [cur] end
  | c :: s' =>
      if after_cr && (code c =? 10)%N then splitlines_from false cur s'
      else if is_linebreak c then cur :: splitlines_from (code c =? 13)%N [] s'
      else splitlines_from false (cur ++ [c]) s'
  end.

Definition splitlines (s : str) : list str := splitlines_from false [] s.

(** ** Exceptions *)

(** [type(e).__name__] and [str(e)] of an exception. *)
Record exn := Exn { exn_kind : str; exn_msg : str }.

Inductive result (A : Type) :=
| Return (a : A)
| Raise (e : exn).
Arguments Return {A} a.
Arguments Raise {A} e.

(** ** Integers and their decimal text *)

(** The value of a run of decimal digits. *)
Definition digit_val (c : ascii) : Z := Z.of_N (code c) - 48.

Definition int_value (g : str) : Z :=
  fold_left (fun acc c => 10 * acc + digit_val c) g 0.

(** The decimal text of an integer. *)
Definition str_of_Z (z : Z) : str :=
  lit (NilZero.string_of_int (Z.to_int z)).

(** [sys.get_int_max_str_digits()], by default. *)
Definition int_max_str_digits : Z := 4300.

(** [int(g)] for a run of decimal digits: the digits are counted, leading
    zeros included, and a run beyond the limit raises. *)
Definition int (g : str) : result Z :=
  if Z.of_nat (length g) <=? int_max_str_digits then Return (int_value g)
  else Raise (Exn (lit "ValueError")
                (lit "Exceeds the limit (4300 digits) for integer string conversion: value has "
                 ++ str_of_Z (Z.of_nat (length g))
                 ++ lit " digits; use sys.set_int_max_str_digits() to increase the limit")).

(** [str(z)], also inside an f-string: an integer of more than 4300 digits
    raises. *)
Definition str_of_int (z : Z) : result str :=
  if Z.abs z <? 10 ^ int_max_str_digits then Return (str_of_Z z)
  else Raise (Exn (lit "ValueError")
                (lit "Exceeds the limit (4300 digits) for integer string conversion; use sys.set_int_max_str_digits() to increase the limit")).

(** ** Regular expressions *)

Record flags := { IGNORECASE : bool; DOTALL : bool }.

Inductive cset :=
| Chr (c : ascii)   (* a literal character *)
| Digit             (* \d *)
| Space             (* \s *)
| Dot.              (* . *)

Inductive item :=
| One (cs : cset)       (* x *)
| Opt (cs : cset)       (* x? *)
| Star (cs : cset)      (* x* *)
| Plus (cs : cset)      (* x+ *)
| Lazy (cs : cset)      (* x*? *)
| Capture (cs : cset)   (* (x+) *)
| WordB.                (* \b *)

Definition regex := list item.

Record pattern := { pat_items : regex; pat_flags : flags }.

Definition cmatch (fl : flags) (cs : cset) (x : ascii) : bool :=
  match cs with
  | Chr c => if IGNORECASE fl then bool_decide (lower x = lower c)
             else bool_decide (x = c)
  | Digit => is_digit x
  | Space => is_space x
  | Dot => DOTALL fl || negb (code x =? 10)%N
  end.

Definition word_at (o : option ascii) : bool :=
  match o with Some c => is_word c | None => false end.

Definition boundary (prev next : option ascii) : bool :=
  negb (eqb (word_at prev) (word_at next)).

(** The groups of a match, in the order of the pattern. *)
Definition groups := list str.

(** A greedy run of [cs]: as many characters as possible, then the rest of
    the pattern [k]; one character is given back at each failure of [k]. *)
Fixpoint greedy (fl : flags) (cs : cset)
    (k : str -> option ascii -> str -> option groups)
    (run : str) (prev : option ascii) (s : str) : option groups :=
  match s with
  | c :: s' =>
      if cmatch fl cs c then
        match greedy fl cs k (run ++ [c]) (Some c) s' with
        | Some r => Some r
        | None => k run prev s
        end
      else k run prev s
  | [] => k run prev []
  end.

(** A lazy run of [cs]: the rest of the pattern first, one more character at
    each failure. *)
Fixpoint lazy (fl : flags) (cs : cset)
    (k : option ascii -> str -> option groups)
    (prev : option ascii) (s : str) : option groups :=
  match k prev s with
  | Some r => Some r
  | None =>
      match s with
      | c :: s' => if cmatch fl cs c then lazy fl cs k (Some c) s' else None
      | [] => None
      end
  end.

(** [mt fl p prev s]: the first match of [p] that starts at the head of [s],
    where [prev] is the character before it. *)
Fixpoint mt (fl : flags) (p : regex) (prev : option ascii) (s : str)
  : option groups :=
  match p with
  | [] => Some []
  | it :: p' =>
      match it with
      | One cs =>
          match s with
          | c :: s' => if cmatch fl cs c then mt fl p' (Some c) s' else None
          | [] => None
          end
      | Opt cs =>
          match s with
          | c :: s' =>
              if cmatch fl cs c then
                match mt fl p' (Some c) s' with
                | Some r => Some r
                | None => mt fl p' prev s
                end
              else mt fl p' prev s
          | [] => mt fl p' prev []
          end
      | Star cs => greedy fl cs (fun _ => mt fl p') [] prev s
      | Plus cs =>
          match s with
          | c :: s' =>
              if cmatch fl cs c
              then greedy fl cs (fun _ => mt fl p') [c] (Some c) s'
              else None
          | [] => None
          end
      | Lazy cs => lazy fl cs (mt fl p') prev s
      | Capture cs =>
          match s with
          | c :: s' =>
              if cmatch fl cs c
              then greedy fl cs
                     (fun run pv r => option_map (cons run) (mt fl p' pv r))
                     [c] (Some c) s'
              else None
          | [] => None
          end
      | WordB => if boundary prev (head s) then mt fl p' prev s else None
      end
  end.

(** [search]: the start positions from left to right, the end of the text
    included. *)
Fixpoint search (fl : flags) (p : regex) (prev : option ascii) (s : str)
  : option groups :=
  match mt fl p prev s with
  | Some r => Some r
  | None =>
      match s with
      | c :: s' => search fl p (Some c) s'
      | [] => None
      end
  end.

Definition re_search (pat : pattern) (s : str) : option groups :=
  search (pat_flags pat) (pat_items pat) None s.

(** [m.group(n)] for [n >= 1]. *)
Definition group (n : nat) (m : groups) : str := nth (pred n) m [].

(** ** The patterns of the module *)

Definition word (s : string) : regex := map (fun c => One (Chr c)) (lit s).

Definition I_S : flags := {| IGNORECASE := true; DOTALL := true |}.
Definition I_only : flags := {| IGNORECASE := true; DOTALL := false |}.

(** [Total\s+of\s+(\d+)\s+licenses\s+issued;?\s*Total\s+of\s+(\d+)\s+licenses\s+in\s+use] *)
Definition PAT_FLEXLM : regex :=
  word "Total" ++ [Plus Space] ++ word "of" ++ [Plus Space; Capture Digit; Plus Space]
  ++ word "licenses" ++ [Plus Space] ++ word "issued" ++ [Opt (Chr ";"); Star Space]
  ++ word "Total" ++ [Plus Space] ++ word "of" ++ [Plus Space; Capture Digit; Plus Space]
  ++ word "licenses" ++ [Plus Space] ++ word "in" ++ [Plus Space] ++ word "use".

(** [Total\s+licenses\s*:\s*(\d+).*?In\s+use\s*:\s*(\d+)] *)
Definition PAT_TOTAL_INUSE : regex :=
  word "Total" ++ [Plus Space] ++ word "licenses" ++ [Star Space] ++ word ":"
  ++ [Star Space; Capture Digit; Lazy Dot]
  ++ word "In" ++ [Plus Space] ++ word "use" ++ [Star Space] ++ word ":"
  ++ [Star Space; Capture Digit].

(** [Issued\s*=\s*(\d+).*?Used\s*=\s*(\d+)] *)
Definition PAT_ISSUED_USED : regex :=
  word "Issued" ++ [Star Space] ++ word "=" ++ [Star Space; Capture Digit; Lazy Dot]
  ++ word "Used" ++ [Star Space] ++ word "=" ++ [Star Space; Capture Digit].

(** [re.compile(..., re.I | re.S)] of the three. *)
Definition RE_FLEXLM : pattern :=
  {| pat_items := PAT_FLEXLM; pat_flags := I_S |}.
Definition RE_TOTAL_INUSE : pattern :=
  {| pat_items := PAT_TOTAL_INUSE; pat_flags := I_S |}.
Definition RE_ISSUED_USED : pattern :=
  {| pat_items := PAT_ISSUED_USED; pat_flags := I_S |}.

Definition COUNT_PATTERNS : list pattern :=
  [RE_FLEXLM; RE_TOTAL_INUSE; RE_ISSUED_USED].

(** [\bin\s*use\b], flag [re.I] *)
Definition IN_USE : pattern :=
  {| pat_items := [WordB] ++ word "in" ++ [Star Space] ++ word "use" ++ [WordB];
     pat_flags := I_only |}.

(** ** parse_usage *)

(** The [for pat in COUNT_PATTERNS] loop: the first pattern that matches
    returns. *)
Fixpoint first_match (pats : list pattern) (output : str) : option groups :=
  match pats with
  | [] => None
  | pat :: rest =>
      match re_search pat output with
      | Some m => Some m
      | None => first_match rest output
      end
  end.

(** [total = int(g1); used = int(g2); return total, used] *)
Definition counts_of (g1 g2 : str) : result (option Z * option Z) :=
  match int g1 with
  | Raise e => Raise e
  | Return total =>
      match int g2 with
      | Raise e => Raise e
      | Return used => Return (Some total, Some used)
      end
  end.

(** [if re.search(...)]: a match object is true, [None] is false. *)
Definition in_text (pat : pattern) (s : str) : bool :=
  match re_search pat s with Some _ => true | None => false end.

Definition in_use_line (l : str) : bool := in_text IN_USE l.

Definition used_guess (output : str) : Z :=
  let lines := map strip (splitlines output) in
  Z.of_nat (length (List.filter in_use_line lines)).

Definition parse_usage (output : str) : result (option Z * option Z) :=
  match first_match COUNT_PATTERNS output with
  | Some m => counts_of (group 1 m) (group 2 m)
  | None =>
      if 0 <? used_guess output then Return (None, Some (used_guess output))
      else Return (None, None)
  end.

(** ** The host and the monad of effects *)

(** What [subprocess.run(cmd, capture_output=True, text=True,
    timeout=timeout, check=False)] does: it completes with a return code and
    the two captured streams, or raises ([TimeoutExpired],
    [FileNotFoundError], ...). *)
Inductive outcome :=
| Completed (returncode : Z) (stdout stderr : str)
| Failed (e : exn).

(** The host of the program: [os.environ], the clock read by
    [dt.datetime.now().strftime("%Y-%m-%d %H:%M:%S")], and the spawned
    process, which may change the world. *)
Class Host (World : Type) := {
  environ : World -> gmap string str;
  now : World -> str;
  spawn : list str -> Z -> World -> outcome * World
}.

(** A host with a fixed environment and clock, whose tool answers by the
    command alone and leaves the world as it is. *)
Record Script := {
  script_environ : gmap string str;
  script_now : str;
  script_tool : list str -> Z -> outcome
}.

#[export] Instance script_host : Host Script := {
  environ w := script_environ w;
  now w := script_now w;
  spawn cmd timeout w := (script_tool w cmd timeout, w)
}.

(** The world of the docstring's first example,
    [LICENSE_CHECK_CMD="ckout_test -f {feature}"], with a given tool. *)
Definition templated_world (tool : list str -> Z -> outcome) : Script :=
  {| script_environ :=
       {[ "LICENSE_CHECK_CMD"%string := lit "ckout_test -f {feature}" ]};
     script_now := lit "2024-05-01 12:00:00";
     script_tool := tool |}.

Definition M (World A : Type) : Type := World -> result A * World.

Definition ret {W A} (a : A) : M W A := fun w => (Return a, w).

Definition throw {W A} (e : exn) : M W A := fun w => (Raise e, w).

Definition bind {W A B} (m : M W A) (f : A -> M W B) : M W B :=
  fun w => match m w with
           | (Return a, w') => f a w'
           | (Raise e, w') => (Raise e, w')
           end.

Definition lift {W A} (r : result A) : M W A := fun w => (r, w).

Notation "x <- m ;; k" := (bind m (fun x => k))
  (at level 100, m at next level, right associativity).

(** ** shlex.split *)

Definition dq : ascii := ascii_of_N 34.   (* the double quote *)
Definition sq : ascii := ascii_of_N 39.   (* the single quote *)
Definition bsl : ascii := ascii_of_N 92.  (* the backslash *)

Definition eqc (a b : ascii) : bool := bool_decide (a = b).

(** [shlex.whitespace]: space, TAB, CR, LF. *)
Definition shlex_ws (c : ascii) : bool := one_of [32; 9; 13; 10]%N c.

Definition shlex_quote (c : ascii) : bool := eqc c dq || eqc c sq.

Definition nonempty (s : str) : bool :=
  match s with [] => false | _ => true end.

(** The states of [shlex.read_token]: [' '], ['a'], a quote character, and
    the escape character with the state to go back to ([None] for ['a']). *)
Inductive lex_state :=
| InSpace
| InWord
| InQuote (q : ascii)
| InEscape (back : option ascii).

(** [list(shlex.shlex(s, posix=True))] with [whitespace_split = True] and no
    comment characters, which is [shlex.split(s)]. *)
Fixpoint shlex_tokens (st : lex_state) (token : str) (quoted : bool) (s : str)
  : result (list str) :=
  match s with
  | [] =>
      match st with
      | InSpace | InWord =>
          Return (if nonempty token || quoted then [token] else [])
      | InQuote _ => Raise (Exn (lit "ValueError") (lit "No closing quotation"))
      | InEscape _ => Raise (Exn (lit "ValueError") (lit "No escaped character"))
      end
  | c :: s' =>
      match st with
      | InSpace =>
          if shlex_ws c then
            if nonempty token || quoted then
              match shlex_tokens InSpace [] false s' with
              | Return l => Return (token :: l)
              | Raise e => Raise e
              end
            else shlex_tokens InSpace token quoted s'
          else if eqc c bsl then shlex_tokens (InEscape None) token quoted s'
          else if shlex_quote c then shlex_tokens (InQuote c) token quoted s'
          else shlex_tokens InWord [c] quoted s'
      | InWord =>
          if shlex_ws c then
            if nonempty token || quoted then
              match shlex_tokens InSpace [] false s' with
              | Return l => Return (token :: l)
              | Raise e => Raise e
              end
            else shlex_tokens InSpace token quoted s'
          else if shlex_quote c then shlex_tokens (InQuote c) token quoted s'
          else if eqc c bsl then shlex_tokens (InEscape None) token quoted s'
          else shlex_tokens InWord (token ++ [c]) quoted s'
      | InQuote q =>
          if eqc c q then shlex_tokens InWord token true s'
          else if eqc c bsl && eqc q dq
          then shlex_tokens (InEscape (Some q)) token true s'
          else shlex_tokens (InQuote q) (token ++ [c]) true s'
      | InEscape back =>
          match back with
          | Some q =>
              let token' :=
                if negb (eqc c bsl) && negb (eqc c q) then token ++ [bsl]
                else token in
              shlex_tokens (InQuote q) (token' ++ [c]) quoted s'
          | None => shlex_tokens InWord (token ++ [c]) quoted s'
          end
      end
  end.

Definition shlex_split (s : str) : result (list str) :=
  shlex_tokens InSpace [] false s.

(** ** str.replace and the [in] test on strings *)

Fixpoint starts_with (old s : str) : bool :=
  match old, s with
  | [], _ => true
  | a :: old', b :: s' => eqc a b && starts_with old' s'
  | _ :: _, [] => false
  end.

Fixpoint contains (old s : str) : bool :=
  starts_with old s
  || match s with
     | _ :: s' => contains old s'
     | [] => false
     end.

(** [s.replace(old, new)] for a non-empty [old]: the occurrences from left to
    right, without overlap; [skip] characters of a replaced occurrence are
    still to be dropped. *)
Fixpoint replace_from (old new : str) (skip : nat) (s : str) : str :=
  match s with
  | [] => []
  | c :: s' =>
      match skip with
      | S n => replace_from old new n s'
      | O =>
          if starts_with old s
          then new ++ replace_from old new (pred (length old)) s'
          else c :: replace_from old new O s'
      end
  end.

Definition replace (old new s : str) : str := replace_from old new O s.

(** ** run_ckout *)

(** Truth value of [os.environ.get(...)]: [None] and the empty string are
    false. *)
Definition truthy (o : option str) : bool :=
  match o with Some (_ :: _) => true | _ => false end.

Definition py_or (a b : option str) : option str := if truthy a then a else b.

Definition run_ckout {W} `{Host W} (feature : str) (timeout : Z)
  : M W (Z * str * str) :=
  fun w =>
  (let env_cmd := py_or (environ w !! "LICENSE_CHECK_CMD"%string)
                        (environ w !! "LICENSE_CMD"%string) in
   cmd <- (if truthy env_cmd then
             let cmd_str := default [] env_cmd in
             if contains (lit "{feature}") cmd_str then
               lift (shlex_split (replace (lit "{feature}") feature cmd_str))
             else
               l <- lift (shlex_split cmd_str) ;;
               ret (l ++ [feature])
           else ret [lit "ckout_test"; lit "-f"; feature]) ;;
   fun w' =>
     match spawn cmd timeout w' with
     | (Completed returncode stdout stderr, w'') =>
         (Return (returncode, stdout, stderr), w'')
     | (Failed e, w'') =>
         (Return (1, [], exn_kind e ++ lit ": " ++ exn_msg e), w'')
     end) w.

(** The command [run_ckout] builds before its [try] block. *)
Definition command_of (env : gmap string str) (feature : str)
  : result (list str) :=
  let env_cmd := py_or (env !! "LICENSE_CHECK_CMD"%string)
                       (env !! "LICENSE_CMD"%string) in
  if truthy env_cmd then
    let cmd_str := default [] env_cmd in
    if contains (lit "{feature}") cmd_str then
      shlex_split (replace (lit "{feature}") feature cmd_str)
    else
      match shlex_split cmd_str with
      | Return l => Return (l ++ [feature])
      | Raise e => Raise e
      end
  else Return [lit "ckout_test"; lit "-f"; feature].

(** ** gather *)

Record UsageRecord := {
  feature : str;
  total : option Z;
  used : option Z;
  unused : option Z;
  timestamp : str;
  rc : Z;
  stderr : str;
  raw : str
}.

Definition derive_unused (total used : option Z) : option Z :=
  match total, used with
  | Some t, Some u => Some (t - u)
  | _, _ => None
  end.

(** The body of the [for feat in features] loop. *)
Definition poll {W} `{Host W} (stamp : str) (feat : str) : M W UsageRecord :=
  r <- run_ckout feat 30 ;;
  let '(rc, out, err) := r in
  counts <- lift (parse_usage out) ;;
  let '(total, used) := counts in
  ret {| feature := feat; total := total; used := used;
         unused := derive_unused total used;
         timestamp := stamp; rc := rc;
         stderr := strip err; raw := strip out |}.

Fixpoint gather_loop {W} `{Host W} (stamp : str) (features : list str)
    (results : list UsageRecord) : M W (list UsageRecord) :=
  match features with
  | [] => ret results
  | feat :: rest =>
      r <- poll stamp feat ;;
      gather_loop stamp rest (results ++ [r])
  end.

Definition gather {W} `{Host W} (features : list str)
  : M W (list UsageRecord) :=
  fun w => gather_loop (now w) features [] w.

(** ** render_html *)

(** [html.escape(s)] (with [quote=True]): [&], [<], [>] and both quotes are
    replaced by their entities. *)
Definition escape_char (c : ascii) : str :=
  if eqc c "&" then lit "&amp;"
  else if eqc c "<" then lit "&lt;"
  else if eqc c ">" then lit "&gt;"
  else if eqc c dq then lit "&quot;"
  else if eqc c sq then lit "&#x27;"
  else [c].

Definition html_escape (s : str) : str := concat (map escape_char s).

(** The text of a template; a backquote stands for a double quote. *)
Definition tpl (s : string) : str :=
  map (fun c => if eqc c "`" then dq else c) (lit s).

Definition head_html (title : str) : str :=
  tpl "<!doctype html>
<html>
<head>
<meta charset=`utf-8`>
<meta http-equiv=`refresh` content=`300`>
<title>" ++ html_escape title ++ tpl "</title>
<style>
body { font-family: Arial, sans-serif; margin: 20px; }
table { border-collapse: collapse; width: 100%; max-width: 1000px; }
th, td { border: 1px solid #ccc; padding: 8px; text-align: left; }
th { background: #f7f7f7; }
.status-ok { color: #0a7a0a; font-weight: 600; }
.status-warn { color: #cc7a00; font-weight: 600; }
.status-err { color: #b00020; font-weight: 600; }
.small { color: #666; font-size: 12px; }
</style>
</head>
<body>
<h2>" ++ html_escape title ++ tpl "</h2>
".

Definition table_header : str :=
  tpl "<table>
<thead>
<tr>
  <th>Feature</th>
  <th>Used</th>
  <th>Unused</th>
  <th>Total</th>
  <th>Last Updated</th>
  <th>Status</th>
</tr>
</thead>
<tbody>
".

Definition table_footer : str :=
  tpl "</tbody>
</table>
".

Definition footer : str :=
  tpl "<p class=`small`>Auto-refreshes every 5 minutes. Adjust parsing rules in the script if needed.</p>
</body>
</html>
".

(** [str(v) if v is not None else "?"] *)
Definition disp (v : option Z) : str :=
  match v with Some z => str_of_Z z | None => lit "?" end.

(** The status class and text of a row of the report. *)
Definition html_status (total used : option Z) : str * str :=
  match total, used with
  | Some t, Some u =>
      if u <? t then (lit "status-ok", lit "OK")
      else if u =? t then (lit "status-err", lit "Fully used")
      else (lit "status-warn", lit "Over-reported")
  | _, _ => (lit "status-warn", lit "Unknown parse")
  end.

Definition html_row (r : UsageRecord) : str :=
  let feature := html_escape (feature r) in
  let ts := html_escape (timestamp r) in
  let used_disp := disp (used r) in
  let total_disp := disp (total r) in
  let unused_disp :=
    match unused r with
    | Some z => str_of_Z z
    | None => match total r with Some _ => lit "?" | None => lit "?" end
    end in
  let '(status_cls, status_text) := html_status (total r) (used r) in
  tpl "<tr>
  <td>" ++ feature ++ tpl "</td>
  <td>" ++ used_disp ++ tpl "</td>
  <td>" ++ unused_disp ++ tpl "</td>
  <td>" ++ total_disp ++ tpl "</td>
  <td>" ++ ts ++ tpl "</td>
  <td class=`" ++ status_cls ++ tpl "`>" ++ status_text ++ tpl "</td>
</tr>
".

Definition render_html (rows : list UsageRecord) (title : str) : str :=
  head_html title ++ table_header ++ concat (map html_row rows)
  ++ table_footer ++ footer.

(** ** print_table (fetch_license.py): the rows it prints *)

Definition table_status (total used : option Z) : str :=
  match total, used with
  | Some t, Some u =>
      if u <? t then lit "OK"
      else if u =? t then lit "Fully used"
      else lit "Over-reported"
  | _, _ => lit "Unknown parse"
  end.

Definition display_row (r : UsageRecord) : list str :=
  let used_s := disp (used r) in
  let total_s := disp (total r) in
  let unused_s :=
    match unused r with
    | Some z => str_of_Z z
    | None => match total r with Some _ => lit "?" | None => lit "?" end
    end in
  [feature r; used_s; unused_s; total_s;
   table_status (total r) (used r); timestamp r].

Definition display_rows (rows : list UsageRecord) : list (list str) :=
  map display_row rows.

(** ** The CSV log *)

(** The files of the host, each under its own name: a file that has no entry
    does not exist. *)
Abbreviation files := (gmap string str).

(** The file a path names on the host, whether it exists or not: the current
    directory, [.] and [..] and the links are followed, so that two path
    texts may name one file. *)
Class Paths := {
  file_of : string -> string
}.

(** A value handed to [csv.writer.writerow]. *)
Inductive cell :=
| CStr (s : str)
| CInt (z : Z)
| CNone.

Definition opt_cell (v : option Z) : cell :=
  match v with Some z => CInt z | None => CNone end.

(** The text of a field: [None] is written as the empty string. *)
Definition cell_text (c : cell) : str :=
  match c with
  | CStr s => s
  | CInt z => str_of_Z z
  | CNone => []
  end.

(** [QUOTE_MINIMAL]: a field is quoted when it holds the delimiter, the quote
    character or a line break, and its quotes are doubled. *)
Definition needs_quote (f : str) : bool :=
  existsb (fun c => eqc c "," || eqc c dq || one_of [13; 10]%N c) f.

Definition csv_field (f : str) : str :=
  if needs_quote f
  then [dq] ++ concat (map (fun c => if eqc c dq then [dq; dq] else [c]) f) ++ [dq]
  else f.

Fixpoint join (sep : str) (l : list str) : str :=
  match l with
  | [] => []
  | [x] => x
  | x :: rest => x ++ sep ++ join sep rest
  end.

(** The line [writerow] writes, with the line terminator CR LF. *)
Definition csv_line (row : list cell) : str :=
  join (lit ",") (map (fun c => csv_field (cell_text c)) row)
  ++ [ascii_of_N 13; ascii_of_N 10].

(** [os.path.exists(path)] *)
Definition exists_path {P : Paths} (fs : files) (path : string) : bool :=
  bool_decide (is_Some (fs !! file_of path)).

(** [open(path, "w")] followed by writes of [data]. *)
Definition write_file {P : Paths} (path : string) (data : str) (fs : files)
  : files :=
  <[file_of path := data]> fs.

(** [open(path, "a")] followed by writes of [data]. *)
Definition append_file {P : Paths} (path : string) (data : str) (fs : files)
  : files :=
  <[file_of path := default [] (fs !! file_of path) ++ data]> fs.

Definition header_row : list cell :=
  [CStr (lit "timestamp"); CStr (lit "feature"); CStr (lit "used");
   CStr (lit "unused"); CStr (lit "total")].

Definition ensure_csv_header {P : Paths} (csv_path : string) (fs : files)
  : files :=
  if negb (exists_path fs csv_path)
  then write_file csv_path (csv_line header_row) fs
  else fs.

Definition record_row (r : UsageRecord) : list cell :=
  [CStr (timestamp r); CStr (feature r); opt_cell (used r);
   opt_cell (unused r); opt_cell (total r)].

Definition append_csv {P : Paths} (csv_path : string) (rows : list UsageRecord)
    (fs : files) : files :=
  let fs1 := ensure_csv_header csv_path fs in
  append_file csv_path (concat (map (fun r => csv_line (record_row r)) rows)) fs1.

(** A host without a command in its environment, whose world counts the
    polls and whose tool reports one more seat in use at each poll. *)
#[export] Instance counting_host : Host nat := {
  environ _ := ∅;
  now _ := lit "2024-05-01 12:00:00";
  spawn _ _ n :=
    (Completed 0 (lit "Issued=9 Used=" ++ str_of_Z (Z.of_nat n)) [], S n)
}.

(** The records of a result, none when it raised. *)
Definition fst_records {W} (r : result (list UsageRecord) * W)
  : list UsageRecord :=
  match fst r with Return rs => rs | Raise _ => [] end.

(** The text of the log before the rows of a call are added: what the file
    holds, or the header line when there is no file. *)
Definition log_base {P : Paths} (path : string) (fs : files) : str :=
  match fs !! file_of path with
  | Some old => old
  | None => csv_line header_row
  end.

(** A host on which a path names the file of its text, apart from the
    leading [./] of a path, which names the directory the path starts from. *)
Fixpoint drop_dot_slash (n : nat) (path : string) : string :=
  match n with
  | O => path
  | S n' =>
      match path with
      | String "."%char (String "/"%char rest) => drop_dot_slash n' rest
      | _ => path
      end
  end.

Definition one_directory : Paths :=
  {| file_of path := drop_dot_slash (String.length path) path |}.

(** A character [shlex] takes as it is: no whitespace, quote or backslash. *)
Definition plain_char (c : ascii) : bool :=
  negb (shlex_ws c) && negb (shlex_quote c) && negb (eqc c bsl).

(** ** The feature list of the command line *)

(** [s.split(",")]: the pieces between the commas; the empty text gives one
    empty piece. *)
Fixpoint split_from (sep : ascii) (cur : str) (s : str) : list str :=
  match s with
  | [] => [cur]
  | c :: s' =>
      if eqc c sep then cur :: split_from sep [] s'
      else split_from sep (cur ++ [c]) s'
  end.

Definition split_commas (s : str) : list str := split_from "," [] s.

(** [[f.strip() for f in pieces if f.strip()]] *)
Fixpoint stripped_nonempty (pieces : list str) : list str :=
  match pieces with
  | [] => []
  | f :: rest =>
      if nonempty (strip f) then strip f :: stripped_nonempty rest
      else stripped_nonempty rest
  end.

Definition parse_features (features : str) : list str :=
  stripped_nonempty (split_commas features).

(** ** print_table (fetch_license.py): the lines it prints *)

Definition headers : list str :=
  [lit "Feature"; lit "Used"; lit "Unused"; lit "Total"; lit "Status";
   lit "Updated"].

Definition nonempty_row (r : list str) : bool :=
  match r with [] => false | _ => true end.

(** [zip] of all the rows at once: the columns, as many as the shortest row
    has cells; [n] is the number of cells of the first row. *)
Fixpoint zip_star_n (n : nat) (rows : list (list str)) : list (list str) :=
  match n with
  | O => []
  | S n' =>
      if forallb nonempty_row rows
      then map (hd []) rows :: zip_star_n n' (map (@tl str) rows)
      else []
  end.

Definition zip_star (rows : list (list str)) : list (list str) :=
  match rows with
  | [] => []
  | r :: _ => zip_star_n (length r) rows
  end.

(** The widths of the columns; a column is never empty, it holds at least
    the cell of the header. *)
Definition table_widths (display : list (list str)) : list nat :=
  let cols := match display with
              | [] => []
              | _ => zip_star ([headers] ++ display)
              end in
  match cols with
  | [] => repeat 8%nat (length headers)
  | _ => map (fun col => list_max (map (@length ascii) col)) cols
  end.

(** [s.ljust(w)] *)
Definition ljust (s : str) (w : nat) : str :=
  s ++ repeat " "%char (w - length s).

Definition fmt (widths : list nat) (row : list str) : str :=
  join (lit "  ") (map (fun cw => ljust (fst cw) (snd cw)) (combine row widths)).

(** The lines [print_table] prints, in order. *)
Definition print_table (rows : list UsageRecord) : list str :=
  let display := display_rows rows in
  let widths := table_widths display in
  [fmt widths headers;
   join (lit "  ") (map (fun w => repeat "-"%char w) widths)]
  ++ map (fmt widths) display.

(** ** The summary and the JSON document of fetch_license.py *)

Definition known_totals (rows : list UsageRecord) : list Z :=
  flat_map (fun r => match total r with Some t => [t] | None => [] end) rows.

Definition known_useds (rows : list UsageRecord) : list Z :=
  flat_map (fun r => match used r with Some u => [u] | None => [] end) rows.

(** [sum(...) if known else None] *)
Definition sum_known (known : list Z) : option Z :=
  match known with
  | [] => None
  | _ => Some (fold_left Z.add known 0)
  end.

(** The first line of the summary; the f-string formats [sum_used], then
    [sum_total]. *)
Definition summary_head (rows : list UsageRecord) : result str :=
  let sum_total := sum_known (known_totals rows) in
  let sum_used := sum_known (known_useds rows) in
  match sum_used, sum_total with
  | Some u, Some t =>
      match str_of_int u with
      | Raise e => Raise e
      | Return su =>
          match str_of_int t with
          | Raise e => Raise e
          | Return st =>
              Return (lit "You have " ++ su ++ lit " license(s) in use out of "
                      ++ st ++ lit " total.")
          end
      end
  | Some u, None =>
      match str_of_int u with
      | Raise e => Raise e
      | Return su => Return (lit "You have " ++ su ++ lit " license(s) in use.")
      end
  | None, _ => Return (lit "You have ? license(s) in use.")
  end.

(** [used if used is not None else "?"], formatted in an f-string. *)
Definition disp_checked (v : option Z) : result str :=
  match v with Some z => str_of_int z | None => Return (lit "?") end.

(** The line of a feature in the summary. *)
Definition summary_row (r : UsageRecord) : result str :=
  match disp_checked (used r) with
  | Raise e => Raise e
  | Return u =>
      match disp_checked (total r) with
      | Raise e => Raise e
      | Return t =>
          Return (lit "- " ++ feature r ++ lit ": " ++ u ++ lit "/" ++ t
                  ++ lit " in use")
      end
  end.

(** The lines of the summary, each formatted when its turn to be printed
    comes. *)
Definition summary_lines (rows : list UsageRecord) : list (result str) :=
  summary_head rows :: map summary_row rows.

Definition hex_digit (n : N) : ascii :=
  if (n <? 10)%N then ascii_of_N (48 + n) else ascii_of_N (87 + n).

(** One character of a JSON string, with [ensure_ascii]: the quote, the
    backslash and the characters outside the printable ASCII range are
    escaped. *)
Definition json_char (c : ascii) : str :=
  if eqc c dq then [bsl; dq]
  else if eqc c bsl then [bsl; bsl]
  else if (code c =? 10)%N then [bsl; "n"%char]
  else if (code c =? 13)%N then [bsl; "r"%char]
  else if (code c =? 9)%N then [bsl; "t"%char]
  else if (code c =? 8)%N then [bsl; "b"%char]
  else if (code c =? 12)%N then [bsl; "f"%char]
  else if between 32 126 c then [c]
  else [bsl; "u"%char; "0"%char; "0"%char;
        hex_digit (code c / 16); hex_digit (code c mod 16)].

Definition json_string (s : str) : str :=
  [dq] ++ concat (map json_char s) ++ [dq].

Definition json_opt (v : option Z) : str :=
  match v with Some z => str_of_Z z | None => lit "null" end.

Definition LF : str := [ascii_of_N 10].

(** One slim record, at the depth of the list of the document. *)
Definition json_record (r : UsageRecord) : str :=
  lit "    {" ++ LF
  ++ lit "      " ++ json_string (lit "feature") ++ lit ": "
  ++ json_string (feature r) ++ lit "," ++ LF
  ++ lit "      " ++ json_string (lit "used") ++ lit ": "
  ++ json_opt (used r) ++ lit "," ++ LF
  ++ lit "      " ++ json_string (lit "unused") ++ lit ": "
  ++ json_opt (unused r) ++ lit "," ++ LF
  ++ lit "      " ++ json_string (lit "total") ++ lit ": "
  ++ json_opt (total r) ++ lit "," ++ LF
  ++ lit "      " ++ json_string (lit "timestamp") ++ lit ": "
  ++ json_string (timestamp r) ++ lit "," ++ LF
  ++ lit "      " ++ json_string (lit "rc") ++ lit ": "
  ++ str_of_Z (rc r) ++ lit "," ++ LF
  ++ lit "      " ++ json_string (lit "error") ++ lit ": "
  ++ json_string (stderr r) ++ LF
  ++ lit "    }".

(** [json.dumps({"licenses": slim}, indent=2)] *)
Definition json_document (rows : list UsageRecord) : str :=
  lit "{" ++ LF ++ lit "  " ++ json_string (lit "licenses") ++ lit ": "
  ++ match rows with
     | [] => lit "[]"
     | _ => lit "[" ++ LF ++ join (lit "," ++ LF) (map json_record rows)
            ++ LF ++ lit "  ]"
     end
  ++ LF ++ lit "}".

(** ** The two command lines *)

(** The machine a script runs on: the world of the host, the files, and the
    lines printed so far on the two streams. *)
Record Sys (W : Type) := {
  sys_world : W;
  sys_files : files;
  sys_out : list str;
  sys_err : list str
}.
Arguments sys_world {W} s.
Arguments sys_files {W} s.
Arguments sys_out {W} s.
Arguments sys_err {W} s.

(** How a script ends: [sys.exit(code)] or the end of [main] (code 0), an
    exception nobody caught, or, for the monitor, still looping. *)
Inductive ending :=
| Exit (code : Z)
| Uncaught (e : exn)
| Looping.

Definition print_out {W} (line : str) (s : Sys W) : Sys W :=
  {| sys_world := sys_world s; sys_files := sys_files s;
     sys_out := sys_out s ++ [line]; sys_err := sys_err s |}.

Definition print_err {W} (line : str) (s : Sys W) : Sys W :=
  {| sys_world := sys_world s; sys_files := sys_files s;
     sys_out := sys_out s; sys_err := sys_err s ++ [line] |}.

Definition with_world {W} (w : W) (s : Sys W) : Sys W :=
  {| sys_world := w; sys_files := sys_files s;
     sys_out := sys_out s; sys_err := sys_err s |}.

Definition with_files {W} (fs : files) (s : Sys W) : Sys W :=
  {| sys_world := sys_world s; sys_files := fs;
     sys_out := sys_out s; sys_err := sys_err s |}.

(** [time.sleep] of the host. *)
Class Timer (World : Type) := {
  sleep : Z -> World -> World
}.

(** The arguments of license_monitor.py. *)
Record Args := {
  arg_features : str;
  arg_out : string;
  arg_csv : string;
  arg_title : str;
  arg_interval : Z;
  arg_once : bool
}.

(** gather, render, write the report, append to the log. *)
Definition snapshot {W} `{Host W} {P : Paths} (features : list str) (out csv : string)
    (title : str) (s : Sys W) : result (list UsageRecord) * Sys W :=
  match gather features (sys_world s) with
  | (Raise e, w') => (Raise e, with_world w' s)
  | (Return rows, w') =>
      let html_text := render_html rows title in
      let fs1 := write_file out html_text (sys_files s) in
      let fs2 := append_csv csv rows fs1 in
      (Return rows, with_files fs2 (with_world w' s))
  end.

(** One round of the monitor: the snapshot and the line it prints. *)
Definition monitor_round {W} `{Host W} {P : Paths} (features : list str) (args : Args)
    (s : Sys W) : option exn * Sys W :=
  match snapshot features (arg_out args) (arg_csv args) (arg_title args) s with
  | (Raise e, s') => (Some e, s')
  | (Return rows, s') =>
      match rows with
      | [] => (Some (Exn (lit "IndexError") (lit "list index out of range")), s')
      | r0 :: _ =>
          (None,
           print_out (lit "Wrote " ++ lit (arg_out args) ++ lit " and updated "
                      ++ lit (arg_csv args) ++ lit " @ " ++ timestamp r0) s')
      end
  end.

(** [n] turns of the [while True] loop. *)
Fixpoint monitor_loop {W} `{Host W} `{Timer W} {P : Paths} (n : nat) (features : list str)
    (args : Args) (s : Sys W) : ending * Sys W :=
  match n with
  | O => (Looping, s)
  | S n' =>
      let s1 := with_world (sleep (Z.max 5 (arg_interval args)) (sys_world s)) s in
      match monitor_round features args s1 with
      | (Some e, s2) => (Uncaught e, s2)
      | (None, s2) => monitor_loop n' features args s2
      end
  end.

(** [main] of license_monitor.py, watched for [n] turns of its loop. *)
Definition monitor_main {W} `{Host W} `{Timer W} {P : Paths} (n : nat) (args : Args)
    (s : Sys W) : ending * Sys W :=
  let features := parse_features (arg_features args) in
  match features with
  | [] => (Exit 2, print_err (lit "No features provided.") s)
  | _ =>
      match monitor_round features args s with
      | (Some e, s1) => (Uncaught e, s1)
      | (None, s1) =>
          if arg_once args then (Exit 0, s1)
          else monitor_loop n features args s1
      end
  end.

Inductive out_format := FormatTable | FormatJson | FormatSummary.

(** The arguments of fetch_license.py. *)
Record FetchArgs := {
  fetch_features : str;
  fetch_out : string;
  fetch_csv : string;
  fetch_title : str;
  fetch_format : out_format
}.

Definition any_unknown (rows : list UsageRecord) : bool :=
  existsb (fun r => match used r, total r with
                    | Some _, Some _ => false
                    | _, _ => true
                    end) rows.

Definition print_lines {W} (lines : list str) (s : Sys W) : Sys W :=
  fold_left (fun acc l => print_out l acc) lines s.

(** Lines printed one after the other, up to the first whose formatting
    raises. *)
Fixpoint print_each {W} (lines : list (result str)) (s : Sys W)
  : option exn * Sys W :=
  match lines with
  | [] => (None, s)
  | Return l :: rest => print_each rest (print_out l s)
  | Raise e :: _ => (Some e, s)
  end.

(** [main] of fetch_license.py. *)
Definition fetch_main {W} `{Host W} {P : Paths} (args : FetchArgs) (s : Sys W)
  : ending * Sys W :=
  let features := parse_features (fetch_features args) in
  match features with
  | [] => (Exit 2, print_err (lit "No features provided.") s)
  | _ =>
      match snapshot features (fetch_out args) (fetch_csv args)
              (fetch_title args) s with
      | (Raise e, s1) => (Uncaught e, s1)
      | (Return rows, s1) =>
          let printed :=
            match fetch_format args with
            | FormatJson => (None, print_out (json_document rows) s1)
            | FormatSummary => print_each (summary_lines rows) s1
            | FormatTable => (None, print_lines (print_table rows) s1)
            end in
          match printed with
          | (Some e, s2) => (Uncaught e, s2)
          | (None, s2) =>
              let s3 :=
                if any_unknown rows then
                  print_err (lit "If possible, share sample output of `ckout_test -f <FEATURE>` so we can refine parsing.")
                    (print_err (LF ++ lit "Note: One or more values could not be parsed (shown as '?').") s2)
                else s2 in
              (Exit 0, s3)
          end
      end
  end.

(** The script: [main] inside [try ... except Exception]. *)
Definition fetch_script {W} `{Host W} {P : Paths} (args : FetchArgs) (s : Sys W)
  : ending * Sys W :=
  match fetch_main args s with
  | (Uncaught e, s1) => (Exit 1, print_err (lit "Error: " ++ exn_msg e) s1)
  | r => r
  end.

(** On a scripted world sleeping changes nothing. *)
#[export] Instance script_timer : Timer Script := {
  sleep _ w := w
}.

(** A character of a plain ASCII text: printable, or the line feed. *)
Definition ascii_safe (c : ascii) : bool :=
  between 32 126 c || eqc c (ascii_of_N 10).

(** The text does not begin with whitespace. *)
Definition no_space_first (s : str) : Prop :=
  match s with c :: _ => is_space c = false | [] => True end.

(** ** What a pattern denotes *)

(** The character before the position reached after [run]. *)
Definition lastp (prev : option ascii) (run : str) : option ascii :=
  fold_left (fun _ c => Some c) run prev.

Definition all_in (fl : flags) (cs : cset) (run : str) : Prop :=
  Forall (fun c => cmatch fl cs c = true) run.

(** [den fl p prev m rest gs]: the text [m], found after the character [prev]
    and before the text [rest], is in the language of [p], with the captured
    runs [gs]. *)
Inductive den (fl : flags) : regex -> option ascii -> str -> str -> groups -> Prop :=
| den_nil prev rest : den fl [] prev [] rest []
| den_one cs p prev c m rest gs :
    cmatch fl cs c = true -> den fl p (Some c) m rest gs ->
    den fl (One cs :: p) prev (c :: m) rest gs
| den_opt_take cs p prev c m rest gs :
    cmatch fl cs c = true -> den fl p (Some c) m rest gs ->
    den fl (Opt cs :: p) prev (c :: m) rest gs
| den_opt_skip cs p prev m rest gs :
    den fl p prev m rest gs ->
    den fl (Opt cs :: p) prev m rest gs
| den_star cs p prev run m rest gs :
    all_in fl cs run -> den fl p (lastp prev run) m rest gs ->
    den fl (Star cs :: p) prev (run ++ m) rest gs
| den_plus cs p prev run m rest gs :
    run <> [] -> all_in fl cs run -> den fl p (lastp prev run) m rest gs ->
    den fl (Plus cs :: p) prev (run ++ m) rest gs
| den_lazy cs p prev run m rest gs :
    all_in fl cs run -> den fl p (lastp prev run) m rest gs ->
    den fl (Lazy cs :: p) prev (run ++ m) rest gs
| den_capture cs p prev run m rest gs :
    run <> [] -> all_in fl cs run -> den fl p (lastp prev run) m rest gs ->
    den fl (Capture cs :: p) prev (run ++ m) rest (run :: gs)
| den_wordb p prev m rest gs :
    boundary prev (head (m ++ rest)) = true -> den fl p prev m rest gs ->
    den fl (WordB :: p) prev m rest gs.

(** The pattern can match at the head of [s]. *)
Definition matches_at (fl : flags) (p : regex) (prev : option ascii) (s : str)
  : Prop :=
  exists m rest gs, s = m ++ rest /\ den fl p prev m rest gs.

(** The run of a greedy repeat is the longest one that lets the rest of the
    pattern match: no longer run of the set, taken from the text [s] that
    follows, does. *)
Definition longest (fl : flags) (cs : cset) (p : regex) (prev : option ascii)
    (run s : str) : Prop :=
  forall more s',
    s = more ++ s' -> more <> [] -> all_in fl cs more ->
    ~ matches_at fl p (lastp prev (run ++ more)) s'.

(** The run of a lazy repeat is the shortest one that lets the rest of the
    pattern match: the rest matches after no proper prefix of it. *)
Definition shortest (fl : flags) (p : regex) (prev : option ascii)
    (run s : str) : Prop :=
  forall a b,
    run = a ++ b -> b <> [] -> ~ matches_at fl p (lastp prev a) (b ++ s).

(** [sel fl p prev m rest gs]: among the texts of the language of [p] at the
    head of [m ++ rest], [m] is the one [re] selects, with the groups [gs]:
    an optional character is taken whenever the rest of the pattern can
    follow it, a greedy repeat takes the longest run and a lazy repeat the
    shortest run after which the rest of the pattern can match. *)
Inductive sel (fl : flags) : regex -> option ascii -> str -> str -> groups -> Prop :=
| sel_nil prev rest : sel fl [] prev [] rest []
| sel_one cs p prev c m rest gs :
    cmatch fl cs c = true -> sel fl p (Some c) m rest gs ->
    sel fl (One cs :: p) prev (c :: m) rest gs
| sel_opt_take cs p prev c m rest gs :
    cmatch fl cs c = true -> sel fl p (Some c) m rest gs ->
    sel fl (Opt cs :: p) prev (c :: m) rest gs
| sel_opt_skip cs p prev m rest gs :
    sel fl p prev m rest gs ->
    (forall c s', m ++ rest = c :: s' -> cmatch fl cs c = true ->
       ~ matches_at fl p (Some c) s') ->
    sel fl (Opt cs :: p) prev m rest gs
| sel_star cs p prev run m rest gs :
    all_in fl cs run -> sel fl p (lastp prev run) m rest gs ->
    longest fl cs p prev run (m ++ rest) ->
    sel fl (Star cs :: p) prev (run ++ m) rest gs
| sel_plus cs p prev run m rest gs :
    run <> [] -> all_in fl cs run -> sel fl p (lastp prev run) m rest gs ->
    longest fl cs p prev run (m ++ rest) ->
    sel fl (Plus cs :: p) prev (run ++ m) rest gs
| sel_lazy cs p prev run m rest gs :
    all_in fl cs run -> sel fl p (lastp prev run) m rest gs ->
    shortest fl p prev run (m ++ rest) ->
    sel fl (Lazy cs :: p) prev (run ++ m) rest gs
| sel_capture cs p prev run m rest gs :
    run <> [] -> all_in fl cs run -> sel fl p (lastp prev run) m rest gs ->
    longest fl cs p prev run (m ++ rest) ->
    sel fl (Capture cs :: p) prev (run ++ m) rest (run :: gs)
| sel_wordb p prev m rest gs :
    boundary prev (head (m ++ rest)) = true -> sel fl p prev m rest gs ->
    sel fl (WordB :: p) prev m rest gs.

(** The pattern occurs in [s] after the prefix [pre], with the groups [gs]. *)
Definition occurs_at (pat : pattern) (s pre : str) (gs : groups) : Prop :=
  exists m rest,
    s = pre ++ m ++ rest /\
    den (pat_flags pat) (pat_items pat) (lastp None pre) m rest gs.

Definition occurs (pat : pattern) (s : str) : Prop :=
  exists pre gs, occurs_at pat s pre gs.

(** The occurrence after [pre] is a leftmost one. *)
Definition leftmost (pat : pattern) (s pre : str) : Prop :=
  forall pre' gs', occurs_at pat s pre' gs' -> (length pre <= length pre')%nat.

(** The match [pat.search(s)] returns: the selected text of the leftmost
    occurrence, found after the prefix [pre], with the groups [gs]. *)
Definition selected (pat : pattern) (s pre : str) (gs : groups) : Prop :=
  (exists m rest,
     s = pre ++ m ++ rest /\
     sel (pat_flags pat) (pat_items pat) (lastp None pre) m rest gs) /\
  leftmost pat s pre.

(** The sets of the capturing groups of a pattern, in order. *)
Fixpoint capture_sets (p : regex) : list cset :=
  match p with
  | [] => []
  | Capture cs :: p' => cs :: capture_sets p'
  | _ :: p' => capture_sets p'
  end.

(** A non-empty run of decimal digits. *)
Definition number (g : str) : Prop :=
  g <> [] /\ Forall (fun c => is_digit c = true) g.

(** ** The fallback phrase *)

(** [k] is the word [w] (given in lower case) up to the case of its
    letters. *)
Definition spells (w : string) (k : str) : Prop := map lower k = lit w.

Definition blank (ws : str) : Prop := Forall (fun c => is_space c = true) ws.

(** The line holds [in], any run of whitespace (possibly none) and [use],
    with no word character just before or just after. *)
Definition in_use_phrase (l : str) : Prop :=
  exists pre k1 ws k2 post : str,
    l = pre ++ k1 ++ ws ++ k2 ++ post /\
    spells "in" k1 /\ blank ws /\ spells "use" k2 /\
    word_at (lastp None pre) = false /\ word_at (head post) = false.

(** Following the words of the specification: the line holds the phrase
    [in use], written with one space, with no word character just before or
    just after. *)
Definition spec_in_use_phrase (l : str) : Prop :=
  exists pre k post : str,
    l = pre ++ k ++ post /\ spells "in use" k /\
    word_at (lastp None pre) = false /\ word_at (head post) = false.

(** [n] of the lines satisfy [P]. *)
Inductive count_lines (P : str -> Prop) : list str -> nat -> Prop :=
| count_nil : count_lines P [] O
| count_yes l ls n : P l -> count_lines P ls n -> count_lines P (l :: ls) (S n)
| count_no l ls n : ~ P l -> count_lines P ls n -> count_lines P (l :: ls) n.

(** Following the words of the specification: the first phrasing, with any
    text between its two halves. *)
Definition spec_phrasing_flexlm (N M : Z) (between : str) : str :=
  lit "Total of " ++ str_of_Z N ++ lit " licenses issued" ++ between
  ++ lit "Total of " ++ str_of_Z M ++ lit " licenses in use".

(** The text holds the letter [c] (given in lower case) in neither case. *)
Definition lacks (c : ascii) (s : str) : Prop :=
  Forall (fun x => lower x <> c) s.

(** The text does not go on with a character of the set. *)
Definition no_more (fl : flags) (cs : cset) (s : str) : Prop :=
  match s with
  | c :: _ => cmatch fl cs c = false
  | [] => True
  end.

(** ** Markup in a text *)

(** The characters that open or close markup. *)
Definition special (c : ascii) : bool :=
  eqc c "<" || eqc c ">" || eqc c dq || eqc c sq.




(** A record with empty texts and unknown counts. *)
Definition blank_record : UsageRecord :=
  {| feature := []; total := None; used := None; unused := None;
     timestamp := []; rc := 0; stderr := []; raw := [] |}.



(** The text of an optional count in the log: empty when unknown. *)
Definition opt_text (v : option Z) : str :=
  match v with Some z => str_of_Z z | None => [] end.

Definition CRLF : str := [ascii_of_N 13; ascii_of_N 10].

(** ** Records and worlds used in the statements *)

(** What [poll] puts in the record of a feature. *)
Definition polled (stamp feat : str) (r : UsageRecord) : Prop :=
  feature r = feat /\ timestamp r = stamp /\
  unused r = derive_unused (total r) (used r) /\
  exists out, parse_usage out = Return (total r, used r) /\ raw r = strip out.

(** A world whose tool reports more seats in use than were issued. *)
Definition over_reporting : Script :=
  {| script_environ := ∅;
     script_now := lit "2024-05-01 12:00:00";
     script_tool := fun _ _ => Completed 0 (lit "Issued=5 Used=10") [] |}.

(** A world whose tool reports the usage of the specification's scenario. *)
Definition flexlm_world : Script :=
  {| script_environ := ∅;
     script_now := lit "2024-05-01 12:00:00";
     script_tool := fun _ _ =>
       Completed 0
         (lit "Total of 25 licenses issued; Total of 5 licenses in use
") [] |}.

Definition flexlm_record (feat : str) : UsageRecord :=
  {| feature := feat; total := Some 25; used := Some 5; unused := Some 20;
     timestamp := lit "2024-05-01 12:00:00"; rc := 0; stderr := [];
     raw := lit "Total of 25 licenses issued; Total of 5 licenses in use" |}.

Definition flexlm_tool : list str -> Z -> outcome :=
  fun _ _ =>
    Completed 0 (lit "Total of 25 licenses issued; Total of 5 licenses in use") [].

(** The tool of a host on which the executable is missing. *)
Definition missing_tool : list str -> Z -> outcome :=
  fun _ _ =>
    Failed (Exn (lit "FileNotFoundError")
                (lit "[Errno 2] No such file or directory: 'ckout_test'")).

(** A world whose tool reports a total of 4300 digits. *)
Definition long_total_world : Script :=
  {| script_environ := ∅;
     script_now := lit "2024-05-01 12:00:00";
     script_tool := fun _ _ =>
       Completed 0 (lit "Issued=" ++ repeat "9"%char 4300 ++ lit " Used=1") [] |}.

(** The characters of a printed integer: digits and the minus sign. *)
Definition numeric (c : ascii) : bool := is_digit c || eqc c "-".

(** A tool that times out on the feature [A] and answers for the others. *)
Definition slow_on_A : list str -> Z -> outcome :=
  fun cmd _ =>
    if bool_decide (nth 2 cmd [] = lit "A")
    then Failed (Exn (lit "TimeoutExpired")
                     (lit "Command '['ckout_test', '-f', 'A']' timed out after 30 seconds"))
    else Completed 0 (lit "Issued=10 ... Used=10
") [].

Definition slow_world : Script :=
  {| script_environ := ∅;
     script_now := lit "2024-05-01 12:00:00";
     script_tool := slow_on_A |}.

(** * The matcher against the denotation *)

(** The run is empty: the rest of the pattern took over where it stood. *)
Ltac now_empty_run H :=
  split; [reflexivity | split; [constructor | rewrite ?app_nil_r; exact H]].

Section Engine.
Variable fl : flags.

Lemma lastp_app prev run c : lastp prev (run ++ [c]) = Some c.
Proof. unfold lastp. now rewrite fold_left_app. Qed.

Lemma lastp_cons prev c run : lastp prev (c :: run) = lastp (Some c) run.
Proof. reflexivity. Qed.

Lemma lastp_app2 prev a b : lastp prev (a ++ b) = lastp (lastp prev a) b.
Proof. unfold lastp. now rewrite fold_left_app. Qed.

(** A greedy run hands to the rest of the pattern a run of the set. *)
Lemma greedy_sound cs k s :
  forall run prev r,
    greedy fl cs k run prev s = Some r ->
    exists more s',
      s = more ++ s' /\ all_in fl cs more /\
      k (run ++ more) (lastp prev more) s' = Some r.
Proof.
  induction s as [|c s IH]; intros run prev r H; simpl in H.
  - exists [], []. now_empty_run H.
  - destruct (cmatch fl cs c) eqn:Hc.
    + destruct (greedy fl cs k (run ++ [c]) (Some c) s) as [r0|] eqn:Hg.
      * injection H as <-. apply IH in Hg as (more & s' & -> & Hall & Hk).
        exists (c :: more), s'. rewrite <- app_assoc in Hk.
        repeat split; [now constructor | exact Hk].
      * exists [], (c :: s). now_empty_run H.
    + exists [], (c :: s). now_empty_run H.
Qed.

(** Backtracking loses no match: any run the rest accepts is found. *)
Lemma greedy_complete cs k more :
  forall run prev s',
    all_in fl cs more ->
    is_Some (k (run ++ more) (lastp prev more) s') ->
    is_Some (greedy fl cs k run prev (more ++ s')).
Proof.
  induction more as [|c more IH]; intros run prev s' Hall Hk.
  - rewrite app_nil_r in Hk. simpl in *.
    destruct s' as [|c s']; simpl; [exact Hk|].
    destruct (cmatch fl cs c); [|exact Hk].
    destruct (greedy fl cs k (run ++ [c]) (Some c) s'); [eauto | exact Hk].
  - inversion Hall as [|? ? Hc Hall']; subst. simpl. rewrite Hc.
    destruct (IH (run ++ [c]) (Some c) s' Hall') as [r Hr].
    + rewrite <- app_assoc. exact Hk.
    + rewrite Hr. eauto.
Qed.

Lemma lazy_sound cs k s :
  forall prev r,
    lazy fl cs k prev s = Some r ->
    exists more s',
      s = more ++ s' /\ all_in fl cs more /\ k (lastp prev more) s' = Some r.
Proof.
  induction s as [|c s IH]; intros prev r H; simpl in H.
  - destruct (k prev []) eqn:Hk; [|discriminate]. injection H as <-.
    exists [], []. now_empty_run Hk.
  - destruct (k prev (c :: s)) eqn:Hk.
    + injection H as <-. exists [], (c :: s). now_empty_run Hk.
    + destruct (cmatch fl cs c) eqn:Hc; [|discriminate].
      apply IH in H as (more & s' & -> & Hall & Hk').
      exists (c :: more), s'. repeat split; [now constructor | exact Hk'].
Qed.

Lemma lazy_complete cs k more :
  forall prev s',
    all_in fl cs more ->
    is_Some (k (lastp prev more) s') ->
    is_Some (lazy fl cs k prev (more ++ s')).
Proof.
  induction more as [|c more IH]; intros prev s' Hall Hk.
  - simpl in *. destruct Hk as [r Hr].
    destruct s'; simpl; rewrite Hr; eauto.
  - inversion Hall as [|? ? Hc Hall']; subst. simpl.
    destruct (k prev (c :: more ++ s')); [eauto|].
    rewrite Hc. now apply IH.
Qed.

(** Every match the matcher returns is in the language of the pattern. *)
Lemma mt_sound p :
  forall prev s gs,
    mt fl p prev s = Some gs ->
    exists m rest, s = m ++ rest /\ den fl p prev m rest gs.
Proof.
  induction p as [|it p IH]; intros prev s gs H.
  - injection H as <-. exists [], s. split; [reflexivity | constructor].
  - destruct it as [cs|cs|cs|cs|cs|cs|]; simpl in H.
    + destruct s as [|c s]; [discriminate|].
      destruct (cmatch fl cs c) eqn:Hc; [|discriminate].
      apply IH in H as (m & rest & -> & Hd).
      exists (c :: m), rest. split; [reflexivity | now constructor].
    + destruct s as [|c s].
      * apply IH in H as (m & rest & Hs & Hd).
        exists m, rest. split; [exact Hs | now apply den_opt_skip].
      * destruct (cmatch fl cs c) eqn:Hc.
        -- destruct (mt fl p (Some c) s) as [r|] eqn:Hm.
           ++ injection H as <-. apply IH in Hm as (m & rest & -> & Hd).
              exists (c :: m), rest. split; [reflexivity|now apply den_opt_take].
           ++ apply IH in H as (m & rest & Hs & Hd).
              exists m, rest. split; [exact Hs | now apply den_opt_skip].
        -- apply IH in H as (m & rest & Hs & Hd).
           exists m, rest. split; [exact Hs | now apply den_opt_skip].
    + apply greedy_sound in H as (more & s' & -> & Hall & Hk).
      apply IH in Hk as (m & rest & -> & Hd).
      exists (more ++ m), rest. rewrite app_assoc.
      split; [reflexivity | now apply den_star].
    + destruct s as [|c s]; [discriminate|].
      destruct (cmatch fl cs c) eqn:Hc; [|discriminate].
      apply greedy_sound in H as (more & s' & -> & Hall & Hk).
      apply IH in Hk as (m & rest & -> & Hd).
      exists ((c :: more) ++ m), rest. split.
      * simpl. now rewrite app_assoc.
      * apply den_plus; [discriminate | now constructor | exact Hd].
    + apply lazy_sound in H as (more & s' & -> & Hall & Hk).
      apply IH in Hk as (m & rest & -> & Hd).
      exists (more ++ m), rest. rewrite app_assoc.
      split; [reflexivity | now apply den_lazy].
    + destruct s as [|c s]; [discriminate|].
      destruct (cmatch fl cs c) eqn:Hc; [|discriminate].
      apply greedy_sound in H as (more & s' & -> & Hall & Hk).
      destruct (mt fl p (lastp (Some c) more) s') as [gs'|] eqn:Hm;
        [|discriminate].
      injection Hk as <-.
      apply IH in Hm as (m & rest & -> & Hd).
      exists ((c :: more) ++ m), rest. split.
      * simpl. now rewrite app_assoc.
      * apply den_capture; [discriminate | now constructor | exact Hd].
    + destruct (boundary prev (head s)) eqn:Hb; [|discriminate].
      apply IH in H as (m & rest & -> & Hd).
      exists m, rest. split; [reflexivity | now apply den_wordb].
Qed.

(** Every text in the language of the pattern is matched. *)
Lemma mt_complete p prev m rest gs :
  den fl p prev m rest gs -> is_Some (mt fl p prev (m ++ rest)).
Proof.
  induction 1 as [prev rest
                 |cs p prev c m rest gs Hc Hd IH
                 |cs p prev c m rest gs Hc Hd IH
                 |cs p prev m rest gs Hd IH
                 |cs p prev run m rest gs Hall Hd IH
                 |cs p prev run m rest gs Hne Hall Hd IH
                 |cs p prev run m rest gs Hall Hd IH
                 |cs p prev run m rest gs Hne Hall Hd IH
                 |p prev m rest gs Hb Hd IH]; simpl.
  - eauto.
  - now rewrite Hc.
  - rewrite Hc. destruct IH as [r ->]. eauto.
  - destruct (m ++ rest) as [|c s]; [exact IH|].
    destruct (cmatch fl cs c); [|exact IH].
    destruct (mt fl p (Some c) s); [eauto | exact IH].
  - rewrite <- app_assoc. now apply greedy_complete.
  - destruct run as [|c run]; [congruence|].
    inversion Hall as [|? ? Hc Hall']; subst. simpl. rewrite Hc.
    rewrite <- app_assoc. now apply greedy_complete.
  - rewrite <- app_assoc. now apply lazy_complete.
  - destruct run as [|c run]; [congruence|].
    inversion Hall as [|? ? Hc Hall']; subst. simpl. rewrite Hc.
    rewrite <- app_assoc. apply greedy_complete; [exact Hall'|].
    simpl in IH. destruct IH as [r ->]. simpl. eauto.
  - rewrite Hb. exact IH.
Qed.

(** The groups of a match are runs of the sets of the capturing groups. *)
Lemma den_captures p prev m rest gs :
  den fl p prev m rest gs ->
  Forall2 (fun cs g => g <> [] /\ all_in fl cs g) (capture_sets p) gs.
Proof.
  induction 1; simpl; try assumption; constructor; auto.
Qed.

Lemma search_sound p s :
  forall prev gs,
    search fl p prev s = Some gs ->
    exists pre m rest,
      s = pre ++ m ++ rest /\ den fl p (lastp prev pre) m rest gs /\
      forall pre' suf',
        s = pre' ++ suf' -> (length pre' < length pre)%nat ->
        mt fl p (lastp prev pre') suf' = None.
Proof.
  induction s as [|c s IH]; intros prev gs H; simpl in H.
  - destruct (mt fl p prev []) as [r|] eqn:Hm; [|discriminate].
    injection H as <-. apply mt_sound in Hm as (m & rest & Hs & Hd).
    exists [], m, rest. repeat split; [exact Hs | exact Hd |].
    intros pre' suf' _ Hlt. simpl in Hlt. lia.
  - destruct (mt fl p prev (c :: s)) as [r|] eqn:Hm.
    + injection H as <-. apply mt_sound in Hm as (m & rest & Hs & Hd).
      exists [], m, rest. repeat split; [exact Hs | exact Hd |].
      intros pre' suf' _ Hlt. simpl in Hlt. lia.
    + apply IH in H as (pre & m & rest & -> & Hd & Hleft).
      exists (c :: pre), m, rest. repeat split; [exact Hd|].
      intros pre' suf' Hs Hlt. destruct pre' as [|c' pre'].
      * simpl in Hs. subst suf'. exact Hm.
      * injection Hs as <- Hs. simpl. apply Hleft; [exact Hs|].
        simpl in Hlt. lia.
Qed.

Lemma search_complete p pre :
  forall prev m rest gs,
    den fl p (lastp prev pre) m rest gs ->
    is_Some (search fl p prev (pre ++ m ++ rest)).
Proof.
  induction pre as [|c pre IH]; intros prev m rest gs Hd.
  - apply mt_complete in Hd as [r Hr]. simpl in *.
    destruct (m ++ rest); simpl; rewrite Hr; eauto.
  - simpl. destruct (mt fl p prev (c :: pre ++ m ++ rest)); [eauto|].
    now apply IH with gs.
Qed.

(** ** The match the matcher selects *)

Lemma sel_den p prev m rest gs :
  sel fl p prev m rest gs -> den fl p prev m rest gs.
Proof. induction 1; econstructor; eassumption. Qed.

Lemma matches_at_mt p prev s :
  matches_at fl p prev s <-> is_Some (mt fl p prev s).
Proof.
  split.
  - intros (m & rest & gs & -> & Hd). now apply mt_complete with gs.
  - intros [gs Hm]. apply mt_sound in Hm as (m & rest & Hs & Hd).
    now exists m, rest, gs.
Qed.

Lemma not_matches_at p prev s :
  ~ matches_at fl p prev s <-> mt fl p prev s = None.
Proof.
  rewrite matches_at_mt. destruct (mt fl p prev s); split; intros Hn.
  - exfalso. apply Hn. eauto.
  - discriminate.
  - reflexivity.
  - intros [x Hx]. discriminate.
Qed.

(** A greedy run fails exactly when the rest fails after every run of the
    set. *)
Lemma greedy_none cs k s :
  forall run prev,
    greedy fl cs k run prev s = None <->
    (forall more s',
       s = more ++ s' -> all_in fl cs more ->
       k (run ++ more) (lastp prev more) s' = None).
Proof.
  induction s as [|c s IH]; intros run prev; simpl.
  - split.
    + intros Hk more s' Hs _. symmetry in Hs.
      apply app_eq_nil in Hs as [-> ->]. now rewrite app_nil_r.
    + intros Hk. specialize (Hk [] [] eq_refl ltac:(constructor)).
      now rewrite app_nil_r in Hk.
  - destruct (cmatch fl cs c) eqn:Hc.
    + destruct (greedy fl cs k (run ++ [c]) (Some c) s) as [r|] eqn:Hg.
      * split; [discriminate|]. intros Hk. exfalso.
        assert (Hn : greedy fl cs k (run ++ [c]) (Some c) s = None);
          [|congruence].
        apply IH. intros more s' -> Hall. rewrite <- app_assoc.
        apply (Hk (c :: more) s' eq_refl). now constructor.
      * split.
        -- intros Hk more s' Hs Hall. destruct more as [|x more].
           ++ simpl in Hs. subst s'. now rewrite app_nil_r.
           ++ injection Hs as <- ->. inversion Hall; subst.
              pose proof (proj1 (IH (run ++ [c]) (Some c)) Hg more s' eq_refl)
                as Hn.
              rewrite <- app_assoc in Hn. now apply Hn.
        -- intros Hk. specialize (Hk [] (c :: s) eq_refl ltac:(constructor)).
           now rewrite app_nil_r in Hk.
    + split.
      * intros Hk more s' Hs Hall. destruct more as [|x more].
        -- simpl in Hs. subst s'. now rewrite app_nil_r.
        -- injection Hs as <- ->. inversion Hall; subst. congruence.
      * intros Hk. specialize (Hk [] (c :: s) eq_refl ltac:(constructor)).
        now rewrite app_nil_r in Hk.
Qed.

(** What a greedy run hands over is the longest run the rest accepts. *)
Lemma greedy_longest cs k s :
  forall run prev r,
    greedy fl cs k run prev s = Some r ->
    exists more s',
      s = more ++ s' /\ all_in fl cs more /\
      k (run ++ more) (lastp prev more) s' = Some r /\
      forall extra s'',
        s' = extra ++ s'' -> extra <> [] -> all_in fl cs extra ->
        k (run ++ more ++ extra) (lastp prev (more ++ extra)) s'' = None.
Proof.
  induction s as [|c s IH]; intros run prev r H; simpl in H.
  - exists [], []. split; [reflexivity|]. split; [constructor|].
    split; [now rewrite app_nil_r|].
    intros extra s'' Hs Hne _. symmetry in Hs.
    apply app_eq_nil in Hs as [-> _]. congruence.
  - destruct (cmatch fl cs c) eqn:Hc.
    + destruct (greedy fl cs k (run ++ [c]) (Some c) s) as [r0|] eqn:Hg.
      * injection H as <-.
        apply IH in Hg as (more & s' & -> & Hall & Hk & Hlong).
        exists (c :: more), s'. rewrite <- app_assoc in Hk.
        split; [reflexivity|]. split; [now constructor|]. split; [exact Hk|].
        intros extra s'' Hs Hne Hex.
        pose proof (Hlong extra s'' Hs Hne Hex) as Hn.
        now rewrite <- app_assoc in Hn.
      * exists [], (c :: s). split; [reflexivity|]. split; [constructor|].
        split; [now rewrite app_nil_r|].
        intros extra s'' Hs Hne Hex. destruct extra as [|x extra]; [congruence|].
        injection Hs as <- ->. inversion Hex; subst.
        pose proof (proj1 (greedy_none cs k _ (run ++ [c]) (Some c)) Hg
                      extra s'' eq_refl) as Hn.
        rewrite <- app_assoc in Hn. now apply Hn.
    + exists [], (c :: s). split; [reflexivity|]. split; [constructor|].
      split; [now rewrite app_nil_r|].
      intros extra s'' Hs Hne Hex. destruct extra as [|x extra]; [congruence|].
      injection Hs as <- ->. inversion Hex; subst. congruence.
Qed.

(** The longest run the rest accepts is the one a greedy run hands over. *)
Lemma greedy_select cs k run s r :
  all_in fl cs run ->
  forall acc prev,
    k (acc ++ run) (lastp prev run) s = Some r ->
    (forall more s',
       s = more ++ s' -> more <> [] -> all_in fl cs more ->
       k (acc ++ run ++ more) (lastp prev (run ++ more)) s' = None) ->
    greedy fl cs k acc prev (run ++ s) = Some r.
Proof.
  induction 1 as [|c run Hc _ IH]; intros acc prev Hk Hlong.
  - rewrite app_nil_r in Hk. cbn [app lastp fold_left] in *.
    destruct s as [|c s]; [exact Hk|]. simpl.
    destruct (cmatch fl cs c) eqn:Hc; [|exact Hk].
    assert (Hn : greedy fl cs k (acc ++ [c]) (Some c) s = None).
    { apply greedy_none. intros more s' -> Hall. rewrite <- app_assoc.
      apply (Hlong (c :: more) s' eq_refl); [discriminate | now constructor]. }
    now rewrite Hn.
  - cbn [app greedy]. rewrite Hc.
    rewrite (IH (acc ++ [c]) (Some c)); [reflexivity | |].
    + now rewrite <- app_assoc.
    + intros more s' Hs Hne Hall. rewrite <- app_assoc.
      now apply (Hlong more s' Hs Hne Hall).
Qed.

(** What a lazy run goes over is the shortest run the rest accepts. *)
Lemma lazy_shortest cs k s :
  forall prev r,
    lazy fl cs k prev s = Some r ->
    exists more s',
      s = more ++ s' /\ all_in fl cs more /\
      k (lastp prev more) s' = Some r /\
      forall a b, more = a ++ b -> b <> [] -> k (lastp prev a) (b ++ s') = None.
Proof.
  induction s as [|c s IH]; intros prev r H; simpl in H.
  - destruct (k prev []) eqn:Hk; [|discriminate]. injection H as <-.
    exists [], []. split; [reflexivity|]. split; [constructor|].
    split; [exact Hk|].
    intros a b Hab Hb. symmetry in Hab. apply app_eq_nil in Hab as [_ ->].
    congruence.
  - destruct (k prev (c :: s)) eqn:Hk.
    + injection H as <-. exists [], (c :: s).
      split; [reflexivity|]. split; [constructor|]. split; [exact Hk|].
      intros a b Hab Hb. symmetry in Hab. apply app_eq_nil in Hab as [_ ->].
      congruence.
    + destruct (cmatch fl cs c) eqn:Hc; [|discriminate].
      apply IH in H as (more & s' & -> & Hall & Hk' & Hshort).
      exists (c :: more), s'.
      split; [reflexivity|]. split; [now constructor|]. split; [exact Hk'|].
      intros a b Hab Hb. destruct a as [|x a].
      * simpl in Hab. subst b. exact Hk.
      * injection Hab as <- ->. now apply (Hshort a b).
Qed.

(** The shortest run the rest accepts is the one a lazy run goes over. *)
Lemma lazy_select cs k skip s :
  all_in fl cs skip ->
  forall prev r,
    (forall a b, skip = a ++ b -> b <> [] -> k (lastp prev a) (b ++ s) = None) ->
    k (lastp prev skip) s = Some r ->
    lazy fl cs k prev (skip ++ s) = Some r.
Proof.
  induction 1 as [|c skip Hc _ IH]; intros prev r Hfail Hk.
  - simpl in *. destruct s; simpl; now rewrite Hk.
  - pose proof (Hfail [] (c :: skip) eq_refl ltac:(discriminate)) as H0.
    cbn [app lastp fold_left] in H0. cbn [app lazy]. rewrite H0, Hc.
    apply IH; [|exact Hk].
    intros a b -> Hb. apply (Hfail (c :: a) b eq_refl Hb).
Qed.

(** Every match the matcher returns is the selected one. *)
Lemma mt_sel_sound p :
  forall prev s gs,
    mt fl p prev s = Some gs ->
    exists m rest, s = m ++ rest /\ sel fl p prev m rest gs.
Proof.
  induction p as [|it p IH]; intros prev s gs H.
  - injection H as <-. exists [], s. split; [reflexivity | constructor].
  - destruct it as [cs|cs|cs|cs|cs|cs|]; simpl in H.
    + destruct s as [|c s]; [discriminate|].
      destruct (cmatch fl cs c) eqn:Hc; [|discriminate].
      apply IH in H as (m & rest & -> & Hd).
      exists (c :: m), rest. split; [reflexivity | now constructor].
    + destruct s as [|c s].
      * apply IH in H as (m & rest & Hs & Hd).
        exists m, rest. split; [exact Hs|]. apply sel_opt_skip; [exact Hd|].
        intros c s' Heq. rewrite <- Hs in Heq. discriminate.
      * destruct (cmatch fl cs c) eqn:Hc.
        -- destruct (mt fl p (Some c) s) as [r|] eqn:Hm.
           ++ injection H as <-. apply IH in Hm as (m & rest & -> & Hd).
              exists (c :: m), rest. split; [reflexivity|now apply sel_opt_take].
           ++ apply IH in H as (m & rest & Hs & Hd).
              exists m, rest. split; [exact Hs|]. apply sel_opt_skip; [exact Hd|].
              intros c' s' Heq _. rewrite <- Hs in Heq. injection Heq as <- <-.
              now apply not_matches_at.
        -- apply IH in H as (m & rest & Hs & Hd).
           exists m, rest. split; [exact Hs|]. apply sel_opt_skip; [exact Hd|].
           intros c' s' Heq Hc'. rewrite <- Hs in Heq. injection Heq as <- <-.
           congruence.
    + apply greedy_longest in H as (more & s' & -> & Hall & Hk & Hlong).
      apply IH in Hk as (m & rest & -> & Hd).
      exists (more ++ m), rest. rewrite app_assoc.
      split; [reflexivity|]. apply sel_star; [exact Hall | exact Hd|].
      intros extra s'' Hs Hne Hex. apply not_matches_at.
      now apply (Hlong extra s'' Hs Hne Hex).
    + destruct s as [|c s]; [discriminate|].
      destruct (cmatch fl cs c) eqn:Hc; [|discriminate].
      apply greedy_longest in H as (more & s' & -> & Hall & Hk & Hlong).
      apply IH in Hk as (m & rest & -> & Hd).
      exists ((c :: more) ++ m), rest. split.
      * simpl. now rewrite app_assoc.
      * apply sel_plus; [discriminate | now constructor | exact Hd|].
        intros extra s'' Hs Hne Hex. apply not_matches_at.
        now apply (Hlong extra s'' Hs Hne Hex).
    + apply lazy_shortest in H as (more & s' & -> & Hall & Hk & Hshort).
      apply IH in Hk as (m & rest & -> & Hd).
      exists (more ++ m), rest. rewrite app_assoc.
      split; [reflexivity|]. apply sel_lazy; [exact Hall | exact Hd|].
      intros a b Hab Hb. apply not_matches_at. now apply Hshort.
    + destruct s as [|c s]; [discriminate|].
      destruct (cmatch fl cs c) eqn:Hc; [|discriminate].
      apply greedy_longest in H as (more & s' & -> & Hall & Hk & Hlong).
      destruct (mt fl p (lastp (Some c) more) s') as [gs'|] eqn:Hm;
        [|discriminate].
      injection Hk as <-.
      apply IH in Hm as (m & rest & -> & Hd).
      exists ((c :: more) ++ m), rest. split.
      * simpl. now rewrite app_assoc.
      * apply sel_capture; [discriminate | now constructor | exact Hd|].
        intros extra s'' Hs Hne Hex. apply not_matches_at.
        pose proof (Hlong extra s'' Hs Hne Hex) as Hn. cbn beta in Hn.
        change (lastp prev ((c :: more) ++ extra))
          with (lastp (Some c) (more ++ extra)).
        now destruct (mt fl p (lastp (Some c) (more ++ extra)) s'').
    + destruct (boundary prev (head s)) eqn:Hb; [|discriminate].
      apply IH in H as (m & rest & -> & Hd).
      exists m, rest. split; [reflexivity | now apply sel_wordb].
Qed.

(** The selected match is the one the matcher returns. *)
Lemma mt_sel_complete p prev m rest gs :
  sel fl p prev m rest gs -> mt fl p prev (m ++ rest) = Some gs.
Proof.
  induction 1 as [prev rest
                 |cs p prev c m rest gs Hc Hd IH
                 |cs p prev c m rest gs Hc Hd IH
                 |cs p prev m rest gs Hd IH Hskip
                 |cs p prev run m rest gs Hall Hd IH Hlong
                 |cs p prev run m rest gs Hne Hall Hd IH Hlong
                 |cs p prev run m rest gs Hall Hd IH Hshort
                 |cs p prev run m rest gs Hne Hall Hd IH Hlong
                 |p prev m rest gs Hb Hd IH]; simpl.
  - reflexivity.
  - now rewrite Hc.
  - now rewrite Hc, IH.
  - destruct (m ++ rest) as [|c s] eqn:Hs; [exact IH|].
    destruct (cmatch fl cs c) eqn:Hc; [|exact IH].
    now rewrite (proj1 (not_matches_at p (Some c) s) (Hskip c s eq_refl Hc)).
  - rewrite <- app_assoc. apply greedy_select; [exact Hall | exact IH|].
    intros more s' Hs Hne Hex. apply not_matches_at.
    now apply (Hlong more s' Hs Hne Hex).
  - destruct run as [|c run]; [congruence|].
    inversion Hall as [|? ? Hc Hall']; subst. simpl. rewrite Hc.
    rewrite <- app_assoc. apply greedy_select; [exact Hall' | exact IH|].
    intros more s' Hs Hne' Hex. apply not_matches_at.
    now apply (Hlong more s' Hs Hne' Hex).
  - rewrite <- app_assoc. apply lazy_select; [exact Hall | | exact IH].
    intros a b Hab Hb. apply not_matches_at. now apply Hshort.
  - destruct run as [|c run]; [congruence|].
    inversion Hall as [|? ? Hc Hall']; subst. simpl. rewrite Hc.
    rewrite <- app_assoc. apply greedy_select; [exact Hall'| |].
    + simpl in IH. simpl. now rewrite IH.
    + intros more s' Hs Hne' Hex.
      pose proof (proj1 (not_matches_at _ _ _) (Hlong more s' Hs Hne' Hex))
        as Hn.
      change (lastp prev ((c :: run) ++ more))
        with (lastp (Some c) (run ++ more)) in Hn.
      now rewrite Hn.
  - rewrite Hb. exact IH.
Qed.

Lemma search_split p s :
  forall prev gs,
    search fl p prev s = Some gs ->
    exists pre suf,
      s = pre ++ suf /\ mt fl p (lastp prev pre) suf = Some gs /\
      forall pre' suf',
        s = pre' ++ suf' -> (length pre' < length pre)%nat ->
        mt fl p (lastp prev pre') suf' = None.
Proof.
  induction s as [|c s IH]; intros prev gs H; simpl in H.
  - destruct (mt fl p prev []) as [r|] eqn:Hm; [|discriminate].
    injection H as <-. exists [], []. repeat split; [exact Hm|].
    intros pre' suf' _ Hlt. simpl in Hlt. lia.
  - destruct (mt fl p prev (c :: s)) as [r|] eqn:Hm.
    + injection H as <-. exists [], (c :: s). repeat split; [exact Hm|].
      intros pre' suf' _ Hlt. simpl in Hlt. lia.
    + apply IH in H as (pre & suf & -> & Hd & Hleft).
      exists (c :: pre), suf. repeat split; [exact Hd|].
      intros pre' suf' Hs Hlt. destruct pre' as [|c' pre'].
      * simpl in Hs. subst suf'. exact Hm.
      * injection Hs as <- Hs. simpl. apply Hleft; [exact Hs|].
        simpl in Hlt. lia.
Qed.

Lemma search_first p pre :
  forall prev suf gs,
    mt fl p (lastp prev pre) suf = Some gs ->
    (forall pre' suf',
       pre ++ suf = pre' ++ suf' -> (length pre' < length pre)%nat ->
       mt fl p (lastp prev pre') suf' = None) ->
    search fl p prev (pre ++ suf) = Some gs.
Proof.
  induction pre as [|c pre IH]; intros prev suf gs Hm Hnone.
  - simpl in *. destruct suf; simpl; now rewrite Hm.
  - pose proof (Hnone [] (c :: pre ++ suf) eq_refl ltac:(simpl; lia)) as H0.
    cbn [lastp fold_left] in H0. cbn [app search]. rewrite H0.
    apply IH; [exact Hm|].
    intros pre' suf' Hs Hlt.
    apply (Hnone (c :: pre') suf'); [simpl; congruence | simpl; lia].
Qed.
Lemma sel_app_inv p1 :
  forall p2 prev m rest gs,
    sel fl (p1 ++ p2) prev m rest gs ->
    exists m1 m2 gs1 gs2,
      m = m1 ++ m2 /\ gs = gs1 ++ gs2 /\
      den fl p1 prev m1 (m2 ++ rest) gs1 /\
      sel fl p2 (lastp prev m1) m2 rest gs2.
Proof.
  induction p1 as [|it p1 IH]; intros p2 prev m rest gs Hs.
  - exists [], m, [], gs. repeat split; [constructor | exact Hs].
  - cbn [app] in Hs.
    destruct it as [cs|cs|cs|cs|cs|cs|]; inversion Hs; subst;
      match goal with
      | Hsub : sel fl (p1 ++ p2) _ _ _ _ |- _ =>
          apply IH in Hsub as (m1 & m2 & gs1 & gs2 & -> & -> & Hd1 & Hs2)
      end.
    + exists (c :: m1), m2, gs1, gs2. repeat split; [now constructor | exact Hs2].
    + exists (c :: m1), m2, gs1, gs2.
      repeat split; [now apply den_opt_take | exact Hs2].
    + exists m1, m2, gs1, gs2.
      repeat split; [now apply den_opt_skip | exact Hs2].
    + exists (run ++ m1), m2, gs1, gs2. rewrite lastp_app2, <- app_assoc.
      repeat split; [now apply den_star | exact Hs2].
    + exists (run ++ m1), m2, gs1, gs2. rewrite lastp_app2, <- app_assoc.
      repeat split; [now apply den_plus | exact Hs2].
    + exists (run ++ m1), m2, gs1, gs2. rewrite lastp_app2, <- app_assoc.
      repeat split; [now apply den_lazy | exact Hs2].
    + exists (run ++ m1), m2, (run :: gs1), gs2. rewrite lastp_app2, <- app_assoc.
      repeat split; [now apply den_capture | exact Hs2].
    + exists m1, m2, gs1, gs2.
      repeat split; [|exact Hs2]. apply den_wordb; [|exact Hd1].
      now rewrite app_assoc.
Qed.

(** What follows a captured run, when whitespace must follow it. *)
Lemma sel_capture_inv cs p prev m0 rest gs :
  sel fl (Capture cs :: p) prev m0 rest gs ->
  exists run m gs',
    m0 = run ++ m /\ gs = run :: gs' /\ run <> [] /\ all_in fl cs run /\
    sel fl p (lastp prev run) m rest gs' /\
    longest fl cs p prev run (m ++ rest).
Proof. inversion 1; subst. eauto 10. Qed.

(** The last group of a pattern is a whole run: the text does not go on with
    a character of its set. *)
Lemma sel_capture_last cs prev m0 rest gs :
  sel fl [Capture cs] prev m0 rest gs ->
  gs = [m0] /\ no_more fl cs rest.
Proof.
  intros Hs. apply sel_capture_inv in Hs
    as (run & m & gs' & -> & -> & Hne & Hall & Hs & Hlong).
  inversion Hs; subst. rewrite app_nil_r. split; [reflexivity|].
  destruct rest as [|c rest]; [exact I|]. simpl.
  destruct (cmatch fl cs c) eqn:Hc; [|reflexivity]. exfalso.
  apply (Hlong [c] rest eq_refl); [discriminate | now repeat constructor|].
  exists [], rest, []. split; [reflexivity | constructor].
Qed.

(** A group followed by a lazy run of any character is a whole run, when the
    pattern goes on with a character that is not of the set of the group. *)
Lemma sel_capture_lazy cs k p prev m0 rest gs :
  DOTALL fl = true ->
  (forall c, cmatch fl cs c = true -> cmatch fl (Chr k) c = false) ->
  sel fl (Capture cs :: Lazy Dot :: One (Chr k) :: p) prev m0 rest gs ->
  exists run m gs',
    m0 = run ++ m /\ gs = run :: gs' /\ run <> [] /\ all_in fl cs run /\
    no_more fl cs (m ++ rest) /\
    sel fl (Lazy Dot :: One (Chr k) :: p) (lastp prev run) m rest gs'.
Proof.
  intros Hdot Hk Hs. apply sel_capture_inv in Hs
    as (run & m & gs' & -> & -> & Hne & Hall & Hs & Hlong).
  exists run, m, gs'. repeat split; try assumption.
  destruct (m ++ rest) as [|c s'] eqn:Hm; [exact I|]. simpl.
  destruct (cmatch fl cs c) eqn:Hc; [|reflexivity]. exfalso.
  apply (Hlong [c] s' eq_refl); [discriminate | now repeat constructor|].
  pose proof (sel_den _ _ _ _ _ Hs) as Hd.
  inversion Hd as [| | | | | |? ? ? lz m' ? ? Hlz Hd'| |]; subst.
  destruct lz as [|x lz].
  - inversion Hd' as [|? ? ? y m'' ? ? Hy Hd''| | | | | | |]; subst.
    simpl in Hm. injection Hm as -> <-. rewrite (Hk _ Hc) in Hy. discriminate.
  - simpl in Hm. injection Hm as -> <-. inversion Hlz; subst.
    exists (lz ++ m'), rest, gs'. split; [reflexivity|].
    rewrite lastp_app2. apply den_lazy; [assumption | exact Hd'].
Qed.
End Engine.

(** * Searching a pattern *)

Lemma re_search_sound pat s gs :
  re_search pat s = Some gs ->
  exists pre, occurs_at pat s pre gs /\ leftmost pat s pre.
Proof.
  unfold re_search. intros H.
  apply search_sound in H as (pre & m & rest & Hs & Hd & Hleft).
  exists pre. split; [now exists m, rest|].
  intros pre' gs' (m' & rest' & Hs' & Hd').
  destruct (Nat.le_gt_cases (length pre) (length pre')) as [Hle|Hlt];
    [exact Hle|].
  apply mt_complete in Hd' as [r Hr].
  rewrite (Hleft pre' (m' ++ rest') Hs' Hlt) in Hr. discriminate.
Qed.

Lemma re_search_complete pat s :
  occurs pat s -> is_Some (re_search pat s).
Proof.
  intros (pre & gs & m & rest & -> & Hd).
  unfold re_search. now apply search_complete with gs.
Qed.

(** [pat.search(s)] returns the groups of the selected match of the leftmost
    occurrence, and nothing else. *)
Lemma re_search_selected pat s gs :
  re_search pat s = Some gs <-> exists pre, selected pat s pre gs.
Proof.
  unfold re_search. split.
  - intros H. apply search_split in H as (pre & suf & -> & Hm & Hleft).
    exists pre. destruct (mt_sel_sound _ _ _ _ _ Hm) as (m & rest & -> & Hsel).
    split; [now exists m, rest|].
    intros pre' gs' (m' & rest' & Hs' & Hd').
    destruct (Nat.le_gt_cases (length pre) (length pre')) as [Hle|Hlt];
      [exact Hle|].
    apply mt_complete in Hd' as [r Hr].
    rewrite (Hleft pre' (m' ++ rest') Hs' Hlt) in Hr. discriminate.
  - intros (pre & (m & rest & -> & Hsel) & Hleft).
    apply search_first; [now apply mt_sel_complete|].
    intros pre' suf' Hs Hlt.
    destruct (mt (pat_flags pat) (pat_items pat) (lastp None pre') suf')
      as [gs'|] eqn:Hm; [|reflexivity].
    apply mt_sound in Hm as (m' & rest' & -> & Hd').
    assert (Hocc : occurs_at pat (pre ++ m ++ rest) pre' gs')
      by now exists m', rest'.
    apply Hleft in Hocc. lia.
Qed.

(** The selected match is one: its groups are determined by the text. *)
Lemma selected_unique pat s pre gs pre' gs' :
  selected pat s pre gs -> selected pat s pre' gs' -> gs = gs'.
Proof.
  intros H H'.
  assert (E : re_search pat s = Some gs) by (apply re_search_selected; eauto).
  assert (E' : re_search pat s = Some gs') by (apply re_search_selected; eauto).
  congruence.
Qed.

Lemma selected_occurs_at pat s pre gs :
  selected pat s pre gs -> occurs_at pat s pre gs.
Proof.
  intros [(m & rest & Hs & Hsel) _]. exists m, rest.
  split; [exact Hs | now apply sel_den].
Qed.

(** [occurs] is decided by running the search. *)
Lemma occurs_iff pat s :
  occurs pat s <-> in_text pat s = true.
Proof.
  unfold in_text. split.
  - intros H. apply re_search_complete in H as [r ->]. reflexivity.
  - destruct (re_search pat s) as [gs|] eqn:H; [|discriminate].
    intros _. apply re_search_sound in H as (pre & H & _).
    now exists pre, gs.
Qed.

Lemma not_occurs_iff pat s :
  ~ occurs pat s <-> re_search pat s = None.
Proof.
  rewrite occurs_iff. unfold in_text.
  destruct (re_search pat s); split; intros H; congruence.
Qed.

(** The groups of the three patterns are two numbers. *)
Lemma count_pattern_groups pat s pre gs :
  In pat COUNT_PATTERNS ->
  occurs_at pat s pre gs ->
  exists g1 g2, gs = [g1; g2] /\ number g1 /\ number g2.
Proof.
  intros Hin (m & rest & _ & Hd). apply den_captures in Hd.
  assert (Hcs : capture_sets (pat_items pat) = [Digit; Digit]).
  { simpl in Hin. destruct Hin as [<-|[<-|[<-|[]]]]; reflexivity. }
  rewrite Hcs in Hd.
  inversion Hd as [|? g1 ? gs1 [Hn1 Ha1] Hd1]; subst.
  inversion Hd1 as [|? g2 ? gs2 [Hn2 Ha2] Hd2]; subst.
  inversion Hd2; subst.
  exists g1, g2. repeat split; assumption.
Qed.

Lemma digit_val_range c : is_digit c = true -> 0 <= digit_val c <= 9.
Proof.
  unfold is_digit, between, digit_val. intros H.
  apply andb_true_iff in H as [H1 H2].
  apply N.leb_le in H1, H2. lia.
Qed.

Lemma int_acc_nonneg g :
  Forall (fun c => is_digit c = true) g ->
  forall acc, 0 <= acc ->
    0 <= fold_left (fun a c => 10 * a + digit_val c) g acc.
Proof.
  induction 1 as [|c g Hc _ IH]; intros acc Hacc; simpl; [exact Hacc|].
  apply IH. apply digit_val_range in Hc. lia.
Qed.

(** The integer of a number is not negative. *)
Lemma int_value_nonneg g : number g -> 0 <= int_value g.
Proof. intros [_ H]. unfold int_value. now apply int_acc_nonneg. Qed.

(** [int] returns the value of a run within the limit and raises
    [ValueError] beyond it. *)
Lemma int_short g :
  Z.of_nat (length g) <= int_max_str_digits -> int g = Return (int_value g).
Proof. intros Hl. unfold int. apply Z.leb_le in Hl. now rewrite Hl. Qed.

Lemma int_long g :
  int_max_str_digits < Z.of_nat (length g) ->
  exists e, int g = Raise e /\ exn_kind e = lit "ValueError".
Proof.
  intros Hl. unfold int. apply Z.leb_gt in Hl. rewrite Hl. eauto.
Qed.

Lemma int_returns g z :
  int g = Return z ->
  z = int_value g /\ Z.of_nat (length g) <= int_max_str_digits.
Proof.
  unfold int. destruct (Z.of_nat (length g) <=? int_max_str_digits) eqn:Hl;
    [|discriminate].
  intros [= <-]. apply Z.leb_le in Hl. now split.
Qed.

Lemma int_raises g e :
  int g = Raise e ->
  exn_kind e = lit "ValueError" /\ int_max_str_digits < Z.of_nat (length g).
Proof.
  unfold int. destruct (Z.of_nat (length g) <=? int_max_str_digits) eqn:Hl;
    [discriminate|].
  intros [= <-]. apply Z.leb_gt in Hl. now split.
Qed.

(** The two calls of [int]: both counts, or the [ValueError] of the first run
    that is too long. *)
Lemma counts_of_returns g1 g2 r :
  counts_of g1 g2 = Return r ->
  r = (Some (int_value g1), Some (int_value g2)) /\
  Z.of_nat (length g1) <= int_max_str_digits /\
  Z.of_nat (length g2) <= int_max_str_digits.
Proof.
  unfold counts_of.
  destruct (int g1) as [t|e] eqn:H1; [|discriminate].
  destruct (int g2) as [u|e] eqn:H2; [|discriminate].
  apply int_returns in H1 as [-> ?], H2 as [-> ?]. now intros [= <-].
Qed.

Lemma counts_of_raises g1 g2 e :
  counts_of g1 g2 = Raise e ->
  exn_kind e = lit "ValueError" /\
  (int_max_str_digits < Z.of_nat (length g1) \/
   int_max_str_digits < Z.of_nat (length g2)).
Proof.
  unfold counts_of.
  destruct (int g1) as [t|e1] eqn:H1.
  - destruct (int g2) as [u|e2] eqn:H2; [discriminate|].
    intros [= <-]. apply int_raises in H2 as [? ?]. auto.
  - intros [= <-]. apply int_raises in H1 as [? ?]. auto.
Qed.

Lemma counts_of_short g1 g2 :
  Z.of_nat (length g1) <= int_max_str_digits ->
  Z.of_nat (length g2) <= int_max_str_digits ->
  counts_of g1 g2 = Return (Some (int_value g1), Some (int_value g2)).
Proof. intros H1 H2. unfold counts_of. now rewrite !int_short. Qed.

Lemma counts_of_long g1 g2 :
  int_max_str_digits < Z.of_nat (length g1) \/
  int_max_str_digits < Z.of_nat (length g2) ->
  exists e, counts_of g1 g2 = Raise e /\ exn_kind e = lit "ValueError".
Proof.
  intros Hl. destruct (counts_of g1 g2) as [r|e] eqn:Hc.
  - apply counts_of_returns in Hc as (_ & ? & ?). lia.
  - apply counts_of_raises in Hc as [? _]. eauto.
Qed.

(** The loop over the patterns stops at the first one that occurs. *)
Lemma first_match_first pats output :
  forall i pat,
    pats !! i = Some pat ->
    occurs pat output ->
    (forall j q, (j < i)%nat -> pats !! j = Some q -> ~ occurs q output) ->
    exists gs,
      re_search pat output = Some gs /\ first_match pats output = Some gs.
Proof.
  induction pats as [|p0 pats IH]; intros i pat Hi Hocc Hbefore;
    [discriminate|].
  destruct i as [|i]; simpl in *.
  - injection Hi as ->. apply re_search_complete in Hocc as [gs Hgs].
    exists gs. now rewrite Hgs.
  - assert (H0 : re_search p0 output = None).
    { apply not_occurs_iff. apply (Hbefore O); [lia | reflexivity]. }
    rewrite H0. apply IH with i; [exact Hi | exact Hocc |].
    intros j q Hj Hq. apply (Hbefore (S j)); [lia | exact Hq].
Qed.

Lemma first_match_none pats output :
  (forall pat, In pat pats -> ~ occurs pat output) ->
  first_match pats output = None.
Proof.
  induction pats as [|p0 pats IH]; intros H; simpl; [reflexivity|].
  assert (H0 : re_search p0 output = None).
  { apply not_occurs_iff, H. now left. }
  rewrite H0. apply IH. intros pat Hin. apply H. now right.
Qed.

Lemma first_match_some pats output gs :
  first_match pats output = Some gs ->
  exists pat, In pat pats /\ re_search pat output = Some gs.
Proof.
  induction pats as [|p0 pats IH]; simpl; [discriminate|].
  destruct (re_search p0 output) as [gs0|] eqn:H0.
  - intros [= <-]. exists p0. auto.
  - intros H. apply IH in H as (pat & Hin & H). exists pat. auto.
Qed.

(** What the loop finds are two numbers. *)
Lemma first_match_numbers output gs :
  first_match COUNT_PATTERNS output = Some gs ->
  exists g1 g2, gs = [g1; g2] /\ number g1 /\ number g2.
Proof.
  intros Hf. apply first_match_some in Hf as (pat & Hin & Hs).
  apply re_search_sound in Hs as (pre & Hat & _).
  now apply (count_pattern_groups pat output pre).
Qed.

(** * The fallback phrase *)

Ltac each_char c := destruct c as [[] [] [] [] [] [] [] []].

Lemma space_not_word c : is_space c = true -> is_word c = false.
Proof. each_char c; vm_compute; congruence. Qed.

Lemma lower_i c : lower c = "i"%char -> is_word c = true /\ is_space c = false.
Proof. each_char c; vm_compute; intros H; (discriminate H || auto). Qed.

Lemma lower_e c : lower c = "e"%char -> is_word c = true /\ is_space c = false.
Proof. each_char c; vm_compute; intros H; (discriminate H || auto). Qed.

Lemma chr_ci fl c x :
  IGNORECASE fl = true -> cmatch fl (Chr c) x = true <-> lower x = lower c.
Proof.
  intros Hi. simpl. rewrite Hi. rewrite bool_decide_eq_true. reflexivity.
Qed.

Lemma in_use_phrase_occurs l : in_use_phrase l -> occurs IN_USE l.
Proof.
  intros (pre & k1 & ws & k2 & post & -> & H1 & Hws & H2 & Hb & Ha).
  destruct k1 as [|i [|n [|]]]; try discriminate H1.
  destruct k2 as [|u [|s [|e [|]]]]; try discriminate H2.
  injection H1 as Hi Hn. injection H2 as Hu Hs He.
  exists pre, []. exists ([i; n] ++ ws ++ [u; s; e]), post. split.
  { now rewrite <- !app_assoc. }
  simpl. apply den_wordb.
  { simpl. unfold boundary. rewrite Hb. simpl.
    now destruct (lower_i i Hi) as [-> _]. }
  apply den_one; [now apply chr_ci|].
  apply den_one; [now apply chr_ci|].
  apply den_star; [exact Hws|].
  apply den_one; [now apply chr_ci|].
  apply den_one; [now apply chr_ci|].
  apply den_one; [now apply chr_ci|].
  apply den_wordb; [|constructor].
  simpl. unfold boundary. simpl. rewrite Ha.
  now destruct (lower_e e He) as [-> _].
Qed.

Lemma occurs_in_use_phrase l : occurs IN_USE l -> in_use_phrase l.
Proof.
  intros (pre & gs & m & rest & -> & Hd). simpl in Hd.
  inversion Hd as [| | | | | | | |? ? ? ? ? Hb Hd1]; subst; clear Hd.
  inversion Hd1 as [|? ? ? i ? ? ? Hi Hd2| | | | | | |]; subst; clear Hd1.
  inversion Hd2 as [|? ? ? n ? ? ? Hn Hd3| | | | | | |]; subst; clear Hd2.
  inversion Hd3 as [| | | |? ? ? ws ? ? ? Hws Hd4| | | |]; subst; clear Hd3.
  inversion Hd4 as [|? ? ? u ? ? ? Hu Hd5| | | | | | |]; subst; clear Hd4.
  inversion Hd5 as [|? ? ? s ? ? ? Hs Hd6| | | | | | |]; subst; clear Hd5.
  inversion Hd6 as [|? ? ? e ? ? ? He Hd7| | | | | | |]; subst; clear Hd6.
  inversion Hd7 as [| | | | | | | |? ? ? ? ? Ha Hd8]; subst; clear Hd7.
  inversion Hd8; subst; clear Hd8.
  apply chr_ci in Hi, Hn, Hu, Hs, He; try reflexivity.
  exists pre, [i; n], ws, [u; s; e], rest. repeat split.
  - simpl. now rewrite <- app_assoc.
  - unfold spells. cbn [map]. rewrite Hi, Hn. reflexivity.
  - exact Hws.
  - unfold spells. cbn [map]. rewrite Hu, Hs, He. reflexivity.
  - simpl in Hb. unfold boundary in Hb. simpl in Hb.
    destruct (lower_i i Hi) as [Hw _]. rewrite Hw in Hb.
    now destruct (word_at (lastp None pre)).
  - simpl in Ha. unfold boundary in Ha. simpl in Ha.
    destruct (lower_e e He) as [Hw _]. rewrite Hw in Ha.
    now destruct (word_at (head rest)).
Qed.

(** The test of the fallback decides the phrase. *)
Lemma in_use_line_iff l : in_use_line l = true <-> in_use_phrase l.
Proof.
  unfold in_use_line. rewrite <- occurs_iff. split.
  - apply occurs_in_use_phrase.
  - apply in_use_phrase_occurs.
Qed.

(** ** Whitespace around a line does not matter *)

Lemma lastp_nonempty a b (s : str) : s <> [] -> lastp a s = lastp b s.
Proof. destruct s as [|c s]; [congruence | reflexivity]. Qed.

Lemma spells_in k : spells "in" k ->
  exists i n, k = [i; n] /\ lower i = "i"%char /\ lower n = "n"%char.
Proof.
  unfold spells. destruct k as [|i [|n [|]]]; try discriminate.
  intros [= Hi Hn]. now exists i, n.
Qed.

Lemma spells_use k : spells "use" k ->
  exists u s e, k = [u; s; e] /\ lower e = "e"%char.
Proof.
  unfold spells. destruct k as [|u [|s [|e [|]]]]; try discriminate.
  intros [= Hu Hs He]. now exists u, s, e.
Qed.

Lemma phrase_skip_front c l :
  is_space c = true -> in_use_phrase (c :: l) <-> in_use_phrase l.
Proof.
  intros Hc. split.
  - intros (pre & k1 & ws & k2 & post & Hl & H1 & Hws & H2 & Hb & Ha).
    destruct pre as [|c' pre].
    + destruct (spells_in _ H1) as (i & n & -> & Hi & _).
      injection Hl as -> _. apply lower_i in Hi as [_ Hi]. congruence.
    + injection Hl as <- ->.
      exists pre, k1, ws, k2, post. repeat split; try assumption.
      destruct pre as [|c2 pre]; [reflexivity|].
      now rewrite (lastp_nonempty None (Some c)).
  - intros (pre & k1 & ws & k2 & post & -> & H1 & Hws & H2 & Hb & Ha).
    exists (c :: pre), k1, ws, k2, post. repeat split; try assumption.
    destruct pre as [|c2 pre].
    + simpl. now apply space_not_word.
    + exact Hb.
Qed.

Lemma phrase_skip_back c l :
  is_space c = true -> in_use_phrase (l ++ [c]) <-> in_use_phrase l.
Proof.
  intros Hc. split.
  - intros (pre & k1 & ws & k2 & post & Hl & H1 & Hws & H2 & Hb & Ha).
    induction post as [|c' post' _] using rev_ind.
    + destruct (spells_use _ H2) as (u & s & e & -> & He).
      replace (pre ++ k1 ++ ws ++ [u; s; e] ++ [])
        with ((pre ++ k1 ++ ws ++ [u; s]) ++ [e]) in Hl
        by now rewrite <- !app_assoc.
      apply app_inj_tail in Hl as [_ ->].
      apply lower_e in He as [_ He]. congruence.
    + replace (pre ++ k1 ++ ws ++ k2 ++ post' ++ [c'])
        with ((pre ++ k1 ++ ws ++ k2 ++ post') ++ [c']) in Hl
        by now rewrite <- !app_assoc.
      apply app_inj_tail in Hl as [-> <-].
      exists pre, k1, ws, k2, post'. repeat split; try assumption.
      destruct post'; [reflexivity | exact Ha].
  - intros (pre & k1 & ws & k2 & post & -> & H1 & Hws & H2 & Hb & Ha).
    exists pre, k1, ws, k2, (post ++ [c]). repeat split; try assumption.
    + now rewrite <- !app_assoc.
    + destruct post; [simpl; now apply space_not_word | exact Ha].
Qed.

Lemma phrase_skip_blank ws1 ws2 l :
  blank ws1 -> blank ws2 ->
  in_use_phrase (ws1 ++ l ++ ws2) <-> in_use_phrase l.
Proof.
  intros H1 H2. transitivity (in_use_phrase (l ++ ws2)).
  - induction H1 as [|c ws1 Hc _ IH]; [reflexivity|].
    simpl. now rewrite phrase_skip_front.
  - clear H1. induction ws2 as [|c ws2 IH] using rev_ind.
    + now rewrite app_nil_r.
    + apply Forall_app in H2 as [H2 Hc]. inversion Hc; subst.
      rewrite app_assoc, phrase_skip_back by assumption. now apply IH.
Qed.

Lemma lstrip_split l : exists ws, l = ws ++ lstrip l /\ blank ws.
Proof.
  induction l as [|c l (ws & IH & Hws)]; simpl.
  - exists []. split; [reflexivity | constructor].
  - destruct (is_space c) eqn:Hc.
    + exists (c :: ws). split; [simpl; congruence | now constructor].
    + exists []. split; [reflexivity | constructor].
Qed.

(** [strip] removes a blank prefix and a blank suffix. *)
Lemma strip_split l :
  exists ws1 ws2, l = ws1 ++ strip l ++ ws2 /\ blank ws1 /\ blank ws2.
Proof.
  destruct (lstrip_split l) as (ws1 & Hl & H1).
  destruct (lstrip_split (rev (lstrip l))) as (ws2 & Hr & H2).
  exists ws1, (rev ws2). repeat split.
  - unfold strip. rewrite <- rev_app_distr, <- Hr, rev_involutive. exact Hl.
  - exact H1.
  - unfold blank. now apply Forall_rev.
Qed.

Lemma in_use_phrase_strip l : in_use_phrase (strip l) <-> in_use_phrase l.
Proof.
  destruct (strip_split l) as (ws1 & ws2 & Hl & H1 & H2).
  rewrite Hl at 2. symmetry. now apply phrase_skip_blank.
Qed.

(** The length of the filtered list counts the lines that hold the phrase. *)
Lemma count_in_use lines :
  count_lines in_use_phrase lines
    (length (List.filter in_use_line (map strip lines))).
Proof.
  induction lines as [|l lines IH]; simpl; [constructor|].
  destruct (in_use_line (strip l)) eqn:Hl; simpl.
  - apply count_yes; [|exact IH].
    now apply in_use_phrase_strip, in_use_line_iff.
  - apply count_no; [|exact IH].
    rewrite <- in_use_phrase_strip, <- in_use_line_iff. congruence.
Qed.

Lemma count_lines_unique P lines :
  forall n n', count_lines P lines n -> count_lines P lines n' -> n = n'.
Proof.
  induction lines as [|l lines IH]; intros n n' H H';
    inversion H; subst; inversion H'; subst;
    try reflexivity; try contradiction; eauto.
Qed.

(** ** The groups of the three patterns are whole runs of digits *)

Lemma space_not_digit c : is_space c = true -> is_digit c = false.
Proof. each_char c; vm_compute; congruence. Qed.

Lemma digit_not_letter_i c :
  cmatch I_S Digit c = true -> cmatch I_S (Chr "I") c = false.
Proof. each_char c; vm_compute; congruence. Qed.

Lemma digit_not_letter_u c :
  cmatch I_S Digit c = true -> cmatch I_S (Chr "U") c = false.
Proof. each_char c; vm_compute; congruence. Qed.

(** A group that whitespace must follow is a whole run. *)
Lemma sel_capture_space p prev m0 rest gs :
  sel I_S (Capture Digit :: Plus Space :: p) prev m0 rest gs ->
  exists run m gs',
    m0 = run ++ m /\ gs = run :: gs' /\
    no_more I_S Digit (m ++ rest) /\
    sel I_S (Plus Space :: p) (lastp prev run) m rest gs'.
Proof.
  intros Hs. apply sel_capture_inv in Hs
    as (run & m & gs' & -> & -> & Hne & Hall & Hs & Hlong).
  exists run, m, gs'. repeat split; [|exact Hs].
  apply sel_den in Hs.
  inversion Hs as [| | | | |? ? ? ws m' ? ? Hws Hall' Hd'| | |]; subst.
  destruct ws as [|c ws]; [congruence|]. inversion Hall'; subst.
  simpl. now apply space_not_digit.
Qed.

Lemma no_groups fl p prev m rest gs :
  capture_sets p = [] -> den fl p prev m rest gs -> gs = [].
Proof.
  intros Hc Hd. apply den_captures in Hd. rewrite Hc in Hd. now inversion Hd.
Qed.

(** In the match [search] selects for one of the three patterns, each group
    goes up to the last digit of its run: the text does not go on with a
    digit after it. *)
Lemma count_groups_whole pat s pre g1 g2 :
  In pat COUNT_PATTERNS ->
  selected pat s pre [g1; g2] ->
  exists a b post,
    s = pre ++ a ++ g1 ++ b ++ g2 ++ post /\
    no_more I_S Digit (b ++ g2 ++ post) /\ no_more I_S Digit post.
Proof.
  intros Hin [(m & rest & -> & Hs) _].
  destruct Hin as [<-|[<-|[<-|[]]]];
    cbn [pat_flags pat_items RE_FLEXLM RE_TOTAL_INUSE RE_ISSUED_USED] in Hs.
  - set (h := word "Total" ++ [Plus Space] ++ word "of" ++ [Plus Space]).
    set (mid := Plus Space
                :: word "licenses" ++ [Plus Space] ++ word "issued"
                   ++ [Opt (Chr ";"); Star Space] ++ word "Total"
                   ++ [Plus Space] ++ word "of" ++ [Plus Space]).
    set (tail := word "licenses" ++ [Plus Space] ++ word "in"
                 ++ [Plus Space] ++ word "use").
    assert (E : PAT_FLEXLM
                = h ++ Capture Digit
                       :: mid ++ Capture Digit :: Plus Space :: tail)
      by reflexivity.
    rewrite E in Hs.
    apply (sel_app_inv I_S h) in Hs
      as (a & m2 & gs1 & gs2 & -> & Hgs & Hd1 & Hs).
    apply no_groups in Hd1; [|reflexivity]. subst gs1. cbn [app] in Hgs.
    subst gs2.
    apply sel_capture_space in Hs as (run & m3 & gs' & -> & [= <- <-] & Hn1 & Hs).
    apply (sel_app_inv I_S mid) in Hs
      as (b & m4 & gs3 & gs4 & -> & Hgs & Hd3 & Hs).
    apply no_groups in Hd3; [|reflexivity]. subst gs3. cbn [app] in Hgs.
    subst gs4.
    apply sel_capture_space in Hs as (run2 & m5 & gs'' & -> & [= <-] & Hn2 & _).
    exists a, b, (m5 ++ rest). rewrite <- !app_assoc in *.
    repeat split; assumption.
  - set (h := word "Total" ++ [Plus Space] ++ word "licenses" ++ [Star Space]
              ++ word ":" ++ [Star Space]).
    set (mid := Lazy Dot :: One (Chr "I")
                :: word "n" ++ [Plus Space] ++ word "use" ++ [Star Space]
                   ++ word ":" ++ [Star Space]).
    assert (E : PAT_TOTAL_INUSE = h ++ Capture Digit :: mid ++ [Capture Digit])
      by reflexivity.
    rewrite E in Hs.
    apply (sel_app_inv I_S h) in Hs
      as (a & m2 & gs1 & gs2 & -> & Hgs & Hd1 & Hs).
    apply no_groups in Hd1; [|reflexivity]. subst gs1. cbn [app] in Hgs.
    subst gs2.
    apply sel_capture_lazy in Hs
      as (run & m3 & gs' & -> & [= <- <-] & _ & _ & Hn1 & Hs);
      [|reflexivity | exact digit_not_letter_i].
    apply (sel_app_inv I_S mid) in Hs
      as (b & m4 & gs3 & gs4 & -> & Hgs & Hd3 & Hs).
    apply no_groups in Hd3; [|reflexivity]. subst gs3. cbn [app] in Hgs.
    subst gs4.
    apply sel_capture_last in Hs as ([= <-] & Hn2).
    exists a, b, rest. rewrite <- !app_assoc in *.
    repeat split; assumption.
  - set (h := word "Issued" ++ [Star Space] ++ word "=" ++ [Star Space]).
    set (mid := Lazy Dot :: One (Chr "U")
                :: word "sed" ++ [Star Space] ++ word "=" ++ [Star Space]).
    assert (E : PAT_ISSUED_USED = h ++ Capture Digit :: mid ++ [Capture Digit])
      by reflexivity.
    rewrite E in Hs.
    apply (sel_app_inv I_S h) in Hs
      as (a & m2 & gs1 & gs2 & -> & Hgs & Hd1 & Hs).
    apply no_groups in Hd1; [|reflexivity]. subst gs1. cbn [app] in Hgs.
    subst gs2.
    apply sel_capture_lazy in Hs
      as (run & m3 & gs' & -> & [= <- <-] & _ & _ & Hn1 & Hs);
      [|reflexivity | exact digit_not_letter_u].
    apply (sel_app_inv I_S mid) in Hs
      as (b & m4 & gs3 & gs4 & -> & Hgs & Hd3 & Hs).
    apply no_groups in Hd3; [|reflexivity]. subst gs3. cbn [app] in Hgs.
    subst gs4.
    apply sel_capture_last in Hs as ([= <-] & Hn2).
    exists a, b, rest. rewrite <- !app_assoc in *.
    repeat split; assumption.
Qed.

(** * parse_usage *)

(** The scenarios of the specification. *)
Example parse_flexlm :
  parse_usage (lit "Total of 25 licenses issued; Total of 5 licenses in use")
  = Return (Some 25, Some 5).
Proof. reflexivity. Qed.

Example parse_issued_used :
  parse_usage (lit "Issued=10 ... Used=10") = Return (Some 10, Some 10).
Proof. reflexivity. Qed.

Example parse_total_in_use_lines :
  parse_usage (lit "TOTAL licenses : 7 (server up)
  in   USE:3") = Return (Some 7, Some 3).
Proof. reflexivity. Qed.

(** What [parse_usage] does once a pattern was found. *)
Lemma parse_usage_found output gs :
  first_match COUNT_PATTERNS output = Some gs ->
  parse_usage output = counts_of (group 1 gs) (group 2 gs).
Proof. intros Hf. unfold parse_usage. now rewrite Hf. Qed.

(** The selected groups are whole runs of digits: in [Issued=10 ... Used=10]
    a part of a run, which the language of the pattern admits ([.*?] can
    take the rest of it), is not selected. *)
Example selected_whole_runs pre gs :
  selected RE_ISSUED_USED (lit "Issued=10 ... Used=10") pre gs ->
  gs = [lit "10"; lit "10"].
Proof.
  intros H.
  assert (E : re_search RE_ISSUED_USED (lit "Issued=10 ... Used=10") = Some gs)
    by (apply re_search_selected; eauto).
  vm_compute in E. now injection E as <-.
Qed.

(** C1, as stated, fails: the first phrasing is not recognized when text
    other than a semicolon and whitespace stands between its two halves; with
    [", "] there the fallback answers (unknown, 1). *)
Lemma parse_usage_flexlm_between_refuted :
  ~ (forall N M between,
        0 <= N -> 0 <= M ->
        parse_usage (spec_phrasing_flexlm N M between)
        = Return (Some N, Some M)).
Proof.
  intros H. specialize (H 25 5 (lit ", ")).
  assert (Hc : parse_usage (spec_phrasing_flexlm 25 5 (lit ", "))
               = Return (None, Some 1)) by reflexivity.
  rewrite Hc in H. specialize (H ltac:(lia) ltac:(lia)). discriminate H.
Qed.

(** C1 (amended): when a pattern of [COUNT_PATTERNS] occurs in the text and
    none of the patterns before it does, [parse_usage] reads the two groups
    of the match [search] selects for that pattern: the leftmost occurrence,
    in which every greedy repeat takes the longest run and the lazy [.*?] the
    shortest run after which the rest of the pattern matches.  That match
    exists and its groups are determined by the text; both are non-empty
    runs of digits and go up to the last digit of their run (the text does
    not go on with a digit after either of them).  [parse_usage] returns
    their two integers when each run has at most 4300 digits, and raises the
    [ValueError] of [int] otherwise.
    The pattern is read case-insensitively; the first one admits only an
    optional semicolon and whitespace between "issued" and the second
    "Total", the second and third admit any text, line breaks included,
    between the two numbers. *)
Theorem parse_usage_first_pattern output i pat :
  COUNT_PATTERNS !! i = Some pat ->
  occurs pat output ->
  (forall j q, (j < i)%nat -> COUNT_PATTERNS !! j = Some q -> ~ occurs q output) ->
  exists pre g1 g2,
    selected pat output pre [g1; g2] /\
    (forall pre' gs', selected pat output pre' gs' -> gs' = [g1; g2]) /\
    occurs_at pat output pre [g1; g2] /\ leftmost pat output pre /\
    number g1 /\ number g2 /\
    (exists a b post,
       output = pre ++ a ++ g1 ++ b ++ g2 ++ post /\
       no_more I_S Digit (b ++ g2 ++ post) /\ no_more I_S Digit post) /\
    parse_usage output = counts_of g1 g2 /\
    (Z.of_nat (length g1) <= int_max_str_digits ->
     Z.of_nat (length g2) <= int_max_str_digits ->
     parse_usage output = Return (Some (int_value g1), Some (int_value g2))) /\
    (int_max_str_digits < Z.of_nat (length g1) \/
     int_max_str_digits < Z.of_nat (length g2) ->
     exists e, parse_usage output = Raise e /\ exn_kind e = lit "ValueError").
Proof.
  intros Hi Hocc Hbefore.
  destruct (first_match_first _ _ _ _ Hi Hocc Hbefore) as (gs & Hs & Hf).
  destruct (proj1 (re_search_selected _ _ _) Hs) as (pre & Hsel).
  pose proof (selected_occurs_at _ _ _ _ Hsel) as Hat.
  assert (Hin : In pat COUNT_PATTERNS).
  { apply list_elem_of_In. eapply list_elem_of_lookup_2. exact Hi. }
  destruct (count_pattern_groups _ _ _ _ Hin Hat) as (g1 & g2 & -> & H1 & H2).
  assert (Hp : parse_usage output = counts_of g1 g2)
    by now rewrite (parse_usage_found _ _ Hf).
  exists pre, g1, g2.
  split; [exact Hsel|]. split.
  { intros pre' gs' Hsel'. now apply (selected_unique _ _ _ _ _ _ Hsel' Hsel). }
  split; [exact Hat|]. split; [apply Hsel|].
  split; [exact H1|]. split; [exact H2|].
  split; [exact (count_groups_whole _ _ _ _ _ Hin Hsel)|].
  split; [exact Hp|]. split.
  - intros Hl1 Hl2. rewrite Hp. now apply counts_of_short.
  - intros Hl. rewrite Hp. now apply counts_of_long.
Qed.

Lemma parse_usage_first_pattern_witness :
  exists pre g1 g2,
    selected RE_TOTAL_INUSE
      (lit "Total licenses: 25 (3 queued)
In use: 5") pre [g1; g2] /\
    (forall pre' gs',
       selected RE_TOTAL_INUSE
         (lit "Total licenses: 25 (3 queued)
In use: 5") pre' gs' -> gs' = [g1; g2]) /\
    occurs_at RE_TOTAL_INUSE
      (lit "Total licenses: 25 (3 queued)
In use: 5") pre [g1; g2] /\
    leftmost RE_TOTAL_INUSE
      (lit "Total licenses: 25 (3 queued)
In use: 5") pre /\
    number g1 /\ number g2 /\
    (exists a b post,
       lit "Total licenses: 25 (3 queued)
In use: 5" = pre ++ a ++ g1 ++ b ++ g2 ++ post /\
       no_more I_S Digit (b ++ g2 ++ post) /\ no_more I_S Digit post) /\
    parse_usage (lit "Total licenses: 25 (3 queued)
In use: 5") = counts_of g1 g2 /\
    (Z.of_nat (length g1) <= int_max_str_digits ->
     Z.of_nat (length g2) <= int_max_str_digits ->
     parse_usage (lit "Total licenses: 25 (3 queued)
In use: 5") = Return (Some (int_value g1), Some (int_value g2))) /\
    (int_max_str_digits < Z.of_nat (length g1) \/
     int_max_str_digits < Z.of_nat (length g2) ->
     exists e,
       parse_usage (lit "Total licenses: 25 (3 queued)
In use: 5") = Raise e /\ exn_kind e = lit "ValueError").
Proof.
  apply (parse_usage_first_pattern _ 1%nat).
  - reflexivity.
  - apply occurs_iff. reflexivity.
  - intros j q Hj Hq. destruct j as [|j]; [|lia].
    injection Hq as <-. apply not_occurs_iff. reflexivity.
Defined.

(** C2, as stated, fails: a line holding [inuse] does not hold the phrase
    [in use], yet the fallback counts it. *)
Lemma parse_usage_fallback_phrase_refuted :
  ~ (forall output n,
        (forall pat, In pat COUNT_PATTERNS -> ~ occurs pat output) ->
        count_lines spec_in_use_phrase (splitlines output) n ->
        parse_usage output =
          if (0 <? n)%nat then Return (None, Some (Z.of_nat n))
          else Return (None, None)).
Proof.
  intros H. specialize (H (lit "inuse") O).
  assert (Hc : parse_usage (lit "inuse") = Return (None, Some 1))
    by reflexivity.
  rewrite Hc in H. simpl in H.
  assert (Hgoal : Return (None, Some 1) = Return (@None Z, @None Z));
    [|discriminate Hgoal].
  apply H.
  - intros pat [<-|[<-|[<-|[]]]]; apply not_occurs_iff; reflexivity.
  - change (splitlines (lit "inuse")) with [lit "inuse"].
    apply count_no; [|constructor].
    intros (pre & k & post & Hl & Hk & _).
    apply (f_equal (@length ascii)) in Hl, Hk.
    rewrite !length_app in Hl. rewrite length_map in Hk.
    simpl in Hl, Hk. lia.
Qed.

(** C2 (amended): when none of the patterns occurs in the text and [n] of its
    lines hold "in", any run of whitespace (possibly none) and "use",
    case-insensitively and between word boundaries, [parse_usage] returns
    (unknown, n) if [n] is positive and (unknown, unknown) if it is zero. *)
Theorem parse_usage_fallback output n :
  (forall pat, In pat COUNT_PATTERNS -> ~ occurs pat output) ->
  count_lines in_use_phrase (splitlines output) n ->
  parse_usage output =
    if (0 <? n)%nat then Return (None, Some (Z.of_nat n))
    else Return (None, None).
Proof.
  intros Hnone Hn. unfold parse_usage. rewrite (first_match_none _ _ Hnone).
  unfold used_guess.
  rewrite <- (count_lines_unique _ _ _ _ Hn (count_in_use (splitlines output))).
  destruct n as [|n]; reflexivity.
Qed.

Lemma parse_usage_fallback_witness :
  parse_usage (lit "feature X: in use by alice
idle
2 seats IN  USE") =
    if (0 <? 2)%nat then Return (None, Some (Z.of_nat 2))
    else Return (None, None).
Proof.
  apply (parse_usage_fallback _ 2%nat).
  - intros pat [<-|[<-|[<-|[]]]]; apply not_occurs_iff; reflexivity.
  - change (splitlines (lit "feature X: in use by alice
idle
2 seats IN  USE"))
      with [lit "feature X: in use by alice"; lit "idle"; lit "2 seats IN  USE"].
    apply count_yes; [apply in_use_line_iff; reflexivity|].
    apply count_no; [rewrite <- in_use_line_iff; vm_compute; congruence|].
    apply count_yes; [apply in_use_line_iff; reflexivity|].
    constructor.
Defined.

(** C10: whenever [parse_usage] returns, its result has one of three shapes,
    (known, known), (unknown, known) or (unknown, unknown); a known total
    never comes with an unknown used.  When it does not return it raises the
    [ValueError] of [int]. *)
Theorem parse_usage_shapes output :
  ((exists t u, parse_usage output = Return (Some t, Some u)) \/
   (exists u, parse_usage output = Return (None, Some u)) \/
   parse_usage output = Return (None, None) \/
   (exists e, parse_usage output = Raise e /\ exn_kind e = lit "ValueError")) /\
  (forall t, parse_usage output <> Return (Some t, None)).
Proof.
  unfold parse_usage.
  destruct (first_match COUNT_PATTERNS output) as [gs|].
  - destruct (counts_of (group 1 gs) (group 2 gs)) as [r|e] eqn:Hc.
    + apply counts_of_returns in Hc as (-> & _). split; [|discriminate].
      left. eauto.
    + apply counts_of_raises in Hc as [Hk _]. split; [|discriminate].
      right. right. right. eauto.
  - destruct (0 <? used_guess output).
    + split; [right; left; eauto | discriminate].
    + split; [right; right; left; reflexivity | discriminate].
Qed.

(** * Texts the patterns recognize *)

(** ** Printed integers are numbers, and are read back *)

Lemma uint_digits d :
  Forall (fun c => is_digit c = true) (lit (NilEmpty.string_of_uint d)).
Proof. induction d; simpl; constructor; auto. Qed.

Lemma int_acc_uint d :
  forall acc,
    fold_left (fun a c => 10 * a + digit_val c)
      (lit (NilEmpty.string_of_uint d)) (Z.pos acc)
    = Z.pos (Pos.of_uint_acc d acc).
Proof.
  induction d; intros acc; cbn [NilEmpty.string_of_uint lit
    list_ascii_of_string fold_left Pos.of_uint_acc]; [reflexivity|..];
    rewrite <- IHd; f_equal; unfold digit_val; simpl; lia.
Qed.

Lemma int_uint d :
  int_value (lit (NilEmpty.string_of_uint d)) = Z.of_N (Pos.of_uint d).
Proof.
  unfold int_value. induction d; cbn [NilEmpty.string_of_uint lit
    list_ascii_of_string fold_left Pos.of_uint]; [reflexivity|exact IHd|..];
    apply (int_acc_uint d).
Qed.

Lemma str_of_Z_pos p :
  str_of_Z (Z.pos p) = lit (NilEmpty.string_of_uint (Pos.to_uint p)).
Proof.
  unfold str_of_Z. cbn [Z.to_int NilZero.string_of_int].
  unfold NilZero.string_of_uint.
  pose proof (DecimalPos.Unsigned.to_uint_nonnil p) as Hnn.
  now destruct (Pos.to_uint p).
Qed.

(** The value of the decimal text of a count is the count. *)
Lemma int_str_of_Z n : 0 <= n -> int_value (str_of_Z n) = n.
Proof.
  destruct n as [|p|p]; intros Hn; [reflexivity| |lia].
  rewrite str_of_Z_pos, int_uint.
  now rewrite DecimalPos.Unsigned.of_to.
Qed.

Lemma number_str_of_Z n : 0 <= n -> number (str_of_Z n).
Proof.
  destruct n as [|p|p]; intros Hn; [|  |lia].
  - split; [discriminate | repeat constructor].
  - rewrite str_of_Z_pos. split; [|apply uint_digits].
    pose proof (DecimalPos.Unsigned.to_uint_nonnil p) as Hnn.
    destruct (Pos.to_uint p); try discriminate. congruence.
Qed.

(** ** Runs that leave the matcher no choice *)

Section Exact.
Variable fl : flags.

Lemma cmatch_same c : cmatch fl (Chr c) c = true.
Proof. simpl. destruct (IGNORECASE fl); now apply bool_decide_eq_true. Qed.

(** A word of the pattern read in the text as it is written. *)
Lemma mt_word w p prev s :
  mt fl (word w ++ p) prev (lit w ++ s) = mt fl p (lastp prev (lit w)) s.
Proof.
  unfold word. revert prev.
  induction (lit w) as [|c k IH]; intros prev; [reflexivity|].
  cbn [map app]. cbn [mt]. rewrite cmatch_same. apply IH.
Qed.

Lemma mt_word_mismatch c p prev s :
  no_more fl (Chr c) s -> s <> [] ->
  mt fl (One (Chr c) :: p) prev s = None.
Proof.
  destruct s as [|x s]; [congruence|]. simpl. now intros ->.
Qed.

Lemma greedy_exact cs k run s :
  all_in fl cs run -> no_more fl cs s ->
  forall acc prev r,
    k (acc ++ run) (lastp prev run) s = Some r ->
    greedy fl cs k acc prev (run ++ s) = Some r.
Proof.
  intros Hall Hs. induction Hall as [|c run Hc _ IH]; intros acc prev r Hk.
  - rewrite app_nil_r in Hk. simpl in *.
    destruct s as [|c s]; [exact Hk|]. simpl in Hs. simpl. now rewrite Hs.
  - simpl. rewrite Hc. rewrite (IH (acc ++ [c]) (Some c) r); [reflexivity|].
    now rewrite <- app_assoc.
Qed.

Lemma mt_star_exact cs p prev run s r :
  all_in fl cs run -> no_more fl cs s ->
  mt fl p (lastp prev run) s = Some r ->
  mt fl (Star cs :: p) prev (run ++ s) = Some r.
Proof. intros Hall Hs Hp. cbn [mt]. now apply greedy_exact. Qed.

Lemma mt_plus_exact cs p prev run s r :
  run <> [] -> all_in fl cs run -> no_more fl cs s ->
  mt fl p (lastp prev run) s = Some r ->
  mt fl (Plus cs :: p) prev (run ++ s) = Some r.
Proof.
  intros Hne Hall Hs Hp. destruct run as [|c run]; [congruence|].
  inversion Hall as [|? ? Hc Hall']; subst.
  cbn [mt app]. rewrite Hc. now apply greedy_exact.
Qed.

Lemma mt_capture_exact cs p prev run s r :
  run <> [] -> all_in fl cs run -> no_more fl cs s ->
  mt fl p (lastp prev run) s = Some r ->
  mt fl (Capture cs :: p) prev (run ++ s) = Some (run :: r).
Proof.
  intros Hne Hall Hs Hp. destruct run as [|c run]; [congruence|].
  inversion Hall as [|? ? Hc Hall']; subst.
  cbn [mt app]. rewrite Hc. apply greedy_exact; [exact Hall' | exact Hs|].
  cbn [app]. simpl in Hp. now rewrite Hp.
Qed.

Lemma mt_opt_take cs p prev c s r :
  cmatch fl cs c = true -> mt fl p (Some c) s = Some r ->
  mt fl (Opt cs :: p) prev (c :: s) = Some r.
Proof. intros Hc Hp. cbn [mt]. now rewrite Hc, Hp. Qed.

Lemma mt_opt_skip cs p prev s :
  no_more fl cs s -> mt fl (Opt cs :: p) prev s = mt fl p prev s.
Proof.
  destruct s as [|c s]; [reflexivity|]. simpl. now intros ->.
Qed.

(** A lazy run goes over a text at no position of which the rest of the
    pattern matches. *)
Lemma lazy_exact cs k skip s :
  all_in fl cs skip ->
  forall prev r,
    (forall a b, skip = a ++ b -> b <> [] -> k (lastp prev a) (b ++ s) = None) ->
    k (lastp prev skip) s = Some r ->
    lazy fl cs k prev (skip ++ s) = Some r.
Proof. apply lazy_select. Qed.

Lemma mt_lazy_exact cs p prev skip s r :
  all_in fl cs skip ->
  (forall a b, skip = a ++ b -> b <> [] -> mt fl p (lastp prev a) (b ++ s) = None) ->
  mt fl p (lastp prev skip) s = Some r ->
  mt fl (Lazy cs :: p) prev (skip ++ s) = Some r.
Proof. intros Hall Hfail Hp. cbn [mt]. now apply lazy_exact. Qed.

Lemma search_here p prev s r :
  mt fl p prev s = Some r -> search fl p prev s = Some r.
Proof. intros Hp. destruct s; simpl; now rewrite Hp. Qed.

(** A pattern that starts with a letter is found in no text without it. *)
Lemma search_without_first c p s :
  Forall (fun x => cmatch fl (Chr c) x = false) s ->
  forall prev, search fl (One (Chr c) :: p) prev s = None.
Proof.
  induction 1 as [|x s Hx _ IH]; intros prev; [reflexivity|].
  cbn [search mt]. rewrite Hx. apply IH.
Qed.
End Exact.

(** ** The three phrasings *)

Lemma mt_star_none fl cs p prev s :
  no_more fl cs s -> mt fl (Star cs :: p) prev s = mt fl p prev s.
Proof.
  destruct s as [|c s]; [reflexivity|]. simpl. now intros ->.
Qed.

Lemma no_more_app fl cs a b :
  no_more fl cs a -> (a = [] -> no_more fl cs b) -> no_more fl cs (a ++ b).
Proof. destruct a as [|c a]; [intros _ H; now apply H | intros H _; exact H]. Qed.

Lemma digit_not_space c : is_digit c = true -> is_space c = false.
Proof. each_char c; vm_compute; congruence. Qed.

Lemma digit_lower c : is_digit c = true -> lower c = c.
Proof. each_char c; vm_compute; congruence. Qed.

Lemma space_lower c : is_space c = true -> lower c = c.
Proof. each_char c; vm_compute; congruence. Qed.

Lemma number_no_space fl g s : number g -> no_more fl Space (g ++ s).
Proof.
  intros [Hne Hall]. destruct g as [|c g]; [congruence|].
  inversion Hall; subst. simpl. now apply digit_not_space.
Qed.

Lemma number_all_in fl g : number g -> all_in fl Digit g.
Proof. intros [_ Hall]. exact Hall. Qed.

Lemma lacks_cmatch c s :
  lacks (lower c) s -> Forall (fun x => cmatch I_S (Chr c) x = false) s.
Proof.
  unfold lacks. apply List.Forall_impl. intros x Hx. simpl.
  now apply bool_decide_eq_false.
Qed.

Lemma lacks_number c g :
  is_digit c = false -> lower c = c -> number g -> lacks c g.
Proof.
  intros Hc Hl [_ Hall]. unfold lacks.
  eapply List.Forall_impl; [|exact Hall].
  intros x Hx Heq. simpl in Hx. rewrite (digit_lower x Hx) in Heq. congruence.
Qed.

Lemma all_in_dot s : all_in I_S Dot s.
Proof. unfold all_in. apply List.Forall_forall. reflexivity. Qed.

(** The third phrasing at the head of a text: [Issued=], a number, any text
    without the letter u that does not go on with a digit, [Used=], a
    number. *)
Lemma issued_used_match prev g1 between g2 post :
  number g1 -> number g2 ->
  lacks "u" between -> no_more I_S Digit between -> no_more I_S Digit post ->
  mt I_S PAT_ISSUED_USED prev
    (lit "Issued=" ++ g1 ++ between ++ lit "Used=" ++ g2 ++ post)
  = Some [g1; g2].
Proof.
  intros H1 H2 Hu Hb Hp.
  change (lit "Issued=") with (lit "Issued" ++ lit "=").
  change (lit "Used=") with (lit "Used" ++ lit "=").
  unfold PAT_ISSUED_USED. rewrite <- !app_assoc. cbn [app].
  rewrite mt_word, mt_star_none by reflexivity.
  rewrite mt_word, mt_star_none by now apply number_no_space.
  apply mt_capture_exact;
    [apply H1 | now apply number_all_in | |].
  { apply no_more_app; [exact Hb | reflexivity]. }
  apply mt_lazy_exact; [apply all_in_dot | |].
  { intros a b -> Hne. destruct b as [|x b]; [congruence|].
    apply Forall_app in Hu as [_ Hu]. inversion Hu as [|? ? Hx _]; subst.
    apply mt_word_mismatch; [|discriminate].
    simpl. now apply bool_decide_eq_false. }
  rewrite mt_word, mt_star_none by reflexivity.
  rewrite mt_word, mt_star_none by now apply number_no_space.
  apply mt_capture_exact;
    [apply H2 | now apply number_all_in | exact Hp | reflexivity].
Qed.

(** The second phrasing at the head of a text: [Total licenses: ], a number,
    any text without the letter i that does not go on with a digit,
    [In use: ], a number. *)
Lemma total_in_use_match prev g1 between g2 post :
  number g1 -> number g2 ->
  lacks "i" between -> no_more I_S Digit between -> no_more I_S Digit post ->
  mt I_S PAT_TOTAL_INUSE prev
    (lit "Total licenses: " ++ g1 ++ between ++ lit "In use: " ++ g2 ++ post)
  = Some [g1; g2].
Proof.
  intros H1 H2 Hi Hb Hp.
  change (lit "Total licenses: ")
    with (lit "Total" ++ lit " " ++ lit "licenses" ++ lit ":" ++ lit " ").
  change (lit "In use: ")
    with (lit "In" ++ lit " " ++ lit "use" ++ lit ":" ++ lit " ").
  unfold PAT_TOTAL_INUSE. rewrite <- !app_assoc. cbn [app].
  rewrite mt_word.
  apply mt_plus_exact; [discriminate | repeat constructor | reflexivity |].
  rewrite mt_word, mt_star_none by reflexivity. rewrite mt_word.
  apply mt_star_exact;
    [repeat constructor | now apply number_no_space |].
  apply mt_capture_exact;
    [apply H1 | now apply number_all_in | |].
  { apply no_more_app; [exact Hb | reflexivity]. }
  apply mt_lazy_exact; [apply all_in_dot | |].
  { intros a b -> Hne. destruct b as [|x b]; [congruence|].
    apply Forall_app in Hi as [_ Hi]. inversion Hi as [|? ? Hx _]; subst.
    apply mt_word_mismatch; [|discriminate].
    simpl. now apply bool_decide_eq_false. }
  rewrite mt_word.
  apply mt_plus_exact; [discriminate | repeat constructor | reflexivity |].
  rewrite mt_word, mt_star_none by reflexivity. rewrite mt_word.
  apply mt_star_exact;
    [repeat constructor | now apply number_no_space |].
  apply mt_capture_exact;
    [apply H2 | now apply number_all_in | exact Hp | reflexivity].
Qed.

Lemma space_not_semicolon c : is_space c = true -> cmatch I_S (Chr ";") c = false.
Proof. each_char c; vm_compute; congruence. Qed.

(** The first phrasing at the head of a text: between [issued] and the
    second [Total] stand an optional semicolon and any run of whitespace. *)
Lemma flexlm_match prev g1 semi ws g2 post :
  number g1 -> number g2 ->
  semi = [] \/ semi = lit ";" -> blank ws ->
  mt I_S PAT_FLEXLM prev
    (lit "Total of " ++ g1 ++ lit " licenses issued" ++ semi ++ ws
     ++ lit "Total of " ++ g2 ++ lit " licenses in use" ++ post)
  = Some [g1; g2].
Proof.
  intros H1 H2 Hsemi Hws.
  change (lit "Total of ")
    with (lit "Total" ++ lit " " ++ lit "of" ++ lit " ").
  change (lit " licenses issued")
    with (lit " " ++ lit "licenses" ++ lit " " ++ lit "issued").
  change (lit " licenses in use")
    with (lit " " ++ lit "licenses" ++ lit " " ++ lit "in" ++ lit " " ++ lit "use").
  unfold PAT_FLEXLM. rewrite <- !app_assoc. cbn [app].
  rewrite mt_word.
  apply mt_plus_exact; [discriminate | repeat constructor | reflexivity |].
  rewrite mt_word.
  apply mt_plus_exact;
    [discriminate | repeat constructor | now apply number_no_space |].
  apply mt_capture_exact;
    [apply H1 | now apply number_all_in | reflexivity |].
  apply mt_plus_exact; [discriminate | repeat constructor | reflexivity |].
  rewrite mt_word.
  apply mt_plus_exact; [discriminate | repeat constructor | reflexivity |].
  rewrite mt_word.
  assert (Hgo : forall pv,
    mt I_S
      (Star Space :: word "Total" ++ Plus Space :: word "of"
         ++ Plus Space :: Capture Digit :: Plus Space :: word "licenses"
         ++ Plus Space :: word "in" ++ Plus Space :: word "use")
      pv
      (ws ++ lit "Total" ++ lit " " ++ lit "of" ++ lit " " ++ g2 ++ lit " "
       ++ lit "licenses" ++ lit " " ++ lit "in" ++ lit " " ++ lit "use" ++ post)
    = Some [g2]).
  { intros pv. apply mt_star_exact; [exact Hws | reflexivity |].
    rewrite mt_word.
    apply mt_plus_exact; [discriminate | repeat constructor | reflexivity |].
    rewrite mt_word.
    apply mt_plus_exact;
      [discriminate | repeat constructor | now apply number_no_space |].
    apply mt_capture_exact;
      [apply H2 | now apply number_all_in | reflexivity |].
    apply mt_plus_exact; [discriminate | repeat constructor | reflexivity |].
    rewrite mt_word.
    apply mt_plus_exact; [discriminate | repeat constructor | reflexivity |].
    rewrite mt_word.
    apply mt_plus_exact; [discriminate | repeat constructor | reflexivity |].
    rewrite <- (app_nil_r (word "use")), mt_word. reflexivity. }
  destruct Hsemi as [-> | ->].
  - cbn [app]. rewrite mt_opt_skip; [apply Hgo|].
    destruct Hws as [|c ws Hc _]; [reflexivity|].
    simpl. now apply space_not_semicolon.
  - apply mt_opt_take; [reflexivity | apply Hgo].
Qed.

(** ** What the first pattern demands between its halves *)

Lemma den_word_inv fl w :
  IGNORECASE fl = true ->
  forall p prev m rest gs,
    den fl (word w ++ p) prev m rest gs ->
    exists k m',
      m = k ++ m' /\ map lower k = map lower (lit w) /\
      den fl p (lastp prev k) m' rest gs.
Proof.
  intros Hi. unfold word. induction (lit w) as [|c l IH];
    intros p prev m rest gs Hd.
  - exists [], m. now repeat split.
  - cbn [map app] in Hd.
    inversion Hd as [|? ? ? x m0 ? ? Hx Hd0| | | | | | |]; subst.
    apply IH in Hd0 as (k & m' & -> & Hk & Hd').
    exists (x :: k), m'. repeat split; [|exact Hd'].
    cbn [map]. apply chr_ci in Hx; [|exact Hi]. now rewrite Hx, Hk.
Qed.

Lemma den_plus_inv fl cs p prev m rest gs :
  den fl (Plus cs :: p) prev m rest gs ->
  exists run m', m = run ++ m' /\ all_in fl cs run /\
                 den fl p (lastp prev run) m' rest gs.
Proof. inversion 1; subst; eauto. Qed.

Lemma den_star_inv fl cs p prev m rest gs :
  den fl (Star cs :: p) prev m rest gs ->
  exists run m', m = run ++ m' /\ all_in fl cs run /\
                 den fl p (lastp prev run) m' rest gs.
Proof. inversion 1; subst; eauto. Qed.

Lemma den_capture_inv fl cs p prev m rest gs :
  den fl (Capture cs :: p) prev m rest gs ->
  exists run m' gs', m = run ++ m' /\ gs = run :: gs' /\
                     den fl p (lastp prev run) m' rest gs'.
Proof. inversion 1; subst; eauto 7. Qed.

Lemma den_opt_inv fl cs p prev m rest gs :
  den fl (Opt cs :: p) prev m rest gs ->
  exists o m', m = o ++ m' /\
    (o = [] \/ exists c, o = [c] /\ cmatch fl cs c = true) /\
    den fl p (lastp prev o) m' rest gs.
Proof.
  inversion 1 as [| |? ? ? c m0 ? ? Hc Hd|? ? ? ? ? Hd| | | | |]; subst.
  - exists [c], m0. repeat split; eauto.
  - exists [], m. repeat split; auto.
Qed.

(** Whatever the first pattern matches, only an optional semicolon and
    whitespace stand between its [issued] and its second [Total]. *)
Lemma flexlm_separator prev m rest gs :
  den I_S PAT_FLEXLM prev m rest gs ->
  exists a k1 semi ws k2 b : str,
    m = a ++ k1 ++ semi ++ ws ++ k2 ++ b /\
    spells "issued" k1 /\ (semi = [] \/ semi = lit ";") /\ blank ws /\
    spells "total" k2.
Proof.
  unfold PAT_FLEXLM. cbn [app]. intros Hd.
  apply den_word_inv in Hd as (t1 & m1 & -> & _ & Hd); [|reflexivity].
  apply den_plus_inv in Hd as (w1 & m2 & -> & _ & Hd).
  apply den_word_inv in Hd as (o1 & m3 & -> & _ & Hd); [|reflexivity].
  apply den_plus_inv in Hd as (w2 & m4 & -> & _ & Hd).
  apply den_capture_inv in Hd as (g1 & m5 & gs' & -> & -> & Hd).
  apply den_plus_inv in Hd as (w3 & m6 & -> & _ & Hd).
  apply den_word_inv in Hd as (l1 & m7 & -> & _ & Hd); [|reflexivity].
  apply den_plus_inv in Hd as (w4 & m8 & -> & _ & Hd).
  apply den_word_inv in Hd as (k1 & m9 & -> & Hk1 & Hd); [|reflexivity].
  apply den_opt_inv in Hd as (semi & m10 & -> & Hsemi & Hd).
  apply den_star_inv in Hd as (ws & m11 & -> & Hws & Hd).
  apply den_word_inv in Hd as (k2 & b & -> & Hk2 & _); [|reflexivity].
  exists (t1 ++ w1 ++ o1 ++ w2 ++ g1 ++ w3 ++ l1 ++ w4), k1, semi, ws, k2, b.
  repeat split.
  - now rewrite <- !app_assoc.
  - exact Hk1.
  - destruct Hsemi as [->|(c & -> & Hc)]; [now left | right].
    apply chr_ci in Hc; [|reflexivity]. f_equal.
    revert Hc. clear. each_char c; vm_compute; congruence.
  - exact Hws.
  - exact Hk2.
Qed.

(** ** What parse_usage returns on them *)

Lemma parse_usage_flexlm_text g1 semi ws g2 post :
  number g1 -> number g2 ->
  semi = [] \/ semi = lit ";" -> blank ws ->
  parse_usage
    (lit "Total of " ++ g1 ++ lit " licenses issued" ++ semi ++ ws
     ++ lit "Total of " ++ g2 ++ lit " licenses in use" ++ post)
  = counts_of g1 g2.
Proof.
  intros H1 H2 Hsemi Hws. unfold parse_usage, COUNT_PATTERNS.
  cbn [first_match]. unfold re_search. cbn [pat_flags pat_items RE_FLEXLM].
  now rewrite (search_here _ _ _ _ _
                 (flexlm_match None g1 semi ws g2 post H1 H2 Hsemi Hws)).
Qed.

Lemma parse_usage_total_in_use_text g1 between g2 post :
  number g1 -> number g2 ->
  lacks "i" between -> no_more I_S Digit between -> no_more I_S Digit post ->
  ~ occurs RE_FLEXLM
      (lit "Total licenses: " ++ g1 ++ between ++ lit "In use: " ++ g2 ++ post) ->
  parse_usage
    (lit "Total licenses: " ++ g1 ++ between ++ lit "In use: " ++ g2 ++ post)
  = counts_of g1 g2.
Proof.
  intros H1 H2 Hi Hb Hp Hno. unfold parse_usage, COUNT_PATTERNS.
  cbn [first_match]. apply not_occurs_iff in Hno. rewrite Hno.
  unfold re_search. cbn [pat_flags pat_items RE_TOTAL_INUSE].
  now rewrite (search_here _ _ _ _ _
                 (total_in_use_match None g1 between g2 post H1 H2 Hi Hb Hp)).
Qed.

Lemma parse_usage_issued_used_text g1 between g2 post :
  number g1 -> number g2 ->
  lacks "u" between -> no_more I_S Digit between -> no_more I_S Digit post ->
  ~ occurs RE_FLEXLM
      (lit "Issued=" ++ g1 ++ between ++ lit "Used=" ++ g2 ++ post) ->
  ~ occurs RE_TOTAL_INUSE
      (lit "Issued=" ++ g1 ++ between ++ lit "Used=" ++ g2 ++ post) ->
  parse_usage (lit "Issued=" ++ g1 ++ between ++ lit "Used=" ++ g2 ++ post)
  = counts_of g1 g2.
Proof.
  intros H1 H2 Hu Hb Hp Hno1 Hno2. unfold parse_usage, COUNT_PATTERNS.
  cbn [first_match]. apply not_occurs_iff in Hno1, Hno2. rewrite Hno1, Hno2.
  unfold re_search. cbn [pat_flags pat_items RE_ISSUED_USED].
  now rewrite (search_here _ _ _ _ _
                 (issued_used_match None g1 between g2 post H1 H2 Hu Hb Hp)).
Qed.

(** A text without the letter t holds neither of the two patterns that start
    with [Total]. *)
Lemma lacks_t_no_total s :
  lacks "t" s -> ~ occurs RE_FLEXLM s /\ ~ occurs RE_TOTAL_INUSE s.
Proof.
  intros Ht. apply (lacks_cmatch "T") in Ht.
  split; apply not_occurs_iff; unfold re_search;
    now apply (search_without_first I_S "T").
Qed.

(** The two calls of [int] on the decimal texts of two counts: the counts
    when both texts are within the limit, a [ValueError] otherwise. *)
Lemma counts_of_printed N M :
  0 <= N -> 0 <= M ->
  (Z.of_nat (length (str_of_Z N)) <= int_max_str_digits ->
   Z.of_nat (length (str_of_Z M)) <= int_max_str_digits ->
   counts_of (str_of_Z N) (str_of_Z M) = Return (Some N, Some M)) /\
  (int_max_str_digits < Z.of_nat (length (str_of_Z N)) \/
   int_max_str_digits < Z.of_nat (length (str_of_Z M)) ->
   exists e,
     counts_of (str_of_Z N) (str_of_Z M) = Raise e /\
     exn_kind e = lit "ValueError").
Proof.
  intros HN HM. split.
  - intros H1 H2. rewrite counts_of_short by assumption.
    now rewrite !int_str_of_Z.
  - apply counts_of_long.
Qed.

(** The scenarios of the specification, for any two counts: the text the
    report prints for [N] and [M] is read back as [(N, M)]. *)
Lemma parse_usage_flexlm_numbers N M semi ws post :
  0 <= N -> 0 <= M -> semi = [] \/ semi = lit ";" -> blank ws ->
  parse_usage
    (lit "Total of " ++ str_of_Z N ++ lit " licenses issued" ++ semi ++ ws
     ++ lit "Total of " ++ str_of_Z M ++ lit " licenses in use" ++ post)
  = counts_of (str_of_Z N) (str_of_Z M).
Proof.
  intros HN HM Hsemi Hws.
  apply parse_usage_flexlm_text;
    [now apply number_str_of_Z | now apply number_str_of_Z | exact Hsemi
    | exact Hws].
Qed.

Lemma parse_usage_issued_used_numbers N M between :
  0 <= N -> 0 <= M ->
  lacks "t" between -> lacks "u" between -> no_more I_S Digit between ->
  parse_usage (lit "Issued=" ++ str_of_Z N ++ between ++ lit "Used=" ++ str_of_Z M)
  = counts_of (str_of_Z N) (str_of_Z M).
Proof.
  intros HN HM Ht Hu Hb.
  pose proof (number_str_of_Z N HN) as H1.
  pose proof (number_str_of_Z M HM) as H2.
  assert (Hlacks : lacks "t" (lit "Issued=" ++ str_of_Z N ++ between
                              ++ lit "Used=" ++ str_of_Z M ++ [])).
  { unfold lacks. repeat apply Forall_app_2;
      try (apply lacks_number; [reflexivity | reflexivity | assumption]);
      try exact Ht; repeat constructor; discriminate. }
  destruct (lacks_t_no_total _ Hlacks) as [Hno1 Hno2].
  pose proof (parse_usage_issued_used_text (str_of_Z N) between (str_of_Z M) []
                H1 H2 Hu Hb I Hno1 Hno2) as H.
  now rewrite app_nil_r in H.
Qed.

(** * run_ckout *)

Section Runner.
Context {W : Type} `{Host W}.

(** [run_ckout] builds the command, then spawns it inside the [try]. *)
Lemma run_ckout_unfold feature timeout w :
  run_ckout feature timeout w =
    match command_of (environ w) feature with
    | Raise e => (Raise e, w)
    | Return cmd =>
        match spawn cmd timeout w with
        | (Completed returncode out err, w') => (Return (returncode, out, err), w')
        | (Failed e, w') =>
            (Return (1, [], exn_kind e ++ lit ": " ++ exn_msg e), w')
        end
    end.
Proof.
  unfold run_ckout, command_of, bind, lift, ret.
  destruct (truthy _); [|reflexivity].
  destruct (contains _ _).
  - destruct (shlex_split _); reflexivity.
  - destruct (shlex_split _); reflexivity.
Qed.

(** Once the command is built nothing is raised: a failure of the spawn is
    turned into the exit code 1, an empty output and a non-empty error
    text made of the kind and the message of the exception. *)
Lemma run_ckout_built feature timeout w cmd :
  command_of (environ w) feature = Return cmd ->
  exists returncode out err w',
    run_ckout feature timeout w = (Return (returncode, out, err), w') /\
    forall e w1, spawn cmd timeout w = (Failed e, w1) ->
      returncode = 1 /\ out = [] /\
      err = exn_kind e ++ lit ": " ++ exn_msg e /\ err <> [] /\ w' = w1.
Proof.
  intros Hcmd. rewrite run_ckout_unfold, Hcmd.
  destruct (spawn cmd timeout w) as [[returncode out err|e] w'].
  - exists returncode, out, err, w'. split; [reflexivity|]. discriminate.
  - exists 1, [], (exn_kind e ++ lit ": " ++ exn_msg e), w'.
    split; [reflexivity|]. intros e' w1 [= <- <-].
    repeat split. destruct (exn_kind e); discriminate.
Qed.

(** Without an override in the environment the command is the default one
    and is always built. *)
Lemma command_of_default env feature :
  truthy (py_or (env !! "LICENSE_CHECK_CMD"%string)
                (env !! "LICENSE_CMD"%string)) = false ->
  command_of env feature = Return [lit "ckout_test"; lit "-f"; feature].
Proof. unfold command_of. now intros ->. Qed.

Lemma run_ckout_raises feature timeout w e w' :
  run_ckout feature timeout w = (Raise e, w') ->
  command_of (environ w) feature = Raise e /\ w' = w.
Proof.
  rewrite run_ckout_unfold.
  destruct (command_of (environ w) feature) as [cmd|e0].
  - destruct (spawn cmd timeout w) as [[? ? ?|?] ?]; discriminate.
  - now intros [= <- <-].
Qed.
End Runner.

(** * gather *)

(** [shlex.split] raises nothing but [ValueError]. *)
Lemma shlex_tokens_raises s :
  forall st token quoted e,
    shlex_tokens st token quoted s = Raise e -> exn_kind e = lit "ValueError".
Proof.
  induction s as [|c s IH]; intros st token quoted e; cbn [shlex_tokens].
  - destruct st; try (destruct (nonempty token || quoted)); try discriminate;
      now intros [= <-].
  - destruct st as [| |q|[q|]].
    + destruct (shlex_ws c).
      * destruct (nonempty token || quoted); [|apply IH].
        destruct (shlex_tokens InSpace [] false s) eqn:Hs; [discriminate|].
        intros [= <-]. now apply IH in Hs.
      * destruct (eqc c bsl); [apply IH|]. destruct (shlex_quote c); apply IH.
    + destruct (shlex_ws c).
      * destruct (nonempty token || quoted); [|apply IH].
        destruct (shlex_tokens InSpace [] false s) eqn:Hs; [discriminate|].
        intros [= <-]. now apply IH in Hs.
      * destruct (shlex_quote c); [apply IH|]. destruct (eqc c bsl); apply IH.
    + destruct (eqc c q); [apply IH|].
      destruct (eqc c bsl && eqc q dq); apply IH.
    + apply IH.
    + apply IH.
Qed.

Lemma command_of_raises env feat e :
  command_of env feat = Raise e -> exn_kind e = lit "ValueError".
Proof.
  unfold command_of, shlex_split. destruct (truthy _); [|discriminate].
  destruct (contains _ _).
  - apply shlex_tokens_raises.
  - destruct (shlex_tokens InSpace [] false _) eqn:Hs; [discriminate|].
    intros [= <-]. now apply shlex_tokens_raises in Hs.
Qed.

(** The counts [parse_usage] returns are not negative. *)
Lemma parse_usage_nonneg output t u :
  parse_usage output = Return (t, u) ->
  (forall z, t = Some z -> 0 <= z) /\ (forall z, u = Some z -> 0 <= z).
Proof.
  unfold parse_usage.
  destruct (first_match COUNT_PATTERNS output) as [gs|] eqn:Hf.
  - destruct (first_match_numbers _ _ Hf) as (g1 & g2 & -> & H1 & H2).
    cbn [group nth pred]. intros Hc.
    apply counts_of_returns in Hc as ([= -> ->] & _).
    split; intros ? [= <-]; now apply int_value_nonneg.
  - destruct (0 <? used_guess output) eqn:Hu; intros [= <- <-].
    + split; [discriminate|]. intros ? [= <-]. apply Z.ltb_lt in Hu. lia.
    + split; discriminate.
Qed.

(** [parse_usage] raises nothing but the [ValueError] of [int]. *)
Lemma parse_usage_raises output e :
  parse_usage output = Raise e -> exn_kind e = lit "ValueError".
Proof.
  unfold parse_usage.
  destruct (first_match COUNT_PATTERNS output) as [gs|].
  - intros Hc. now apply counts_of_raises in Hc.
  - destruct (0 <? used_guess output); discriminate.
Qed.

Lemma int_acc_bound g :
  Forall (fun c => is_digit c = true) g ->
  forall acc k, 0 <= k -> 0 <= acc < 10 ^ k ->
    fold_left (fun a c => 10 * a + digit_val c) g acc
    < 10 ^ (k + Z.of_nat (length g)).
Proof.
  induction 1 as [|c g Hc _ IH]; intros acc k Hk Hacc.
  - simpl. rewrite Z.add_0_r. lia.
  - cbn [fold_left length]. apply digit_val_range in Hc.
    replace (k + Z.of_nat (S (length g))) with ((k + 1) + Z.of_nat (length g))
      by lia.
    apply IH; [lia|]. rewrite Z.pow_add_r, Z.pow_1_r by lia. lia.
Qed.

(** A run of [n] digits is below [10 ^ n]. *)
Lemma int_value_bound g :
  number g -> int_value g < 10 ^ Z.of_nat (length g).
Proof.
  intros [_ Hall]. unfold int_value.
  apply (int_acc_bound g Hall 0 0); [lia|]. simpl. lia.
Qed.

(** The counts read by [int] are within the limit of [str]: the report, the
    table, the log and the JSON document print them. *)
Lemma parse_usage_within_limit output t u :
  parse_usage output = Return (Some t, Some u) ->
  0 <= t < 10 ^ int_max_str_digits /\ 0 <= u < 10 ^ int_max_str_digits.
Proof.
  unfold parse_usage.
  destruct (first_match COUNT_PATTERNS output) as [gs|] eqn:Hf.
  - destruct (first_match_numbers _ _ Hf) as (g1 & g2 & -> & H1 & H2).
    cbn [group nth pred]. intros Hc.
    apply counts_of_returns in Hc as ([= -> ->] & Hl1 & Hl2).
    pose proof (int_value_nonneg _ H1). pose proof (int_value_nonneg _ H2).
    pose proof (int_value_bound _ H1) as B1.
    pose proof (int_value_bound _ H2) as B2.
    assert (M1 : 10 ^ Z.of_nat (length g1) <= 10 ^ int_max_str_digits)
      by (apply Z.pow_le_mono_r; lia).
    assert (M2 : 10 ^ Z.of_nat (length g2) <= 10 ^ int_max_str_digits)
      by (apply Z.pow_le_mono_r; lia).
    lia.
  - destruct (0 <? used_guess output); discriminate.
Qed.

Section Gatherer.
Context {W : Type} `{Host W}.

(** The body of the loop: the command, then the parser, then the record. *)
Lemma poll_unfold stamp feat w :
  poll stamp feat w =
    match run_ckout feat 30 w with
    | (Raise e, w1) => (Raise e, w1)
    | (Return (returncode, out, err), w1) =>
        match parse_usage out with
        | Raise e => (Raise e, w1)
        | Return (total, used) =>
            (Return {| feature := feat; total := total; used := used;
                       unused := derive_unused total used;
                       timestamp := stamp; rc := returncode;
                       stderr := strip err; raw := strip out |}, w1)
        end
    end.
Proof.
  unfold poll, bind, lift, ret.
  destruct (run_ckout feat 30 w) as [[[[returncode out] err]|e] w1];
    [|reflexivity].
  destruct (parse_usage out) as [[t u]|e]; reflexivity.
Qed.

Lemma poll_returns stamp feat w r w' :
  poll stamp feat w = (Return r, w') -> polled stamp feat r.
Proof.
  rewrite poll_unfold.
  destruct (run_ckout feat 30 w) as [[[[returncode out] err]|e] w1];
    [|discriminate].
  destruct (parse_usage out) as [[t u]|e] eqn:Hp; [|discriminate].
  intros [= <- <-]. repeat split. exists out. now rewrite Hp.
Qed.

(** A poll raises what [shlex.split] raised while the command was built, or
    what [int] raised while the output was parsed: a [ValueError]. *)
Lemma poll_raises stamp feat w e w' :
  poll stamp feat w = (Raise e, w') ->
  exn_kind e = lit "ValueError" /\
  (command_of (environ w) feat = Raise e \/
   exists returncode out err,
     run_ckout feat 30 w = (Return (returncode, out, err), w') /\
     parse_usage out = Raise e).
Proof.
  rewrite poll_unfold.
  destruct (run_ckout feat 30 w) as [[[[returncode out] err]|e0] w1] eqn:Hr.
  - destruct (parse_usage out) as [[t u]|e0] eqn:Hp; [discriminate|].
    intros [= <- <-]. split; [now apply parse_usage_raises in Hp|].
    right. now exists returncode, out, err.
  - intros [= <- <-]. apply run_ckout_raises in Hr as [Hr _].
    split; [now apply command_of_raises in Hr | now left].
Qed.

Lemma poll_built stamp feat w cmd :
  command_of (environ w) feat = Return cmd ->
  (forall returncode out err w1,
     spawn cmd 30 w = (Completed returncode out err, w1) ->
     exists r, parse_usage out = Return r) ->
  exists r, poll stamp feat w = (Return r, snd (spawn cmd 30 w)).
Proof.
  intros Hcmd Hparse. rewrite poll_unfold, run_ckout_unfold, Hcmd.
  destruct (spawn cmd 30 w) as [[returncode out err|e] w1] eqn:Hs.
  - destruct (Hparse returncode out err w1 eq_refl) as [[t u] ->]. eauto.
  - change (parse_usage []) with (@Return (option Z * option Z) (None, None)).
    eauto.
Qed.

(** The loop appends one record per feature, in order, all with the stamp
    it was given. *)
Lemma gather_loop_returns stamp features :
  forall results w rs w',
    gather_loop stamp features results w = (Return rs, w') ->
    exists new,
      rs = results ++ new /\ Forall2 (polled stamp) features new.
Proof.
  induction features as [|feat rest IH]; intros results w rs w' Hg;
    simpl in Hg.
  - injection Hg as <- <-. exists []. now rewrite app_nil_r.
  - unfold bind in Hg.
    destruct (poll stamp feat w) as [[r|e] w1] eqn:Hp; [|discriminate].
    apply IH in Hg as (new & -> & Hnew).
    exists (r :: new). rewrite <- app_assoc. split; [reflexivity|].
    constructor; [|exact Hnew]. eapply poll_returns, Hp.
Qed.

Lemma gather_loop_raises stamp features :
  forall results w e w',
    gather_loop stamp features results w = (Raise e, w') ->
    exn_kind e = lit "ValueError".
Proof.
  induction features as [|feat rest IH]; intros results w e w' Hg;
    simpl in Hg; [discriminate|].
  unfold bind in Hg.
  destruct (poll stamp feat w) as [[r|e0] w1] eqn:Hp.
  - now apply IH in Hg.
  - injection Hg as <- <-. now apply poll_raises in Hp.
Qed.

(** The loop returns when, in the worlds the polls go through, every command
    can be built and every output of the tool can be parsed. *)
Lemma gather_loop_built (Inv : W -> Prop) stamp features :
  (forall w1 cmd t, Inv w1 -> Inv (snd (spawn cmd t w1))) ->
  (forall w1 feat, Inv w1 -> In feat features ->
     exists cmd, command_of (environ w1) feat = Return cmd) ->
  (forall w1 cmd t returncode out err w2,
     Inv w1 -> spawn cmd t w1 = (Completed returncode out err, w2) ->
     exists r, parse_usage out = Return r) ->
  forall results w,
    Inv w -> exists rs w', gather_loop stamp features results w = (Return rs, w').
Proof.
  intros Hstep Hcmd Hparse.
  induction features as [|feat rest IH]; intros results w Hw; simpl.
  - unfold ret. eauto.
  - destruct (Hcmd w feat Hw (or_introl eq_refl)) as [cmd Hc].
    destruct (poll_built stamp feat w cmd Hc) as (r & Hp).
    { intros returncode out err w1 Hs. now apply (Hparse w cmd 30 _ _ _ _ Hw Hs). }
    unfold bind. rewrite Hp. apply IH.
    + intros w1 f Hw1 Hin. apply Hcmd; [exact Hw1 | now right].
    + apply Hstep, Hw.
Qed.

Lemma gather_returns features w rs w' :
  gather features w = (Return rs, w') ->
  Forall2 (polled (now w)) features rs.
Proof.
  unfold gather. intros Hg.
  apply gather_loop_returns in Hg as (new & -> & Hnew). exact Hnew.
Qed.

(** [gather] raises nothing but [ValueError]. *)
Lemma gather_raises features w e w' :
  gather features w = (Raise e, w') -> exn_kind e = lit "ValueError".
Proof. unfold gather. apply gather_loop_raises. Qed.

(** Whenever, in the worlds the polls go through, every command can be built
    and every output of the tool can be parsed, [gather] returns one record
    per feature name, in the order of the names, all stamped with the time
    read before the loop. *)
Lemma gather_one_record_each (Inv : W -> Prop) features w :
  Inv w ->
  (forall w1 cmd t, Inv w1 -> Inv (snd (spawn cmd t w1))) ->
  (forall w1 feat, Inv w1 -> In feat features ->
     exists cmd, command_of (environ w1) feat = Return cmd) ->
  (forall w1 cmd t returncode out err w2,
     Inv w1 -> spawn cmd t w1 = (Completed returncode out err, w2) ->
     exists r, parse_usage out = Return r) ->
  exists rs w',
    gather features w = (Return rs, w') /\
    map feature rs = features /\
    Forall (fun r => timestamp r = now w) rs.
Proof.
  intros Hw Hstep Hcmd Hparse.
  destruct (gather_loop_built Inv (now w) features Hstep Hcmd Hparse [] w Hw)
    as (rs & w' & Hg).
  exists rs, w'. split; [exact Hg|].
  apply gather_returns in Hg. clear Hcmd.
  induction Hg as [|feat r features rs (Hf & Ht & _) _ [IH1 IH2]].
  - split; [reflexivity | constructor].
  - split; [simpl; congruence | now constructor].
Qed.

Lemma gather_record features w rs w' r :
  gather features w = (Return rs, w') -> In r rs ->
  exists feat, In feat features /\ polled (now w) feat r.
Proof.
  intros Hg Hin. apply gather_returns in Hg.
  induction Hg as [|feat r0 features rs Hp _ IH]; [destruct Hin|].
  destruct Hin as [->|Hin].
  - exists feat. split; [now left | exact Hp].
  - destruct (IH Hin) as (f & Hf & Hpf). exists f. split; [now right|exact Hpf].
Qed.
End Gatherer.

Example gather_flexlm :
  gather [lit "A"; lit "B"] flexlm_world
  = (Return [flexlm_record (lit "A"); flexlm_record (lit "B")], flexlm_world).
Proof. reflexivity. Qed.

(** The scenario of the specification: [A] times out, [B] is parsed. *)
Example gather_timeout_then_parsed :
  gather [lit "A"; lit "B"] slow_world
  = (Return
       [ {| feature := lit "A"; total := None; used := None; unused := None;
            timestamp := lit "2024-05-01 12:00:00"; rc := 1;
            stderr := lit "TimeoutExpired: Command '['ckout_test', '-f', 'A']' timed out after 30 seconds";
            raw := [] |};
         {| feature := lit "B"; total := Some 10; used := Some 10;
            unused := Some 0; timestamp := lit "2024-05-01 12:00:00"; rc := 0;
            stderr := []; raw := lit "Issued=10 ... Used=10" |} ],
     slow_world).
Proof. reflexivity. Qed.

(** C3: in every record [gather] returns, [unused] is the value derived from
    [total] and [used]: their difference when both are known, unknown when
    either is unknown. *)
Theorem gather_unused_derived (W : Type) (H : Host W) features w rs w' :
  gather features w = (Return rs, w') ->
  Forall (fun r =>
            unused r = derive_unused (total r) (used r) /\
            (forall t u, total r = Some t -> used r = Some u ->
                         unused r = Some (t - u)) /\
            (total r = None \/ used r = None -> unused r = None)) rs.
Proof.
  intros Hg. apply List.Forall_forall. intros r Hin.
  destruct (gather_record _ _ _ _ _ Hg Hin) as (feat & _ & _ & _ & Hu & _).
  split; [exact Hu|]. rewrite Hu. split.
  - now intros t u -> ->.
  - intros [->| ->]; [reflexivity|]. now destruct (total r).
Qed.

Lemma gather_unused_derived_witness :
  gather [lit "A"; lit "B"] flexlm_world
  = (Return [flexlm_record (lit "A"); flexlm_record (lit "B")], flexlm_world) /\
  Forall (fun r =>
            unused r = derive_unused (total r) (used r) /\
            (forall t u, total r = Some t -> used r = Some u ->
                         unused r = Some (t - u)) /\
            (total r = None \/ used r = None -> unused r = None))
    [flexlm_record (lit "A"); flexlm_record (lit "B")].
Proof.
  split; [reflexivity|].
  apply (gather_unused_derived Script script_host [lit "A"; lit "B"]
           flexlm_world _ flexlm_world).
  reflexivity.
Defined.

(** C8, as stated, fails: when the tool reports more seats in use than were
    issued, [unused] is negative. *)
Lemma gather_unused_negative :
  ~ (forall (W : Type) (H : Host W) features w rs w' r z,
        gather features w = (Return rs, w') -> In r rs ->
        unused r = Some z -> 0 <= z).
Proof.
  intros Hall.
  specialize (Hall Script script_host [lit "F"] over_reporting
    [{| feature := lit "F"; total := Some 5; used := Some 10;
        unused := Some (-5); timestamp := lit "2024-05-01 12:00:00";
        rc := 0; stderr := []; raw := lit "Issued=5 Used=10" |}]
    over_reporting _ (-5) eq_refl (or_introl eq_refl) eq_refl).
  lia.
Qed.

(** C8 (amended): in every record [gather] returns, [unused], when present,
    is the integer [total - used] of two known counts that are not negative;
    it is non-negative exactly when [used <= total] and negative when the
    feature is over-reported. *)
Theorem gather_unused_sign (W : Type) (H : Host W) features w rs w' r z :
  gather features w = (Return rs, w') -> In r rs ->
  unused r = Some z ->
  exists t u,
    total r = Some t /\ used r = Some u /\ 0 <= t /\ 0 <= u /\
    z = t - u /\ (0 <= z <-> u <= t).
Proof.
  intros Hg Hin Hz.
  destruct (gather_record _ _ _ _ _ Hg Hin)
    as (feat & _ & _ & _ & Hu & out & Hp & _).
  rewrite Hu in Hz.
  destruct (total r) as [t|] eqn:Ht; [|discriminate].
  destruct (used r) as [u|] eqn:Hus; [|discriminate].
  injection Hz as <-.
  destruct (parse_usage_nonneg _ _ _ Hp) as [Hn1 Hn2].
  pose proof (Hn1 t eq_refl). pose proof (Hn2 u eq_refl).
  exists t, u. repeat split; try reflexivity; auto; lia.
Qed.

Lemma gather_unused_sign_witness :
  exists t u,
    Some 5 = Some t /\ Some 10 = Some u /\ 0 <= t /\ 0 <= u /\
    -5 = t - u /\ (0 <= -5 <-> u <= t).
Proof.
  apply (gather_unused_sign Script script_host [lit "F"] over_reporting
    [{| feature := lit "F"; total := Some 5; used := Some 10;
        unused := Some (-5); timestamp := lit "2024-05-01 12:00:00";
        rc := 0; stderr := []; raw := lit "Issued=5 Used=10" |}]
    over_reporting
    {| feature := lit "F"; total := Some 5; used := Some 10;
       unused := Some (-5); timestamp := lit "2024-05-01 12:00:00";
       rc := 0; stderr := []; raw := lit "Issued=5 Used=10" |} (-5)).
  - reflexivity.
  - left. reflexivity.
  - reflexivity.
Defined.

(** * Failures of the command *)

Example run_ckout_missing_tool :
  run_ckout (lit "A") 30
    {| script_environ := ∅; script_now := []; script_tool := missing_tool |}
  = (Return (1, [], lit "FileNotFoundError: [Errno 2] No such file or directory: 'ckout_test'"),
     {| script_environ := ∅; script_now := []; script_tool := missing_tool |}).
Proof. reflexivity. Qed.

Example command_templated :
  command_of (script_environ (templated_world flexlm_tool)) (lit "Innovus")
  = Return [lit "ckout_test"; lit "-f"; lit "Innovus"].
Proof. reflexivity. Qed.

Example command_appended :
  command_of {[ "LICENSE_CMD"%string := lit "lmutil lmstat  -f" ]} (lit "a b")
  = Return [lit "lmutil"; lit "lmstat"; lit "-f"; lit "a b"].
Proof. reflexivity. Qed.

(** C5: with the command template of the docstring in the environment, a
    feature name that holds a double quote makes [shlex.split] raise before
    the [try] block is entered, and [run_ckout] raises [ValueError] to its
    caller, whatever the timeout and the tool. *)
Theorem run_ckout_quote_raises timeout tool :
  run_ckout (lit "A" ++ [dq]) timeout (templated_world tool)
  = (Raise (Exn (lit "ValueError") (lit "No closing quotation")),
     templated_world tool).
Proof. reflexivity. Qed.

(** C6: with the command template of the docstring in the environment and
    a feature name that holds a double quote among the features, [gather]
    returns no record at all: the [ValueError] of [run_ckout] leaves the
    loop, also for the features polled before it. *)
Theorem gather_quote_raises :
  gather [lit "A"; lit "B" ++ [dq]; lit "C"] (templated_world flexlm_tool)
  = (Raise (Exn (lit "ValueError") (lit "No closing quotation")),
     templated_world flexlm_tool).
Proof. reflexivity. Qed.

(** * Status of a row *)

(** C4: the status of a row depends on [total] and [used] alone, by the same
    cases in the report and in the console table: "Unknown parse" when either
    is unknown, else "OK" when [used < total], "Fully used" when they are
    equal and "Over-reported" when [used > total]; the report embeds it in
    the last cell of the row and the table prints it in the fifth column. *)
Theorem status_same_cases (r : UsageRecord) :
  let st := table_status (total r) (used r) in
  snd (html_status (total r) (used r)) = st /\
  display_row r !! 4%nat = Some st /\
  (exists cells,
     html_row r = cells ++ tpl "</td>
  <td class=`"
                  ++ fst (html_status (total r) (used r)) ++ tpl "`>" ++ st
                  ++ tpl "</td>
</tr>
") /\
  (total r = None \/ used r = None -> st = lit "Unknown parse") /\
  (forall t u, total r = Some t -> used r = Some u ->
     (u < t -> st = lit "OK") /\
     (u = t -> st = lit "Fully used") /\
     (t < u -> st = lit "Over-reported")).
Proof.
  cbv zeta. split; [|split; [|split; [|split]]].
  - unfold html_status, table_status.
    destruct (total r) as [t|], (used r) as [u|]; try reflexivity.
    destruct (u <? t); [reflexivity|]. now destruct (u =? t).
  - reflexivity.
  - unfold html_row.
    assert (Hs : snd (html_status (total r) (used r))
                 = table_status (total r) (used r)).
    { unfold html_status, table_status.
      destruct (total r) as [t|], (used r) as [u|]; try reflexivity.
      destruct (u <? t); [reflexivity|]. now destruct (u =? t). }
    rewrite <- Hs. destruct (html_status (total r) (used r)) as [cls text].
    eexists. cbn [fst snd]. rewrite !app_assoc. reflexivity.
  - unfold table_status. intros [-> | ->]; [reflexivity|].
    now destruct (total r).
  - intros t u -> ->. unfold table_status. repeat split; intros Hc.
    + apply Z.ltb_lt in Hc. now rewrite Hc.
    + subst u. now rewrite Z.ltb_irrefl, Z.eqb_refl.
    + assert (H1 : (u <? t) = false) by (apply Z.ltb_ge; lia).
      assert (H2 : (u =? t) = false) by (apply Z.eqb_neq; lia).
      now rewrite H1, H2.
Qed.

(** * Escaping in the report *)

Lemma eqc_true a b : eqc a b = true <-> a = b.
Proof. unfold eqc. apply bool_decide_eq_true. Qed.

Lemma eqc_false a b : eqc a b = false <-> a <> b.
Proof. unfold eqc. apply bool_decide_eq_false. Qed.

(** The cases of [escape_char]: one of the five entities, or the character
    itself, which is then neither special nor an ampersand. *)
Lemma escape_char_cases c :
  (c = "&"%char /\ escape_char c = lit "&amp;") \/
  (c = "<"%char /\ escape_char c = lit "&lt;") \/
  (c = ">"%char /\ escape_char c = lit "&gt;") \/
  (c = dq /\ escape_char c = lit "&quot;") \/
  (c = sq /\ escape_char c = lit "&#x27;") \/
  (special c = false /\ eqc c "&" = false /\ escape_char c = [c]).
Proof.
  unfold escape_char, special.
  destruct (eqc c "&") eqn:E1; [apply eqc_true in E1; auto|].
  destruct (eqc c "<") eqn:E2; [apply eqc_true in E2; auto|].
  destruct (eqc c ">") eqn:E3; [apply eqc_true in E3; auto 6|].
  destruct (eqc c dq) eqn:E4; [apply eqc_true in E4; auto 6|].
  destruct (eqc c sq) eqn:E5; [apply eqc_true in E5; auto 7|].
  auto 10.
Qed.

Lemma html_escape_cons c s :
  html_escape (c :: s) = escape_char c ++ html_escape s.
Proof. reflexivity. Qed.





Lemma string_of_uint_numeric d :
  Forall (fun c => numeric c = true) (lit (NilEmpty.string_of_uint d)).
Proof. induction d; simpl; constructor; auto. Qed.

Lemma str_of_Z_numeric z : Forall (fun c => numeric c = true) (str_of_Z z).
Proof.
  unfold str_of_Z, NilZero.string_of_int.
  destruct (Z.to_int z) as [d|d]; unfold NilZero.string_of_uint.
  - destruct d; try apply (string_of_uint_numeric (_ _)).
    repeat constructor.
  - change (Forall (fun c => numeric c = true)
              ("-"%char :: lit (match d with
                                | Nil => "0"%string
                                | _ => NilEmpty.string_of_uint d
                                end))).
    constructor; [reflexivity|].
    destruct d; try apply (string_of_uint_numeric (_ _)).
    repeat constructor.
Qed.






















Example render_script_feature :
  let doc := render_html
               [ {| feature := lit "<script>"; total := Some 4; used := Some 4;
                    unused := Some 0; timestamp := lit "2024-05-01 12:00:00";
                    rc := 0; stderr := []; raw := [] |} ]
               (lit "Usage & <more>") in
  contains (lit "<td>&lt;script&gt;</td>") doc = true /\
  contains (lit "<title>Usage &amp; &lt;more&gt;</title>") doc = true /\
  contains (tpl "<td class=`status-err`>Fully used</td>") doc = true.
Proof. repeat split; reflexivity. Qed.


(** * The CSV log *)

Lemma csv_field_number z : csv_field (str_of_Z z) = str_of_Z z.
Proof.
  unfold csv_field.
  assert (Hq : needs_quote (str_of_Z z) = false); [|now rewrite Hq].
  unfold needs_quote. apply not_true_is_false. intros Hex.
  apply existsb_exists in Hex as (c & Hin & Hc).
  pose proof (str_of_Z_numeric z) as Hnum.
  rewrite List.Forall_forall in Hnum. specialize (Hnum c Hin).
  revert Hnum Hc. clear. each_char c; vm_compute; congruence.
Qed.

Lemma csv_field_opt v : csv_field (cell_text (opt_cell v)) = opt_text v.
Proof. destruct v as [z|]; [apply csv_field_number | reflexivity]. Qed.

(** The line of a record: five fields, the counts empty when unknown. *)
Lemma csv_line_record r :
  csv_line (record_row r) =
    csv_field (timestamp r) ++ lit "," ++ csv_field (feature r) ++ lit ","
    ++ opt_text (used r) ++ lit "," ++ opt_text (unused r) ++ lit ","
    ++ opt_text (total r) ++ CRLF.
Proof.
  unfold csv_line, record_row. cbn [map join cell_text].
  rewrite !csv_field_opt. now rewrite <- !app_assoc.
Qed.

Lemma csv_line_header :
  csv_line header_row = lit "timestamp,feature,used,unused,total" ++ CRLF.
Proof. reflexivity. Qed.

(** A line of data is never the header line: it ends with a count or with an
    empty field. *)
Lemma csv_line_not_header r : csv_line (record_row r) <> csv_line header_row.
Proof.
  rewrite csv_line_record, csv_line_header. intros Heq.
  apply (f_equal (@rev ascii)) in Heq.
  rewrite !rev_app_distr in Heq. simpl in Heq.
  injection Heq as Heq.
  destruct (total r) as [z|]; simpl in Heq; [|discriminate Heq].
  pose proof (str_of_Z_numeric z) as Hnum.
  apply Forall_rev in Hnum.
  destruct (rev (str_of_Z z)) as [|c l]; simpl in Heq; [discriminate Heq|].
  injection Heq as -> _. inversion Hnum as [|? ? Hc _]. discriminate Hc.
Qed.

Section Log.
Context {P : Paths}.

Lemma append_csv_fresh path rows (fs : files) :
  fs !! file_of path = None ->
  append_csv path rows fs
  = <[file_of path := csv_line header_row
              ++ concat (map (fun r => csv_line (record_row r)) rows)]> fs.
Proof.
  intros Hnone. unfold append_csv, ensure_csv_header, exists_path.
  rewrite bool_decide_eq_false_2 by (rewrite Hnone; apply is_Some_None).
  cbv [negb]. cbv beta iota zeta. unfold append_file, write_file.
  rewrite lookup_insert_eq. cbn [default]. apply insert_insert_eq.
Qed.

(** On an existing log the rows are added after what is there. *)
Lemma append_csv_existing path rows (fs : files) (old : str) :
  fs !! file_of path = Some old ->
  append_csv path rows fs
  = <[file_of path := old ++ concat (map (fun r => csv_line (record_row r)) rows)]> fs.
Proof.
  intros Hold. unfold append_csv, ensure_csv_header, exists_path.
  assert (Hex : bool_decide (is_Some (fs !! file_of path)) = true).
  { apply bool_decide_eq_true_2. rewrite Hold. eauto. }
  rewrite Hex. cbv [negb]. cbv beta iota zeta. unfold append_file.
  unfold str in *. now rewrite Hold.
Qed.

(** The text of the log before the rows of a call: what the file holds, or
    the header line when there is no file. *)
Lemma append_csv_insert path rows (fs : files) :
  append_csv path rows fs
  = <[file_of path := log_base path fs
              ++ concat (map (fun r => csv_line (record_row r)) rows)]> fs.
Proof.
  unfold log_base. destruct (fs !! file_of path) as [old|] eqn:Hp.
  - now apply append_csv_existing.
  - now apply append_csv_fresh.
Qed.
End Log.

(** C7: on a path that names no file yet, [append_csv] writes the header
    line [timestamp,feature,used,unused,total] once and then one line per
    record in the order of the records, the unknown counts as empty fields;
    a second [append_csv] on the same path adds the lines of its records
    after the text that is there; no line of data is the header line, and no
    other file changes. *)
Theorem append_csv_log (P : Paths) (fs : files) path rows1 rows2 :
  fs !! file_of path = None ->
  let line := fun r => csv_line (record_row r) in
  let fs1 := append_csv path rows1 fs in
  let fs2 := append_csv path rows2 fs1 in
  csv_line header_row = lit "timestamp,feature,used,unused,total" ++ CRLF /\
  fs1 !! file_of path = Some (csv_line header_row ++ concat (map line rows1)) /\
  fs2 !! file_of path = Some ((csv_line header_row ++ concat (map line rows1))
                              ++ concat (map line rows2)) /\
  (forall r,
     line r = csv_field (timestamp r) ++ lit "," ++ csv_field (feature r)
              ++ lit "," ++ opt_text (used r) ++ lit "," ++ opt_text (unused r)
              ++ lit "," ++ opt_text (total r) ++ CRLF /\
     line r <> csv_line header_row) /\
  (forall other, other <> file_of path ->
     fs1 !! other = fs !! other /\ fs2 !! other = fs !! other).
Proof.
  intros Hnone line fs1 fs2.
  assert (H1 : fs1 !! file_of path
               = Some (csv_line header_row ++ concat (map line rows1))).
  { unfold fs1. rewrite (append_csv_fresh _ _ _ Hnone).
    apply lookup_insert_eq. }
  assert (E1 : fs1 = <[file_of path := csv_line header_row
                               ++ concat (map line rows1)]> fs).
  { unfold fs1. now apply append_csv_fresh. }
  assert (E2 : fs2 = <[file_of path
                         := (csv_line header_row ++ concat (map line rows1))
                            ++ concat (map line rows2)]> fs1).
  { unfold fs2. now apply append_csv_existing. }
  split; [reflexivity|]. split; [exact H1|]. split.
  { rewrite E2. apply lookup_insert_eq. }
  split.
  - intros r. split; [apply csv_line_record | apply csv_line_not_header].
  - intros other Hother.
    assert (Hf : fs1 !! other = fs !! other).
    { rewrite E1. now apply lookup_insert_ne. }
    split; [exact Hf|]. rewrite E2, lookup_insert_ne by congruence. exact Hf.
Qed.

Lemma append_csv_log_witness :
  let P := one_directory in
  let path := "license_usage.csv"%string in
  let rows1 := [flexlm_record (lit "A"); blank_record] in
  let rows2 := [flexlm_record (lit "B")] in
  let line := fun r => csv_line (record_row r) in
  let fs1 := append_csv path rows1 (∅ : files) in
  let fs2 := append_csv path rows2 fs1 in
  csv_line header_row = lit "timestamp,feature,used,unused,total" ++ CRLF /\
  fs1 !! file_of path = Some (csv_line header_row ++ concat (map line rows1)) /\
  fs2 !! file_of path = Some ((csv_line header_row ++ concat (map line rows1))
                              ++ concat (map line rows2)) /\
  (forall r,
     line r = csv_field (timestamp r) ++ lit "," ++ csv_field (feature r)
              ++ lit "," ++ opt_text (used r) ++ lit "," ++ opt_text (unused r)
              ++ lit "," ++ opt_text (total r) ++ CRLF /\
     line r <> csv_line header_row) /\
  (forall other, other <> file_of path ->
     fs1 !! other = (∅ : files) !! other /\ fs2 !! other = (∅ : files) !! other).
Proof.
  apply (append_csv_log one_directory ∅ "license_usage.csv"
           [flexlm_record (lit "A"); blank_record] [flexlm_record (lit "B")]).
  reflexivity.
Defined.

Example append_csv_text :
  append_csv (P := one_directory) "log.csv"
    [flexlm_record (lit "A,1"); blank_record] (∅ : files)
    !! "log.csv"%string
  = Some (tpl "timestamp,feature,used,unused,total" ++ CRLF
          ++ tpl "2024-05-01 12:00:00,`A,1`,5,20,25" ++ CRLF
          ++ tpl ",,,," ++ CRLF).
Proof. reflexivity. Qed.

(** Two path texts that name one file are one log. *)
Example append_csv_alias :
  append_csv (P := one_directory) "./log.csv" [blank_record]
    (append_csv (P := one_directory) "log.csv" [blank_record] (∅ : files))
  = append_csv (P := one_directory) "log.csv" [blank_record; blank_record]
      (∅ : files).
Proof. reflexivity. Qed.

(** * Further properties of the parser *)

Lemma first_match_is_some pats output pat :
  In pat pats -> occurs pat output -> is_Some (first_match pats output).
Proof.
  induction pats as [|p0 pats IH]; intros Hin Hocc; [destruct Hin|].
  simpl. destruct (re_search p0 output) as [gs|] eqn:H0; [eauto|].
  destruct Hin as [->|Hin]; [|now apply IH].
  apply re_search_complete in Hocc as [r Hr]. congruence.
Qed.

(** Every text of the language of a pattern holds each of its letters. *)
Lemma den_has_letter fl c p prev m rest gs :
  den fl p prev m rest gs -> In (One (Chr c)) p ->
  exists x, In x m /\ cmatch fl (Chr c) x = true.
Proof.
  induction 1 as [prev rest
                 |cs p prev x m rest gs Hc Hd IH
                 |cs p prev x m rest gs Hc Hd IH
                 |cs p prev m rest gs Hd IH
                 |cs p prev run m rest gs Hall Hd IH
                 |cs p prev run m rest gs Hne Hall Hd IH
                 |cs p prev run m rest gs Hall Hd IH
                 |cs p prev run m rest gs Hne Hall Hd IH
                 |p prev m rest gs Hb Hd IH]; intros Hin.
  - destruct Hin.
  - destruct Hin as [[= ->]|Hin].
    + exists x. split; [now left | exact Hc].
    + destruct (IH Hin) as (y & Hy & Hcy). exists y. split; [now right|exact Hcy].
  - destruct Hin as [[=]|Hin].
    destruct (IH Hin) as (y & Hy & Hcy). exists y. split; [now right|exact Hcy].
  - destruct Hin as [[=]|Hin]. now apply IH.
  - destruct Hin as [[=]|Hin].
    destruct (IH Hin) as (y & Hy & Hcy). exists y.
    split; [apply in_or_app; now right | exact Hcy].
  - destruct Hin as [[=]|Hin].
    destruct (IH Hin) as (y & Hy & Hcy). exists y.
    split; [apply in_or_app; now right | exact Hcy].
  - destruct Hin as [[=]|Hin].
    destruct (IH Hin) as (y & Hy & Hcy). exists y.
    split; [apply in_or_app; now right | exact Hcy].
  - destruct Hin as [[=]|Hin].
    destruct (IH Hin) as (y & Hy & Hcy). exists y.
    split; [apply in_or_app; now right | exact Hcy].
  - destruct Hin as [[=]|Hin]. now apply IH.
Qed.

Lemma occurs_has_letter c pat s :
  IGNORECASE (pat_flags pat) = true ->
  In (One (Chr c)) (pat_items pat) ->
  occurs pat s -> exists x, In x s /\ lower x = lower c.
Proof.
  intros Hi Hin (pre & gs & m & rest & -> & Hd).
  destruct (den_has_letter _ c _ _ _ _ _ Hd Hin) as (x & Hx & Hc).
  exists x. split.
  - apply in_or_app. right. apply in_or_app. now left.
  - now apply chr_ci in Hc.
Qed.

Lemma lacks_no_occurrence c pat s :
  IGNORECASE (pat_flags pat) = true ->
  In (One (Chr c)) (pat_items pat) ->
  lacks (lower c) s -> ~ occurs pat s.
Proof.
  intros Hi Hin Hl Hocc.
  destruct (occurs_has_letter c pat s Hi Hin Hocc) as (x & Hx & Hc).
  unfold lacks in Hl. rewrite List.Forall_forall in Hl. now apply (Hl x).
Qed.

Ltac find_item := cbv; repeat (first [left; reflexivity | right]).

Lemma lacks_u_no_pattern s :
  lacks "u" s ->
  (forall pat, In pat COUNT_PATTERNS -> ~ occurs pat s) /\ ~ occurs IN_USE s.
Proof.
  intros Hl. split.
  - intros pat [<-|[<-|[<-|[]]]];
      apply (lacks_no_occurrence "u"); try reflexivity; try exact Hl; find_item.
  - apply (lacks_no_occurrence "u"); try reflexivity; try exact Hl; find_item.
Qed.

Lemma lacks_strip c l : lacks c l -> lacks c (strip l).
Proof.
  intros Hl. destruct (strip_split l) as (ws1 & ws2 & Heq & _).
  unfold lacks in *. rewrite Heq in Hl.
  apply Forall_app in Hl as [_ Hl]. now apply Forall_app in Hl as [Hl _].
Qed.

Lemma lacks_splitlines c s :
  forall after cur,
    lacks c cur -> lacks c s -> Forall (lacks c) (splitlines_from after cur s).
Proof.
  induction s as [|x s IH]; intros after cur Hcur Hs; simpl.
  - destruct cur; [constructor | constructor; [exact Hcur | constructor]].
  - inversion Hs as [|? ? Hx Hs']; subst.
    destruct (after && (code x =? 10)%N); [now apply IH|].
    destruct (is_linebreak x).
    + constructor; [exact Hcur|]. apply IH; [constructor | exact Hs'].
    + apply IH; [|exact Hs']. unfold lacks. apply Forall_app. split;
        [exact Hcur | now constructor].
Qed.

Lemma used_guess_lacks_u s : lacks "u" s -> used_guess s = 0.
Proof.
  intros Hl. unfold used_guess.
  assert (Hlines : Forall (lacks "u") (splitlines s)).
  { apply lacks_splitlines; [constructor | exact Hl]. }
  induction Hlines as [|l ls Hl0 _ IH]; [reflexivity|].
  cbn [map List.filter].
  destruct (in_use_line (strip l)) eqn:Hin; [|exact IH].
  exfalso. apply occurs_iff in Hin.
  now apply (proj2 (lacks_u_no_pattern (strip l) (lacks_strip _ _ Hl0))).
Qed.

(** X1: the counts [parse_usage] returns are never negative, and a count
    that comes from the fallback (no total with it) is at least 1. *)
Theorem parse_usage_counts output :
  (forall t u, parse_usage output = Return (Some t, u) -> 0 <= t) /\
  (forall t u, parse_usage output = Return (t, Some u) -> 0 <= u) /\
  (forall u, parse_usage output = Return (None, Some u) -> 1 <= u).
Proof.
  split; [|split].
  - intros t u Hp. now apply (proj1 (parse_usage_nonneg _ _ _ Hp) t).
  - intros t u Hp. now apply (proj2 (parse_usage_nonneg _ _ _ Hp) u).
  - unfold parse_usage.
    destruct (first_match COUNT_PATTERNS output) as [gs|].
    + intros u Hc. now apply counts_of_returns in Hc as ([=] & _).
    + destruct (0 <? used_guess output) eqn:Hg; [|discriminate].
      intros u [= <-]. apply Z.ltb_lt in Hg. lia.
Qed.

(** X2: one of the three patterns occurs somewhere in the text exactly when
    [parse_usage] returns a known total, with a known used, or raises the
    [ValueError] of [int]; otherwise only the fallback can answer, and the
    total is unknown. *)
Theorem parse_usage_total_known output :
  (exists pat, In pat COUNT_PATTERNS /\ occurs pat output) <->
  (exists t u, parse_usage output = Return (Some t, Some u)) \/
  (exists e, parse_usage output = Raise e /\ exn_kind e = lit "ValueError").
Proof.
  unfold parse_usage. split.
  - intros (pat & Hin & Hocc).
    destruct (first_match_is_some _ _ _ Hin Hocc) as [gs ->].
    destruct (counts_of (group 1 gs) (group 2 gs)) as [r|e] eqn:Hc.
    + apply counts_of_returns in Hc as (-> & _). left. eauto.
    + apply counts_of_raises in Hc as [Hk _]. right. eauto.
  - destruct (first_match COUNT_PATTERNS output) as [gs|] eqn:Hf.
    + intros _. apply first_match_some in Hf as (pat & Hin & Hs).
      exists pat. split; [exact Hin|]. apply occurs_iff. unfold in_text.
      now rewrite Hs.
    + destruct (0 <? used_guess output);
        intros [(t & u & Hx)|(e & Hx & _)]; discriminate.
Qed.

(** X3: a text without the letter u, in either case, is never parsed: both
    counts are unknown (the empty output of a failed command is one). *)
Theorem parse_usage_without_u output :
  lacks "u" output -> parse_usage output = Return (None, None).
Proof.
  intros Hl. unfold parse_usage.
  rewrite (first_match_none _ _ (proj1 (lacks_u_no_pattern _ Hl))).
  now rewrite (used_guess_lacks_u _ Hl).
Qed.

Lemma parse_usage_without_u_witness :
  lacks "u" (lit "lmstat: cannot connect to license server
") /\
  parse_usage (lit "lmstat: cannot connect to license server
") = Return (None, None).
Proof.
  assert (H : lacks "u" (lit "lmstat: cannot connect to license server
")).
  { unfold lacks. repeat constructor; discriminate. }
  split; [exact H | exact (parse_usage_without_u _ H)].
Defined.

(** X4: stripping the lines before the fallback test changes nothing: a line
    holds the phrase exactly when the stripped line does. *)
Theorem in_use_line_strip l : in_use_line (strip l) = in_use_line l.
Proof.
  destruct (in_use_line l) eqn:Hl.
  - apply in_use_line_iff, in_use_phrase_strip, in_use_line_iff. exact Hl.
  - destruct (in_use_line (strip l)) eqn:Hs; [|reflexivity].
    apply (proj1 (in_use_line_iff _)) in Hs.
    apply (proj1 (in_use_phrase_strip _)) in Hs.
    apply (proj2 (in_use_line_iff _)) in Hs. congruence.
Qed.

(** X5: whatever text the first pattern finds, between its [issued] and its
    second [Total] there is only an optional semicolon and whitespace. *)
Theorem flexlm_found_separator s gs :
  re_search RE_FLEXLM s = Some gs ->
  exists pre a k1 semi ws k2 b post : str,
    s = pre ++ (a ++ k1 ++ semi ++ ws ++ k2 ++ b) ++ post /\
    spells "issued" k1 /\ (semi = [] \/ semi = lit ";") /\ blank ws /\
    spells "total" k2.
Proof.
  intros Hs. apply re_search_sound in Hs as (pre & (m & rest & -> & Hd) & _).
  destruct (flexlm_separator _ _ _ _ Hd)
    as (a & k1 & semi & ws & k2 & b & -> & H1 & H2 & H3 & H4).
  exists pre, a, k1, semi, ws, k2, b, rest. auto.
Qed.

Lemma flexlm_found_separator_witness :
  exists pre a k1 semi ws k2 b post : str,
    lit "Users: (Total of 25 licenses issued;
  Total of 5 licenses in use)"
    = pre ++ (a ++ k1 ++ semi ++ ws ++ k2 ++ b) ++ post /\
    spells "issued" k1 /\ (semi = [] \/ semi = lit ";") /\ blank ws /\
    spells "total" k2.
Proof.
  apply (flexlm_found_separator _ [lit "25"; lit "5"]). reflexivity.
Defined.

(** X6: the first phrasing is read back for any two counts printed with at
    most 4300 digits each: with an optional semicolon and any whitespace
    between its halves, and whatever follows, [parse_usage] returns the two
    counts that were printed.  When one of them is printed with more digits,
    [parse_usage] raises [ValueError]. *)
Theorem parse_usage_reads_flexlm N M semi ws post :
  0 <= N -> 0 <= M -> semi = [] \/ semi = lit ";" -> blank ws ->
  let output :=
    lit "Total of " ++ str_of_Z N ++ lit " licenses issued" ++ semi ++ ws
    ++ lit "Total of " ++ str_of_Z M ++ lit " licenses in use" ++ post in
  (Z.of_nat (length (str_of_Z N)) <= int_max_str_digits ->
   Z.of_nat (length (str_of_Z M)) <= int_max_str_digits ->
   parse_usage output = Return (Some N, Some M)) /\
  (int_max_str_digits < Z.of_nat (length (str_of_Z N)) \/
   int_max_str_digits < Z.of_nat (length (str_of_Z M)) ->
   exists e, parse_usage output = Raise e /\ exn_kind e = lit "ValueError").
Proof.
  intros HN HM Hsemi Hws output. unfold output.
  rewrite (parse_usage_flexlm_numbers N M semi ws post HN HM Hsemi Hws).
  now apply counts_of_printed.
Qed.

Lemma parse_usage_reads_flexlm_witness :
  let output :=
    lit "Total of " ++ str_of_Z 25 ++ lit " licenses issued" ++ lit ";"
    ++ lit "
  " ++ lit "Total of " ++ str_of_Z 5 ++ lit " licenses in use" ++ lit ")" in
  (Z.of_nat (length (str_of_Z 25)) <= int_max_str_digits ->
   Z.of_nat (length (str_of_Z 5)) <= int_max_str_digits ->
   parse_usage output = Return (Some 25, Some 5)) /\
  (int_max_str_digits < Z.of_nat (length (str_of_Z 25)) \/
   int_max_str_digits < Z.of_nat (length (str_of_Z 5)) ->
   exists e, parse_usage output = Raise e /\ exn_kind e = lit "ValueError").
Proof.
  apply (parse_usage_reads_flexlm 25 5 (lit ";") (lit "
  ") (lit ")")); [lia | lia | now right | repeat constructor].
Defined.

(** X7: the third phrasing is read back for any two counts printed with at
    most 4300 digits each and any text between them, line breaks included,
    that holds neither the letter t nor the letter u and does not begin with
    a digit.  When one of the counts is printed with more digits,
    [parse_usage] raises [ValueError]. *)
Theorem parse_usage_reads_issued_used N M between :
  0 <= N -> 0 <= M ->
  lacks "t" between -> lacks "u" between -> no_more I_S Digit between ->
  let output :=
    lit "Issued=" ++ str_of_Z N ++ between ++ lit "Used=" ++ str_of_Z M in
  (Z.of_nat (length (str_of_Z N)) <= int_max_str_digits ->
   Z.of_nat (length (str_of_Z M)) <= int_max_str_digits ->
   parse_usage output = Return (Some N, Some M)) /\
  (int_max_str_digits < Z.of_nat (length (str_of_Z N)) \/
   int_max_str_digits < Z.of_nat (length (str_of_Z M)) ->
   exists e, parse_usage output = Raise e /\ exn_kind e = lit "ValueError").
Proof.
  intros HN HM Ht Hu Hb output. unfold output.
  rewrite (parse_usage_issued_used_numbers N M between HN HM Ht Hu Hb).
  now apply counts_of_printed.
Qed.

Lemma parse_usage_reads_issued_used_witness :
  let output :=
    lit "Issued=" ++ str_of_Z 10 ++ lit " (pool A)
 ... " ++ lit "Used=" ++ str_of_Z 10 in
  (Z.of_nat (length (str_of_Z 10)) <= int_max_str_digits ->
   Z.of_nat (length (str_of_Z 10)) <= int_max_str_digits ->
   parse_usage output = Return (Some 10, Some 10)) /\
  (int_max_str_digits < Z.of_nat (length (str_of_Z 10)) \/
   int_max_str_digits < Z.of_nat (length (str_of_Z 10)) ->
   exists e, parse_usage output = Raise e /\ exn_kind e = lit "ValueError").
Proof.
  apply (parse_usage_reads_issued_used 10 10 (lit " (pool A)
 ... ")); try lia.
  - unfold lacks. repeat constructor; discriminate.
  - unfold lacks. repeat constructor; discriminate.
  - reflexivity.
Defined.

(** The text of the limit: a count of 4301 digits is found by the third
    pattern and refused by [int]. *)
Example parse_usage_long_count :
  exists e,
    parse_usage (lit "Issued=" ++ repeat "9"%char 4301 ++ lit " Used=1")
    = Raise e /\
    exn_kind e = lit "ValueError" /\
    exn_msg e = lit "Exceeds the limit (4300 digits) for integer string conversion: value has 4301 digits; use sys.set_int_max_str_digits() to increase the limit".
Proof. eexists. split; [vm_compute; reflexivity | split; reflexivity]. Qed.

(** * Further properties of the runner and of the gatherer *)

(** The characters [shlex] takes as they are. *)
Lemma shlex_plain_word f :
  Forall (fun c => plain_char c = true) f ->
  forall token,
    nonempty token = true ->
    shlex_tokens InWord token false f = Return [token ++ f].
Proof.
  induction 1 as [|c f Hc _ IH]; intros token Hne.
  - simpl. rewrite Hne, app_nil_r. reflexivity.
  - unfold plain_char in Hc.
    apply andb_true_iff in Hc as [Hc Hb]. apply andb_true_iff in Hc as [Hw Hq].
    apply negb_true_iff in Hw, Hq, Hb.
    cbn [shlex_tokens]. rewrite Hw, Hq, Hb.
    rewrite IH by (now destruct token). now rewrite <- app_assoc.
Qed.

Lemma shlex_plain_then_space f :
  Forall (fun c => plain_char c = true) f ->
  forall token rest,
    nonempty token = true ->
    shlex_tokens InWord token false (f ++ " "%char :: rest)
    = match shlex_tokens InSpace [] false rest with
      | Return l => Return ((token ++ f) :: l)
      | Raise e => Raise e
      end.
Proof.
  induction 1 as [|c f Hc _ IH]; intros token rest Hne.
  - cbn [app shlex_tokens]. change (shlex_ws " ") with true. cbv iota.
    rewrite Hne, app_nil_r. reflexivity.
  - unfold plain_char in Hc.
    apply andb_true_iff in Hc as [Hc Hb]. apply andb_true_iff in Hc as [Hw Hq].
    apply negb_true_iff in Hw, Hq, Hb.
    cbn [app shlex_tokens]. rewrite Hw, Hq, Hb.
    rewrite IH by (now destruct token). now rewrite <- app_assoc.
Qed.

(** X8: with no command in the environment (both variables unset or empty),
    [run_ckout] never raises: it spawns [ckout_test -f <feature>] with the
    timeout and returns what the tool gave, or, when the spawn fails, the
    code 1, an empty output and the non-empty text "Kind: message". *)
Theorem run_ckout_default (W : Type) (H : Host W) feat timeout w :
  truthy (py_or (environ w !! "LICENSE_CHECK_CMD"%string)
                (environ w !! "LICENSE_CMD"%string)) = false ->
  exists returncode out err w',
    run_ckout feat timeout w = (Return (returncode, out, err), w') /\
    (forall rc0 out0 err0 w0,
       spawn [lit "ckout_test"; lit "-f"; feat] timeout w
       = (Completed rc0 out0 err0, w0) ->
       (returncode, out, err, w') = (rc0, out0, err0, w0)) /\
    (forall e w0,
       spawn [lit "ckout_test"; lit "-f"; feat] timeout w = (Failed e, w0) ->
       returncode = 1 /\ out = [] /\
       err = exn_kind e ++ lit ": " ++ exn_msg e /\ err <> [] /\ w' = w0).
Proof.
  intros Henv. rewrite run_ckout_unfold, (command_of_default _ feat Henv).
  destruct (spawn [lit "ckout_test"; lit "-f"; feat] timeout w)
    as [[rc0 out0 err0|e] w0].
  - exists rc0, out0, err0, w0. split; [reflexivity|]. split.
    + now intros ? ? ? ? [= <- <- <- <-].
    + discriminate.
  - exists 1, [], (exn_kind e ++ lit ": " ++ exn_msg e), w0.
    split; [reflexivity|]. split; [discriminate|].
    intros e' w1 [= <- <-]. repeat split. destruct (exn_kind e); discriminate.
Qed.

Lemma run_ckout_default_witness :
  exists returncode out err w',
    run_ckout (lit "A") 30 slow_world = (Return (returncode, out, err), w') /\
    (forall rc0 out0 err0 w0,
       spawn [lit "ckout_test"; lit "-f"; lit "A"] 30 slow_world
       = (Completed rc0 out0 err0, w0) ->
       (returncode, out, err, w') = (rc0, out0, err0, w0)) /\
    (forall e w0,
       spawn [lit "ckout_test"; lit "-f"; lit "A"] 30 slow_world = (Failed e, w0) ->
       returncode = 1 /\ out = [] /\
       err = exn_kind e ++ lit ": " ++ exn_msg e /\ err <> [] /\ w' = w0).
Proof.
  apply (run_ckout_default Script script_host (lit "A") 30 slow_world).
  reflexivity.
Defined.

(** X9: a non-empty [LICENSE_CHECK_CMD] wins: whatever [LICENSE_CMD] holds,
    or whether it is set at all, the command is the same. *)
Theorem license_check_cmd_first (env : gmap string str) c cs other feat :
  env !! "LICENSE_CHECK_CMD"%string = Some (c :: cs) ->
  command_of (<["LICENSE_CMD"%string := other]> env) feat = command_of env feat /\
  command_of (delete "LICENSE_CMD"%string env) feat = command_of env feat.
Proof.
  intros Hc. unfold command_of, str in *.
  rewrite lookup_insert_ne by discriminate.
  rewrite lookup_delete_ne by discriminate.
  rewrite Hc. split; reflexivity.
Qed.

Lemma license_check_cmd_first_witness :
  command_of (<["LICENSE_CMD"%string := lit "other -x"]>
                {[ "LICENSE_CHECK_CMD"%string := lit "lmutil lmstat -f" ]})
             (lit "A")
  = command_of {[ "LICENSE_CHECK_CMD"%string := lit "lmutil lmstat -f" ]} (lit "A")
  /\
  command_of (delete "LICENSE_CMD"%string
                {[ "LICENSE_CHECK_CMD"%string := lit "lmutil lmstat -f" ]})
             (lit "A")
  = command_of {[ "LICENSE_CHECK_CMD"%string := lit "lmutil lmstat -f" ]} (lit "A").
Proof.
  apply (license_check_cmd_first _ "l"%char (lit "mutil lmstat -f")).
  reflexivity.
Defined.

(** X10: a command without the placeholder is split once and the feature name
    is appended as one last argument, whatever characters it holds: spaces
    and quotes in the name neither split it nor raise. *)
Theorem command_appends_feature (env : gmap string str) tmpl args :
  py_or (env !! "LICENSE_CHECK_CMD"%string) (env !! "LICENSE_CMD"%string)
  = Some tmpl ->
  tmpl <> [] ->
  contains (lit "{feature}") tmpl = false ->
  shlex_split tmpl = Return args ->
  forall feat, command_of env feat = Return (args ++ [feat]).
Proof.
  intros Henv Hne Hc Hs feat. unfold command_of. rewrite Henv.
  destruct tmpl as [|c tmpl]; [congruence|]. cbn [truthy default].
  cbv [id]. now rewrite Hc, Hs.
Qed.

Lemma command_appends_feature_witness :
  command_of {[ "LICENSE_CMD"%string := lit "lmutil lmstat -f" ]}
    (dq :: lit "Bob's feature")
  = Return ([lit "lmutil"; lit "lmstat"; lit "-f"]
            ++ [dq :: lit "Bob's feature"]).
Proof.
  apply (command_appends_feature _ (lit "lmutil lmstat -f"));
    [reflexivity | discriminate | reflexivity | reflexivity].
Defined.

(** X11: the command template of the docstring, [ckout_test -f {feature}],
    gives the default command for every feature name made of characters
    [shlex] takes as they are (no whitespace, quote or backslash). *)
Theorem docstring_template_plain feat :
  feat <> [] -> Forall (fun c => plain_char c = true) feat ->
  command_of {[ "LICENSE_CHECK_CMD"%string := lit "ckout_test -f {feature}" ]} feat
  = Return [lit "ckout_test"; lit "-f"; feat].
Proof.
  intros Hne Hplain. unfold command_of. rewrite lookup_singleton_eq.
  set (tmpl := lit "ckout_test -f {feature}").
  assert (Hp : forall o, py_or (Some tmpl) o = Some tmpl) by reflexivity.
  assert (Ht : truthy (Some tmpl) = true) by reflexivity.
  assert (Hc : contains (lit "{feature}") tmpl = true) by reflexivity.
  assert (Hr : replace (lit "{feature}") feat tmpl = lit "ckout_test -f " ++ feat).
  { rewrite <- (app_nil_r feat) at 2. vm_compute. reflexivity. }
  rewrite Hp, Ht. cbn [default from_option]. cbv [id]. rewrite Hc, Hr.
  destruct feat as [|c feat]; [congruence|].
  inversion Hplain as [|? ? Hc0 Hrest]; subst.
  pose proof Hc0 as Hc'. unfold plain_char in Hc'.
  apply andb_true_iff in Hc' as [Hc' Hb]. apply andb_true_iff in Hc' as [Hw Hq].
  apply negb_true_iff in Hw, Hq, Hb.
  assert (Hgo : forall rest,
            shlex_split (lit "ckout_test -f " ++ rest)
            = match shlex_tokens InSpace [] false rest with
              | Return l => Return (lit "ckout_test" :: lit "-f" :: l)
              | Raise e => Raise e
              end).
  { intros rest. unfold shlex_split.
    change (lit "ckout_test -f " ++ rest)
      with ("c"%char :: lit "kout_test" ++ " "%char
            :: "-"%char :: lit "f" ++ " "%char :: rest).
    change (shlex_tokens InSpace [] false
              ("c"%char :: lit "kout_test" ++ " "%char
               :: "-"%char :: lit "f" ++ " "%char :: rest))
      with (shlex_tokens InWord (lit "c") false
              (lit "kout_test" ++ " "%char
               :: "-"%char :: lit "f" ++ " "%char :: rest)).
    rewrite shlex_plain_then_space by (repeat constructor).
    change (shlex_tokens InSpace [] false ("-"%char :: lit "f" ++ " "%char :: rest))
      with (shlex_tokens InWord (lit "-") false (lit "f" ++ " "%char :: rest)).
    rewrite shlex_plain_then_space by (repeat constructor).
    now destruct (shlex_tokens InSpace [] false rest). }
  rewrite Hgo. cbn [shlex_tokens]. rewrite Hw, Hb, Hq.
  rewrite (shlex_plain_word feat Hrest [c] eq_refl). reflexivity.
Qed.

Lemma docstring_template_plain_witness :
  command_of {[ "LICENSE_CHECK_CMD"%string := lit "ckout_test -f {feature}" ]}
             (lit "Innovus_Impl_System")
  = Return [lit "ckout_test"; lit "-f"; lit "Innovus_Impl_System"].
Proof.
  apply docstring_template_plain; [discriminate | repeat constructor].
Defined.

(** X12: [gather] returns one record per name, in the order of the names,
    duplicates included, all stamped with the time read before the first
    poll, whenever the worlds the polls go through (a set [Inv] that holds
    the first world and that no spawn leaves) are worlds in which the command
    of every feature can be built and every output of the tool can be
    parsed. *)
Theorem gather_record_per_name (W : Type) (H : Host W) (Inv : W -> Prop)
    features w :
  Inv w ->
  (forall w1 cmd t, Inv w1 -> Inv (snd (spawn cmd t w1))) ->
  (forall w1 feat, Inv w1 -> In feat features ->
     exists cmd, command_of (environ w1) feat = Return cmd) ->
  (forall w1 cmd t returncode out err w2,
     Inv w1 -> spawn cmd t w1 = (Completed returncode out err, w2) ->
     exists r, parse_usage out = Return r) ->
  exists rs w',
    gather features w = (Return rs, w') /\
    map feature rs = features /\
    length rs = length features /\
    Forall (fun r => timestamp r = now w) rs.
Proof.
  intros Hw Hstep Hcmd Hparse.
  destruct (gather_one_record_each Inv features w Hw Hstep Hcmd Hparse)
    as (rs & w' & Hg & Hf & Ht).
  exists rs, w'. repeat split; try assumption.
  now rewrite <- Hf, length_map.
Qed.

Lemma gather_record_per_name_witness :
  exists rs w',
    gather [lit "A"; lit "B"; lit "A"] flexlm_world = (Return rs, w') /\
    map feature rs = [lit "A"; lit "B"; lit "A"] /\
    length rs = length [lit "A"; lit "B"; lit "A"] /\
    Forall (fun r => timestamp r = now flexlm_world) rs.
Proof.
  apply (gather_record_per_name Script script_host (fun w => w = flexlm_world)).
  - reflexivity.
  - intros w1 cmd t ->. reflexivity.
  - intros w1 feat -> _. eexists. reflexivity.
  - intros w1 cmd t returncode out err w2 -> [= <- <- <- <-].
    eexists. reflexivity.
Defined.

(** Whatever the host does, [gather] gives one record per name or raises a
    [ValueError]. *)
Lemma gather_all_or_nothing (W : Type) (H : Host W) features w :
  match gather features w with
  | (Return rs, _) =>
      map feature rs = features /\ Forall (fun r => timestamp r = now w) rs
  | (Raise e, _) => exn_kind e = lit "ValueError"
  end.
Proof.
  destruct (gather features w) as [[rs|e] w'] eqn:Hg.
  - apply gather_returns in Hg.
    induction Hg as [|feat r fs rs (Hf & Ht & _) _ [IH1 IH2]].
    + split; [reflexivity | constructor].
    + split; [simpl; congruence | now constructor].
  - now apply gather_raises in Hg.
Qed.

(** The second way [gather] raises: a count of more than 4300 digits in the
    output of the tool. *)
Example gather_long_count_raises :
  exists e,
    gather [lit "A"; lit "B"]
      {| script_environ := ∅; script_now := lit "2024-05-01 12:00:00";
         script_tool := fun _ _ =>
           Completed 0 (lit "Issued=" ++ repeat "9"%char 4301 ++ lit " Used=1") [] |}
    = (Raise e,
       {| script_environ := ∅; script_now := lit "2024-05-01 12:00:00";
          script_tool := fun _ _ =>
            Completed 0 (lit "Issued=" ++ repeat "9"%char 4301 ++ lit " Used=1") [] |})
    /\ exn_kind e = lit "ValueError".
Proof.
  pose proof parse_usage_long_count as (e & Hp & Hk & _).
  exists e. split; [|exact Hk].
  unfold gather. cbn [gather_loop]. unfold bind at 1.
  rewrite poll_unfold, run_ckout_unfold. cbn [environ script_host script_environ].
  rewrite command_of_default by reflexivity.
  cbn [spawn script_host script_tool]. now rewrite Hp.
Qed.

(** Duplicates are polled again: each poll has its own answer. *)
Example gather_duplicates_polled_again :
  map used (fst_records (gather [lit "A"; lit "B"; lit "A"] 3%nat))
  = [Some 3; Some 4; Some 5].
Proof. reflexivity. Qed.

(** X13: a poll whose spawn fails still gives a record: exit code 1, the
    three counts unknown, an empty raw output, and as error text the stripped
    "Kind: message" of the failure; nothing is raised. *)
Theorem gather_failed_poll (W : Type) (H : Host W) feat w cmd e w' :
  command_of (environ w) feat = Return cmd ->
  spawn cmd 30 w = (Failed e, w') ->
  gather [feat] w
  = (Return [ {| feature := feat; total := None; used := None; unused := None;
                 timestamp := now w; rc := 1;
                 stderr := strip (exn_kind e ++ lit ": " ++ exn_msg e);
                 raw := [] |} ], w').
Proof.
  intros Hcmd Hspawn. unfold gather. cbn [gather_loop]. unfold bind, poll, bind.
  rewrite run_ckout_unfold, Hcmd, Hspawn. reflexivity.
Qed.

Lemma gather_failed_poll_witness :
  gather [lit "A"] slow_world
  = (Return [ {| feature := lit "A"; total := None; used := None;
                 unused := None; timestamp := now slow_world; rc := 1;
                 stderr := strip (lit "TimeoutExpired" ++ lit ": "
                   ++ lit "Command '['ckout_test', '-f', 'A']' timed out after 30 seconds");
                 raw := [] |} ], slow_world).
Proof.
  apply (gather_failed_poll Script script_host (lit "A") slow_world
           [lit "ckout_test"; lit "-f"; lit "A"]
           (Exn (lit "TimeoutExpired")
                (lit "Command '['ckout_test', '-f', 'A']' timed out after 30 seconds"))
           slow_world); reflexivity.
Defined.

(** * Further properties of the log *)

(** X14: two calls of [append_csv] on a path do what one call with all the
    records does, on any files: the log depends on the records and their
    order, not on how they were batched. *)
Theorem append_csv_batches (P : Paths) path rows1 rows2 (fs : files) :
  append_csv path rows2 (append_csv path rows1 fs)
  = append_csv path (rows1 ++ rows2) fs.
Proof.
  rewrite (append_csv_insert path rows1 fs).
  rewrite (append_csv_insert path (rows1 ++ rows2) fs).
  rewrite append_csv_insert. unfold log_base at 1.
  rewrite lookup_insert_eq, insert_insert_eq.
  now rewrite map_app, concat_app, app_assoc.
Qed.

Lemma append_csv_keeps_text_helper (P : Paths) path rows (fs : files)
    (old : str) :
  fs !! file_of path = Some old ->
  append_csv path rows fs !! file_of path
  = Some (old ++ concat (map (fun r => csv_line (record_row r)) rows)).
Proof.
  intros Hold. rewrite append_csv_insert, lookup_insert_eq.
  unfold log_base. unfold str in *. now rewrite Hold.
Qed.

(** X15: on a path whose file exists, whatever it holds, [append_csv] writes
    no header: the file becomes its old text followed by the lines of the
    records; a log that was created empty never gets a header. *)
Theorem append_csv_keeps_text (P : Paths) path rows (fs : files) (old : str) :
  fs !! file_of path = Some old ->
  append_csv path rows fs !! file_of path
  = Some (old ++ concat (map (fun r => csv_line (record_row r)) rows)).
Proof.
  apply append_csv_keeps_text_helper.
Qed.

Lemma append_csv_keeps_text_witness :
  append_csv (P := one_directory) "log.csv" [blank_record]
    ({[ "log.csv"%string := [] ]} : files)
    !! file_of (Paths := one_directory) "log.csv"
  = Some ([] ++ concat (map (fun r => csv_line (record_row r)) [blank_record])).
Proof.
  apply (append_csv_keeps_text one_directory "log.csv" [blank_record]
           ({[ "log.csv"%string := [] ]}) []).
  reflexivity.
Defined.

(** X16: [append_csv] changes no file but the one its path names. *)
Theorem append_csv_other_files (P : Paths) path rows (fs : files) other :
  other <> file_of path -> append_csv path rows fs !! other = fs !! other.
Proof.
  intros Hne. rewrite append_csv_insert. now apply lookup_insert_ne.
Qed.

Lemma append_csv_other_files_witness :
  append_csv (P := one_directory) "log.csv" [blank_record]
    ({[ "report.html"%string := lit "<html>" ]} : files) !! "report.html"%string
  = ({[ "report.html"%string := lit "<html>" ]} : files) !! "report.html"%string.
Proof.
  apply (append_csv_other_files one_directory "log.csv" [blank_record]
           {[ "report.html"%string := lit "<html>" ]} "report.html").
  discriminate.
Defined.

(** * Further properties of the console table *)

Lemma length_join sep (l : list str) :
  length (join sep l)
  = (list_sum (map (@length ascii) l) + length sep * pred (length l))%nat.
Proof.
  induction l as [|x rest IH]; [simpl; lia|].
  destruct rest as [|y rest].
  - simpl. lia.
  - change (join sep (x :: y :: rest)) with (x ++ sep ++ join sep (y :: rest)).
    rewrite !length_app, IH. simpl. lia.
Qed.

(** The columns of rows that all have [n] cells at least. *)
Lemma zip_star_n_columns n :
  forall rows,
    Forall (fun r : list str => (n <= length r)%nat) rows ->
    zip_star_n n rows
    = map (fun j => map (fun r => nth j r []) rows) (seq 0 n).
Proof.
  induction n as [|n IH]; intros rows Hrows; [reflexivity|].
  cbn [zip_star_n seq map].
  assert (Hne : forallb nonempty_row rows = true).
  { apply forallb_forall. rewrite List.Forall_forall in Hrows.
    intros r Hr. specialize (Hrows r Hr). destruct r; [simpl in Hrows; lia|reflexivity]. }
  rewrite Hne. f_equal.
  - apply map_ext. now intros [|c r].
  - rewrite IH.
    + rewrite <- seq_shift, map_map. apply map_ext. intros j.
      rewrite map_map. apply map_ext. now intros [|c r]; destruct j.
    + rewrite List.Forall_forall in *. intros r Hr.
      apply in_map_iff in Hr as (r0 & <- & Hr0). specialize (Hrows r0 Hr0).
      destruct r0; simpl in *; lia.
Qed.

Lemma display_rows_six rows :
  Forall (fun r : list str => length r = 6%nat) (headers :: display_rows rows).
Proof.
  constructor; [reflexivity|]. unfold display_rows.
  apply List.Forall_forall. intros r Hr.
  apply in_map_iff in Hr as (r0 & <- & _). reflexivity.
Qed.

Lemma table_widths_columns rows :
  rows <> [] ->
  table_widths (display_rows rows)
  = map (fun j => list_max (map (@length ascii)
                    (map (fun r => nth j r []) (headers :: display_rows rows))))
        (seq 0 6).
Proof.
  intros Hne. unfold table_widths.
  destruct rows as [|r0 rows]; [congruence|].
  cbn [display_rows map]. cbn [app]. unfold zip_star.
  change (length headers) with 6%nat.
  rewrite zip_star_n_columns.
  - reflexivity.
  - pose proof (display_rows_six (r0 :: rows)) as H6.
    eapply List.Forall_impl; [|exact H6]. simpl. intros r ->. lia.
Qed.

Lemma six_cells (row : list str) :
  length row = 6%nat -> row = map (fun j => nth j row []) (seq 0 6).
Proof.
  destruct row as [|a [|b [|c [|d [|e [|f [|g row]]]]]]]; try discriminate.
  reflexivity.
Qed.

Lemma Forall2_same_map {A B C} (P : B -> C -> Prop) (f : A -> B) (g : A -> C) l :
  (forall x, P (f x) (g x)) -> Forall2 P (map f l) (map g l).
Proof. intros H. induction l; simpl; constructor; auto. Qed.

(** No cell is wider than its column. *)
Lemma table_widths_fit rows row :
  In row (headers :: display_rows rows) ->
  Forall2 (fun (c : str) w => (length c <= w)%nat) row
    (table_widths (display_rows rows)).
Proof.
  intros Hin. destruct rows as [|r0 rows].
  - destruct Hin as [<-|[]]. repeat constructor; simpl; lia.
  - rewrite table_widths_columns by discriminate.
    pose proof (display_rows_six (r0 :: rows)) as H6.
    rewrite List.Forall_forall in H6.
    rewrite (six_cells row (H6 row Hin)) at 1.
    apply Forall2_same_map. intros j.
    assert (Hle : Forall (fun k => (k <= list_max
               (map (@length ascii)
                  (map (fun r => nth j r []) (headers :: display_rows (r0 :: rows)))))%nat)
             (map (@length ascii)
                  (map (fun r => nth j r []) (headers :: display_rows (r0 :: rows))))).
    { apply list_max_le. lia. }
    rewrite List.Forall_forall in Hle. apply Hle.
    apply in_map, (in_map (fun r => nth j r [])). exact Hin.
Qed.

Lemma fmt_lengths widths row :
  Forall2 (fun (c : str) w => (length c <= w)%nat) row widths ->
  map (@length ascii)
    (map (fun cw => ljust (fst cw) (snd cw)) (combine row widths)) = widths.
Proof.
  induction 1 as [|c w row widths Hc _ IH]; [reflexivity|].
  cbn [combine map fst snd]. rewrite IH. f_equal.
  unfold ljust. rewrite length_app, repeat_length. lia.
Qed.

Lemma fmt_length widths row :
  Forall2 (fun (c : str) w => (length c <= w)%nat) row widths ->
  length (fmt widths row)
  = (list_sum widths + 2 * pred (length widths))%nat.
Proof.
  intros Hfit. unfold fmt. rewrite length_join, (fmt_lengths _ _ Hfit).
  rewrite !length_map, length_combine.
  apply Forall2_length in Hfit. rewrite Hfit, Nat.min_id. reflexivity.
Qed.

Lemma table_widths_six rows : length (table_widths (display_rows rows)) = 6%nat.
Proof.
  destruct rows as [|r0 rows]; [reflexivity|].
  rewrite table_widths_columns by discriminate. now rewrite length_map.
Qed.

(** X17: the table [print_table] prints is aligned: it has the header line,
    the line of dashes and one line per record; no cell is wider than its
    column, and every line has the same length, the sum of the six column
    widths plus the five separators of two spaces. *)
Theorem print_table_aligned rows :
  let widths := table_widths (display_rows rows) in
  length (print_table rows) = (2 + length rows)%nat /\
  length widths = 6%nat /\
  Forall (fun row => Forall2 (fun (c : str) w => (length c <= w)%nat) row widths)
    (headers :: display_rows rows) /\
  Forall (fun line : str => length line = (list_sum widths + 10)%nat)
    (print_table rows).
Proof.
  cbv zeta. pose proof (table_widths_six rows) as H6.
  split; [|split; [exact H6|split]].
  - unfold print_table, display_rows. cbn [app length].
    now rewrite !length_map.
  - apply List.Forall_forall. intros row Hin. now apply table_widths_fit.
  - unfold print_table. cbn [app].
    constructor; [|constructor].
    + rewrite fmt_length by (apply table_widths_fit; now left).
      rewrite H6. reflexivity.
    + rewrite length_join, map_map.
      rewrite (map_ext _ (fun w => w)) by (intros w; apply repeat_length).
      rewrite map_id, length_map, H6. reflexivity.
    + apply List.Forall_forall. intros line Hin.
      apply in_map_iff in Hin as (row & <- & Hrow).
      rewrite fmt_length by (apply table_widths_fit; now right).
      rewrite H6. reflexivity.
Qed.

Example print_table_two_rows :
  print_table [flexlm_record (lit "Innovus_Impl_System"); blank_record]
  = [ lit "Feature              Used  Unused  Total  Status         Updated            ";
      lit "-------------------  ----  ------  -----  -------------  -------------------";
      lit "Innovus_Impl_System  5     20      25     OK             2024-05-01 12:00:00";
      lit "                     ?     ?       ?      Unknown parse                     " ].
Proof. reflexivity. Qed.

(** * Further properties of the feature list *)

Lemma lstrip_first s : no_space_first (lstrip s).
Proof.
  induction s as [|c s IH]; [exact I|]. simpl.
  destruct (is_space c) eqn:Hc; [exact IH | exact Hc].
Qed.

Lemma lstrip_fixed s : no_space_first s -> lstrip s = s.
Proof. destruct s as [|c s]; [reflexivity|]. simpl. now intros ->. Qed.

Lemma no_space_first_prefix (a b : str) :
  a <> [] -> no_space_first (a ++ b) -> no_space_first a.
Proof. destruct a; [congruence | intros _ H; exact H]. Qed.

(** [strip] of a stripped text changes nothing. *)
Lemma strip_strip s : strip (strip s) = strip s.
Proof.
  unfold strip. set (a := lstrip s). set (b := lstrip (rev a)).
  assert (Hb : lstrip (rev b) = rev b).
  { apply lstrip_fixed. destruct b as [|x b'] eqn:Eb; [exact I|].
    destruct (lstrip_split (rev a)) as (ws & Hws & _). fold b in Hws.
    rewrite Eb in Hws.
    apply (f_equal (@rev ascii)) in Hws. rewrite rev_involutive in Hws.
    rewrite rev_app_distr in Hws.
    apply no_space_first_prefix with (rev ws).
    - intros Hnil. apply (f_equal (@length ascii)) in Hnil.
      rewrite length_rev in Hnil. discriminate.
    - rewrite <- Hws. apply lstrip_first. }
  rewrite Hb, rev_involutive.
  assert (Hbb : lstrip b = b) by (apply lstrip_fixed, lstrip_first).
  now rewrite Hbb.
Qed.

Lemma strip_chars s c : In c (strip s) -> In c s.
Proof.
  intros Hin. destruct (strip_split s) as (ws1 & ws2 & Heq & _).
  rewrite Heq. apply in_or_app. right. apply in_or_app. now left.
Qed.

Lemma split_from_no_comma s :
  forall cur,
    ~ In ","%char cur ->
    Forall (fun f => ~ In ","%char f) (split_from "," cur s).
Proof.
  induction s as [|c s IH]; intros cur Hcur; simpl.
  - now repeat constructor.
  - destruct (eqc c ",") eqn:Hc.
    + constructor; [exact Hcur|]. apply IH. intros [].
    + apply IH. intros Hin. apply in_app_or in Hin as [Hin|[Heq|[]]];
        [now apply Hcur|]. apply eqc_false in Hc. congruence.
Qed.

(** X18: every feature name the command line gives to [gather] is non-empty,
    has no whitespace around it and holds no comma. *)
Theorem parse_features_clean features :
  Forall (fun f => f <> [] /\ strip f = f /\ ~ In ","%char f)
    (parse_features features).
Proof.
  unfold parse_features, split_commas.
  pose proof (split_from_no_comma features [] (fun H => H)) as Hpieces.
  induction Hpieces as [|f pieces Hf _ IH]; [constructor|].
  cbn [stripped_nonempty].
  destruct (nonempty (strip f)) eqn:Hne; [|exact IH].
  constructor; [|exact IH]. repeat split.
  - intros Heq. rewrite Heq in Hne. discriminate.
  - apply strip_strip.
  - intros Hin. apply Hf. now apply strip_chars.
Qed.

Lemma split_from_piece f :
  ~ In ","%char f ->
  forall cur s, split_from "," cur (f ++ s) = split_from "," (cur ++ f) s.
Proof.
  induction f as [|c f IH]; intros Hf cur s.
  - now rewrite app_nil_r.
  - cbn [app split_from].
    assert (Hc : eqc c "," = false).
    { apply eqc_false. intros ->. apply Hf. now left. }
    rewrite Hc, IH by (intros Hin; apply Hf; now right).
    now rewrite <- app_assoc.
Qed.

Lemma split_commas_join fs :
  fs <> [] -> Forall (fun f => ~ In ","%char f) fs ->
  split_commas (join (lit ",") fs) = fs.
Proof.
  intros Hne Hall. unfold split_commas.
  induction Hall as [|f rest Hf Hrest IH]; [congruence|].
  destruct rest as [|g rest].
  - cbn [join]. pose proof (split_from_piece f Hf [] []) as E.
    rewrite app_nil_r in E. rewrite E. reflexivity.
  - change (join (lit ",") (f :: g :: rest))
      with (f ++ ","%char :: join (lit ",") (g :: rest)).
    rewrite split_from_piece by exact Hf. cbn [app split_from].
    change (eqc "," ",") with true. cbv iota.
    rewrite IH by discriminate. reflexivity.
Qed.

(** X19: a list of clean names is read back from its comma-separated text:
    joining the names with commas and parsing the result gives the names, in
    order, duplicates included. *)
Theorem parse_features_join fs :
  Forall (fun f => f <> [] /\ strip f = f /\ ~ In ","%char f) fs ->
  parse_features (join (lit ",") fs) = fs.
Proof.
  intros Hall. destruct fs as [|f0 fs0]; [reflexivity|].
  unfold parse_features. rewrite split_commas_join; [|discriminate|].
  - induction Hall as [|f rest (Hne & Hs & _) _ IH]; [reflexivity|].
    cbn [stripped_nonempty]. rewrite Hs.
    destruct f; [congruence|]. cbn [nonempty]. now rewrite IH.
  - eapply List.Forall_impl; [|exact Hall]. simpl. tauto.
Qed.

Lemma parse_features_join_witness :
  parse_features
    (join (lit ",") [lit "Innovus_Impl_System"; lit "Genus_Synthesis"])
  = [lit "Innovus_Impl_System"; lit "Genus_Synthesis"].
Proof.
  apply parse_features_join.
  repeat constructor; try discriminate; try reflexivity;
    (intros Hin; repeat (destruct Hin as [Hin|Hin]; [discriminate Hin|]);
     exact Hin).
Defined.

Lemma lstrip_blank ws : blank ws -> lstrip ws = [].
Proof. induction 1 as [|c ws Hc _ IH]; [reflexivity|]. simpl. now rewrite Hc. Qed.

Lemma strip_blank ws : blank ws -> strip ws = [].
Proof. intros H. unfold strip. now rewrite (lstrip_blank ws H). Qed.

Lemma split_from_blank s :
  Forall (fun c => is_space c = true \/ c = ","%char) s ->
  forall cur, blank cur -> Forall blank (split_from "," cur s).
Proof.
  induction 1 as [|c s Hc _ IH]; intros cur Hcur; simpl.
  - now repeat constructor.
  - destruct (eqc c ",") eqn:Heq.
    + constructor; [exact Hcur|]. apply IH. constructor.
    + apply IH. unfold blank. apply Forall_app. split; [exact Hcur|].
      constructor; [|constructor]. destruct Hc as [Hc| ->]; [exact Hc|].
      discriminate Heq.
Qed.

(** A feature argument made of commas and whitespace names no feature. *)
Lemma parse_features_blank s :
  Forall (fun c => is_space c = true \/ c = ","%char) s ->
  parse_features s = [].
Proof.
  intros Hs. unfold parse_features, split_commas.
  pose proof (split_from_blank s Hs [] ltac:(constructor)) as Hpieces.
  induction Hpieces as [|f pieces Hf _ IH]; [reflexivity|].
  cbn [stripped_nonempty]. now rewrite (strip_blank f Hf).
Qed.

(** * Further properties of the two scripts *)

Section Scripts.
Context {W : Type} `{Host W} {P : Paths}.

Lemma log_base_other path other (fs : files) text :
  other <> file_of path ->
  log_base path (<[other := text]> fs) = log_base path fs.
Proof.
  intros Hne. unfold log_base. now rewrite lookup_insert_ne.
Qed.

(** What a snapshot does to the machine. *)
Lemma snapshot_raises features out csv title (s : Sys W) e s' :
  snapshot features out csv title s = (Raise e, s') ->
  sys_files s' = sys_files s /\ sys_out s' = sys_out s /\
  sys_err s' = sys_err s /\ exn_kind e = lit "ValueError".
Proof.
  unfold snapshot.
  destruct (gather features (sys_world s)) as [[rows|e0] w'] eqn:Hg;
    [discriminate|].
  intros [= <- <-]. repeat split. now apply gather_raises in Hg.
Qed.

Lemma snapshot_returns features out csv title (s : Sys W) rows s' :
  snapshot features out csv title s = (Return rows, s') ->
  sys_files s'
  = append_csv csv rows (write_file out (render_html rows title) (sys_files s))
  /\ sys_out s' = sys_out s /\ sys_err s' = sys_err s /\
  exists w', gather features (sys_world s) = (Return rows, w').
Proof.
  unfold snapshot.
  destruct (gather features (sys_world s)) as [[rows0|e0] w']; [|discriminate].
  intros [= <- <-]. repeat split. now exists w'.
Qed.

End Scripts.




Lemma snapshot_effect (W : Type) (H : Host W) (P : Paths) features out csv
    title (s : Sys W) :
  file_of out <> file_of csv ->
  match snapshot features out csv title s with
  | (Raise e, s') =>
      sys_files s' = sys_files s /\ sys_out s' = sys_out s /\
      sys_err s' = sys_err s
  | (Return rows, s') =>
      sys_files s' !! file_of out = Some (render_html rows title) /\
      sys_files s' !! file_of csv
      = Some (log_base csv (sys_files s)
              ++ concat (map (fun r => csv_line (record_row r)) rows)) /\
      (forall other, other <> file_of out -> other <> file_of csv ->
         sys_files s' !! other = sys_files s !! other)
  end.
Proof.
  intros Hne.
  destruct (snapshot features out csv title s) as [[rows|e] s'] eqn:Hs.
  - apply snapshot_returns in Hs as (Hf & _). rewrite Hf, append_csv_insert.
    unfold write_file. rewrite log_base_other by exact Hne.
    repeat split.
    + rewrite lookup_insert_ne by congruence. apply lookup_insert_eq.
    + apply lookup_insert_eq.
    + intros other H1 H2. now rewrite !lookup_insert_ne by congruence.
  - apply snapshot_raises in Hs as (? & ? & ? & _). auto.
Qed.

(** X20: a snapshot whose report path and log path name two files either
    raises and then leaves every file and both streams as they were, or
    returns its records and then the report file is exactly the rendered
    document, the log is its previous text (the header line if it did not
    exist) followed by the lines of the records, and no other file has
    changed. *)
Theorem snapshot_files (W : Type) (H : Host W) (P : Paths) features out csv
    title (s : Sys W) :
  file_of out <> file_of csv ->
  match snapshot features out csv title s with
  | (Raise e, s') =>
      sys_files s' = sys_files s /\ sys_out s' = sys_out s /\
      sys_err s' = sys_err s
  | (Return rows, s') =>
      sys_files s' !! file_of out = Some (render_html rows title) /\
      sys_files s' !! file_of csv
      = Some (log_base csv (sys_files s)
              ++ concat (map (fun r => csv_line (record_row r)) rows)) /\
      (forall other, other <> file_of out -> other <> file_of csv ->
         sys_files s' !! other = sys_files s !! other)
  end.
Proof. apply snapshot_effect. Qed.

Lemma snapshot_files_witness :
  match snapshot (P := one_directory) [lit "A"] "./report.html" "log.csv"
          (lit "Usage")
          {| sys_world := flexlm_world; sys_files := ∅;
             sys_out := []; sys_err := [] |} with
  | (Raise e, s') =>
      sys_files s' = ∅ /\ sys_out s' = [] /\ sys_err s' = []
  | (Return rows, s') =>
      sys_files s' !! file_of (Paths := one_directory) "./report.html"
      = Some (render_html rows (lit "Usage")) /\
      sys_files s' !! file_of (Paths := one_directory) "log.csv"
      = Some (log_base (P := one_directory) "log.csv" (∅ : files)
              ++ concat (map (fun r => csv_line (record_row r)) rows)) /\
      (forall other,
         other <> file_of (Paths := one_directory) "./report.html" ->
         other <> file_of (Paths := one_directory) "log.csv" ->
         sys_files s' !! other = (∅ : files) !! other)
  end.
Proof.
  apply (snapshot_files Script script_host one_directory [lit "A"]
           "./report.html" "log.csv" (lit "Usage")
           {| sys_world := flexlm_world; sys_files := ∅;
              sys_out := []; sys_err := [] |}).
  discriminate.
Defined.

(** X21: when the report path and the log path name the same file (the same
    text, or two texts such as [l.csv] and [./l.csv]), the history is lost at
    every snapshot: the file holds the document of this snapshot followed by
    the lines of its records only, without a header line. *)
Theorem snapshot_same_path (W : Type) (H : Host W) (P : Paths) features out
    csv title (s : Sys W) :
  file_of out = file_of csv ->
  match snapshot features out csv title s with
  | (Raise e, s') => sys_files s' = sys_files s
  | (Return rows, s') =>
      sys_files s' !! file_of csv
      = Some (render_html rows title
              ++ concat (map (fun r => csv_line (record_row r)) rows))
  end.
Proof.
  intros Hsame.
  destruct (snapshot features out csv title s) as [[rows|e] s'] eqn:Hs.
  - apply snapshot_returns in Hs as (Hf & _). rewrite Hf.
    apply append_csv_keeps_text_helper. unfold write_file. rewrite Hsame.
    apply lookup_insert_eq.
  - now apply snapshot_raises in Hs.
Qed.

Lemma snapshot_same_path_witness :
  match snapshot (P := one_directory) [lit "A"] "./l.csv" "l.csv" (lit "Usage")
          {| sys_world := flexlm_world;
             sys_files := {[ "l.csv"%string := lit "kept" ]};
             sys_out := []; sys_err := [] |} with
  | (Raise e, s') => sys_files s' = {[ "l.csv"%string := lit "kept" ]}
  | (Return rows, s') =>
      sys_files s' !! file_of (Paths := one_directory) "l.csv"
      = Some (render_html rows (lit "Usage")
              ++ concat (map (fun r => csv_line (record_row r)) rows))
  end.
Proof.
  apply (snapshot_same_path Script script_host one_directory [lit "A"]
           "./l.csv" "l.csv" (lit "Usage")
           {| sys_world := flexlm_world;
              sys_files := {[ "l.csv"%string := lit "kept" ]};
              sys_out := []; sys_err := [] |}).
  reflexivity.
Defined.

(** X22: a feature argument made only of commas and whitespace ends both
    scripts with the exit status 2 and the line "No features provided." on
    the error stream; no command is spawned, no file written and nothing
    printed on the output stream. *)
Theorem no_features_exit_2 (W : Type) (H : Host W) (T : Timer W) (P : Paths)
    n (margs : Args) (fargs : FetchArgs) (s : Sys W) :
  Forall (fun c => is_space c = true \/ c = ","%char) (arg_features margs) ->
  Forall (fun c => is_space c = true \/ c = ","%char) (fetch_features fargs) ->
  monitor_main n margs s = (Exit 2, print_err (lit "No features provided.") s) /\
  fetch_script fargs s = (Exit 2, print_err (lit "No features provided.") s).
Proof.
  intros Hm Hf. unfold monitor_main, fetch_script, fetch_main.
  now rewrite (parse_features_blank _ Hm), (parse_features_blank _ Hf).
Qed.

Lemma no_features_exit_2_witness :
  let s := {| sys_world := flexlm_world; sys_files := ∅;
              sys_out := []; sys_err := [] |} in
  let margs := {| arg_features := lit " , ,"; arg_out := "r.html";
                  arg_csv := "l.csv"; arg_title := lit "t";
                  arg_interval := 300; arg_once := false |} in
  let fargs := {| fetch_features := []; fetch_out := "r.html";
                  fetch_csv := "l.csv"; fetch_title := lit "t";
                  fetch_format := FormatSummary |} in
  monitor_main (P := one_directory) 7 margs s
  = (Exit 2, print_err (lit "No features provided.") s) /\
  fetch_script (P := one_directory) fargs s
  = (Exit 2, print_err (lit "No features provided.") s).
Proof.
  apply (no_features_exit_2 Script script_host script_timer one_directory).
  - repeat constructor; (now left) || (now right).
  - constructor.
Defined.


Example fetch_script_quote :
  fetch_script (P := one_directory)
    {| fetch_features := lit "A" ++ [dq]; fetch_out := "r.html";
       fetch_csv := "l.csv"; fetch_title := lit "t";
       fetch_format := FormatTable |}
    {| sys_world := templated_world flexlm_tool; sys_files := ∅;
       sys_out := []; sys_err := [] |}
  = (Exit 1,
     {| sys_world := templated_world flexlm_tool; sys_files := ∅;
        sys_out := []; sys_err := [lit "Error: No closing quotation"] |}).
Proof. reflexivity. Qed.

(** Two totals of 4300 digits each are read, rendered and logged; their sum
    has 4301 digits and the summary fails on it, after the two files were
    written. *)
Example fetch_script_sum_too_long :
  let r :=
    fetch_script (P := one_directory)
      {| fetch_features := lit "A,B"; fetch_out := "r.html";
         fetch_csv := "l.csv"; fetch_title := lit "t";
         fetch_format := FormatSummary |}
      {| sys_world := long_total_world; sys_files := ∅;
         sys_out := []; sys_err := [] |} in
  fst r = Exit 1 /\
  sys_out (snd r) = [] /\
  sys_err (snd r)
  = [lit "Error: Exceeds the limit (4300 digits) for integer string conversion; use sys.set_int_max_str_digits() to increase the limit"] /\
  map fst (map_to_list (sys_files (snd r))) = ["r.html"%string; "l.csv"%string].
Proof. vm_compute. repeat split. Qed.

Section Monitor.
Context {W : Type} `{Host W} `{Timer W} {P : Paths}.

Lemma monitor_round_grows features (args : Args) (s : Sys W) (old : str) :
  file_of (arg_out args) <> file_of (arg_csv args) ->
  sys_files s !! file_of (arg_csv args) = Some old ->
  exists more,
    sys_files (snd (monitor_round features args s)) !! file_of (arg_csv args)
    = Some (old ++ more).
Proof.
  intros Hne Hold. unfold monitor_round.
  pose proof (snapshot_effect W _ _ features (arg_out args) (arg_csv args)
                (arg_title args) s Hne) as Hsnap.
  destruct (snapshot features (arg_out args) (arg_csv args) (arg_title args) s)
    as [[rows|e] s'].
  - destruct Hsnap as (_ & Hlog & _). unfold log_base in Hlog.
    unfold str in *. rewrite Hold in Hlog.
    destruct rows as [|r0 rows]; cbn [snd]; eexists; exact Hlog.
  - destruct Hsnap as (Hf & _). cbn [snd]. rewrite Hf. exists [].
    now rewrite app_nil_r.
Qed.

Lemma monitor_loop_grows n features (args : Args) :
  file_of (arg_out args) <> file_of (arg_csv args) ->
  forall (s : Sys W) (old : str),
    sys_files s !! file_of (arg_csv args) = Some old ->
    exists more,
      sys_files (snd (monitor_loop n features args s)) !! file_of (arg_csv args)
      = Some (old ++ more).
Proof.
  intros Hne. induction n as [|n IH]; intros s old Hold.
  - exists []. cbn. now rewrite app_nil_r.
  - cbn [monitor_loop].
    set (s1 := with_world (sleep (Z.max 5 (arg_interval args)) (sys_world s)) s).
    destruct (monitor_round_grows features args s1 old Hne Hold) as (m1 & Hm1).
    destruct (monitor_round features args s1) as [[e|] s2]; cbn [snd] in *.
    + now exists m1.
    + destruct (IH s2 (old ++ m1) Hm1) as (m2 & Hm2).
      exists (m1 ++ m2). now rewrite app_assoc.
Qed.
End Monitor.

(** X24: the monitor only ever adds to an existing log: when the report path
    and the log path name two files, after the first snapshot and any number
    of turns of the loop, and also when a snapshot raised on the way, the
    log begins with the text it had at the start. *)
Theorem monitor_log_grows (W : Type) (H : Host W) (T : Timer W) (P : Paths)
    n (args : Args) (s : Sys W) (old : str) :
  file_of (arg_out args) <> file_of (arg_csv args) ->
  sys_files s !! file_of (arg_csv args) = Some old ->
  exists more,
    sys_files (snd (monitor_main n args s)) !! file_of (arg_csv args)
    = Some (old ++ more).
Proof.
  intros Hne Hold. unfold monitor_main.
  destruct (parse_features (arg_features args)) as [|f0 fs].
  - exists []. cbn. unfold str in *. now rewrite Hold, app_nil_r.
  - destruct (monitor_round_grows (f0 :: fs) args s old Hne Hold) as (m1 & Hm1).
    destruct (monitor_round (f0 :: fs) args s) as [[e|] s1]; cbn [snd] in *.
    + now exists m1.
    + destruct (arg_once args); [now exists m1|].
      destruct (monitor_loop_grows n (f0 :: fs) args Hne s1 (old ++ m1) Hm1)
        as (m2 & Hm2).
      exists (m1 ++ m2). now rewrite app_assoc.
Qed.

Lemma monitor_log_grows_witness :
  let args := {| arg_features := lit "A, B"; arg_out := "r.html";
                 arg_csv := "./l.csv"; arg_title := lit "t";
                 arg_interval := 1; arg_once := false |} in
  let s := {| sys_world := flexlm_world;
              sys_files := {[ "l.csv"%string := lit "kept" ]};
              sys_out := []; sys_err := [] |} in
  exists more,
    sys_files (snd (monitor_main (P := one_directory) 3 args s))
      !! file_of (Paths := one_directory) (arg_csv args)
    = Some (lit "kept" ++ more).
Proof.
  apply (monitor_log_grows Script script_host script_timer one_directory 3
           {| arg_features := lit "A, B"; arg_out := "r.html";
              arg_csv := "./l.csv"; arg_title := lit "t";
              arg_interval := 1; arg_once := false |}
           {| sys_world := flexlm_world;
              sys_files := {[ "l.csv"%string := lit "kept" ]};
              sys_out := []; sys_err := [] |} (lit "kept")).
  - discriminate.
  - reflexivity.
Defined.

(** When the two paths name one file the log does not grow: the report
    replaces it at each snapshot. *)
Example monitor_alias_loses_log :
  let args := {| arg_features := lit "A"; arg_out := "./l.csv";
                 arg_csv := "l.csv"; arg_title := lit "t";
                 arg_interval := 1; arg_once := true |} in
  let s := {| sys_world := flexlm_world;
              sys_files := {[ "l.csv"%string := lit "kept" ]};
              sys_out := []; sys_err := [] |} in
  option_map (starts_with (lit "kept"))
    (sys_files (snd (monitor_main (P := one_directory) 0 args s))
       !! "l.csv"%string)
  = Some false.
Proof. reflexivity. Qed.

(** * Further properties of the JSON document *)

Lemma json_char_safe c : forallb ascii_safe (json_char c) = true.
Proof. each_char c; reflexivity. Qed.

Lemma json_string_safe s : forallb ascii_safe (json_string s) = true.
Proof.
  unfold json_string. rewrite !forallb_app.
  assert (Hs : forallb ascii_safe (concat (map json_char s)) = true).
  { induction s as [|c s IH]; [reflexivity|].
    cbn [map concat]. now rewrite forallb_app, json_char_safe, IH. }
  now rewrite Hs.
Qed.

Lemma numeric_safe c : numeric c = true -> ascii_safe c = true.
Proof. each_char c; vm_compute; congruence. Qed.

Lemma str_of_Z_safe z : forallb ascii_safe (str_of_Z z) = true.
Proof.
  apply forallb_forall. intros c Hc. apply numeric_safe.
  pose proof (str_of_Z_numeric z) as Hn. rewrite List.Forall_forall in Hn.
  now apply Hn.
Qed.

Lemma json_opt_safe v : forallb ascii_safe (json_opt v) = true.
Proof. destruct v; [apply str_of_Z_safe | reflexivity]. Qed.

Lemma json_record_safe r : forallb ascii_safe (json_record r) = true.
Proof.
  unfold json_record. rewrite !forallb_app.
  now rewrite !json_string_safe, !json_opt_safe, str_of_Z_safe.
Qed.

Lemma join_safe sep l :
  forallb ascii_safe sep = true ->
  Forall (fun x => forallb ascii_safe x = true) l ->
  forallb ascii_safe (join sep l) = true.
Proof.
  intros Hsep. induction 1 as [|x rest Hx _ IH]; [reflexivity|].
  destruct rest as [|y rest]; [exact Hx|].
  change (join sep (x :: y :: rest)) with (x ++ sep ++ join sep (y :: rest)).
  now rewrite !forallb_app, Hx, Hsep, IH.
Qed.

(** X25: the JSON document is plain ASCII whatever the records hold: every
    character of it is printable ASCII or a line feed; quotes, backslashes,
    control characters and characters above 126 of the texts are escaped. *)
Theorem json_document_ascii rows :
  forallb ascii_safe (json_document rows) = true.
Proof.
  unfold json_document. rewrite !forallb_app, json_string_safe.
  assert (Hrows : forallb ascii_safe
            match rows with
            | [] => lit "[]"
            | _ :: _ => lit "[" ++ LF ++ join (lit "," ++ LF) (map json_record rows)
                        ++ LF ++ lit "  ]"
            end = true).
  { destruct rows as [|r rows]; [reflexivity|].
    rewrite !forallb_app, join_safe; [reflexivity | reflexivity|].
    apply List.Forall_forall. intros x Hx.
    apply in_map_iff in Hx as (r0 & <- & _). apply json_record_safe. }
  now rewrite Hrows.
Qed.

Example json_document_one :
  json_document
    [ {| feature := lit "a" ++ [dq] ++ lit "b"; total := Some 25;
         used := None; unused := None; timestamp := lit "2024-05-01 12:00:00";
         rc := 1; stderr := [ascii_of_N 233]; raw := [] |} ]
  = tpl "{
  `licenses`: [
    {
      `feature`: `a\`b`,
      `used`: null,
      `unused`: null,
      `total`: 25,
      `timestamp`: `2024-05-01 12:00:00`,
      `rc`: 1,
      `error`: `\u00e9`
    }
  ]
}".
Proof. reflexivity. Qed.

(** * Further properties of the escaping *)

Lemma escape_char_inj c c' rest rest' :
  escape_char c ++ rest = escape_char c' ++ rest' -> c = c' /\ rest = rest'.
Proof.
  destruct (escape_char_cases c)
    as [[-> ->]|[[-> ->]|[[-> ->]|[[-> ->]|[[-> ->]|(Hs & Ha & ->)]]]]];
  destruct (escape_char_cases c')
    as [[-> ->]|[[-> ->]|[[-> ->]|[[-> ->]|[[-> ->]|(Hs' & Ha' & ->)]]]]];
  intros Heq; try discriminate Heq;
    try (injection Heq as Heq; split; [reflexivity | exact Heq]);
    try (injection Heq as Hc Heq; subst; discriminate).
  injection Heq as -> Heq. now split.
Qed.

Lemma escape_char_nonempty c : escape_char c <> [].
Proof.
  destruct (escape_char_cases c)
    as [[_ ->]|[[_ ->]|[[_ ->]|[[_ ->]|[[_ ->]|(_ & _ & ->)]]]]]; discriminate.
Qed.

(** X26: escaping loses nothing: two texts with the same escaped form are the
    same text, so distinct feature names or titles never render alike. *)
Theorem html_escape_injective s s' :
  html_escape s = html_escape s' -> s = s'.
Proof.
  revert s'. induction s as [|c s IH]; intros [|c' s'] Heq.
  - reflexivity.
  - rewrite html_escape_cons in Heq. symmetry in Heq.
    apply app_eq_nil in Heq as [Heq _]. now apply escape_char_nonempty in Heq.
  - rewrite html_escape_cons in Heq.
    apply app_eq_nil in Heq as [Heq _]. now apply escape_char_nonempty in Heq.
  - rewrite !html_escape_cons in Heq.
    apply escape_char_inj in Heq as [-> Heq]. f_equal. now apply IH.
Qed.

Lemma html_escape_injective_witness :
  lit "a<b" = lit "a<b".
Proof. apply html_escape_injective. reflexivity. Defined.
